(** * NIFTy: Fields, operators, linearizations and minimizers

    A shallow embedding of the parts of the NIFTy sources that the
    specification talks about, with the properties it states.

    Python objects are records; an object whose identity matters (a
    [DomainTuple], compared with [is] all over the code) carries the
    address it was allocated at.  A function that can raise returns a
    [result]; a function that reads or writes module-level state (the
    [_tupleCache] of [DomainTuple]) takes the state and returns the new
    one.  What numpy computes with is an interface, [Scalar], with the
    real and the complex numbers as the idealised [float64] and
    [complex128], and with [float64] as the reals together with [inf] and
    [nan] for the Poisson likelihood, whose claim is about these. *)

From Stdlib Require Import Reals Lra.
From stdpp Require Import base option list gmap strings.

(** ** Python exceptions and results *)

Inductive exception : Type :=
| TypeError (msg : string)
| ValueError (msg : string)
| NotImplementedError (msg : string)
| AttributeError (msg : string)
| IndexError (msg : string).

Inductive result (A : Type) : Type :=
| Ok (a : A)
| Raise (e : exception).
Arguments Ok {A} a.
Arguments Raise {A} e.

(** [result] is a monad, with stdpp's notation [x ← r; k]. *)
#[global] Instance result_ret : MRet result := λ A a, Ok a.
#[global] Instance result_bind : MBind result := λ A B k r,
  match r with
  | Ok a => k a
  | Raise e => Raise e
  end.

#[global] Instance result_fmap : FMap result := λ A B f r,
  match r with
  | Ok a => Ok (f a)
  | Raise e => Raise e
  end.

Definition is_Ok {A : Type} (r : result A) : Prop := ∃ a, r = Ok a.

(** A loop that builds a list and stops at the first exception. *)
Fixpoint for_each {A B : Type} (f : A → result B) (l : list A) : result (list B) :=
  match l with
  | [] => Ok []
  | a :: l' => b ← f a; bs ← for_each f l'; Ok (b :: bs)
  end.

(** ** Scalars

    What numpy computes on, one entry at a time.  The interface follows
    numpy's [dtype]s: [float64] and [complex128] idealised as the real and
    the complex numbers, and [float64] with its special values. *)

Class Scalar (K : Type) : Type := {
  Kzero : K;
  Kone : K;
  Kadd : K → K → K;
  Ksub : K → K → K;
  Kmul : K → K → K;
  Kdiv : K → K → K;
  Kneg : K → K;
  Kconj : K → K;
  (** Python's [==] on two scalars. *)
  Keqb : K → K → bool;
  (** [np.issubdtype(dtype, np.complexfloating)]. *)
  Kcomplexfloating : bool
}.

(** The functions of [for f in ["sqrt", "exp", "log", "tanh"]]. *)
Class Elementary (K : Type) : Type := {
  Ksqrt : K → K;
  Kexp : K → K;
  Klog : K → K;
  Ktanh : K → K
}.

(** The remaining elementwise operators behind the binary dunder methods. *)
Class Ufunc2 (K : Type) : Type := {
  Kfloordiv : K → K → K;
  Kpow : K → K → K;
  Klt : K → K → bool;
  Kle : K → K → bool
}.

(** Scalars on which a product with zero is zero, as it is on every finite
    number ([inf] and [nan] do not have it). *)
Class ExactZero (K : Type) `{Scalar K} : Prop := {
  Kmul_zero_r : ∀ x : K, Kmul x Kzero = Kzero;
  Keqb_zero_one : Keqb (Kzero : K) Kone = false;
  Keqb_zero_zero : Keqb (Kzero : K) Kzero = true;
  Keqb_one_one : Keqb (Kone : K) Kone = true
}.

(** Scalars that compute exactly: [==] is equality, and the laws of
    arithmetic hold that the short cuts of [Field.__add__], [__sub__] and
    [__mul__] rely on.  The real and the complex numbers have them. *)
Class ExactRing (K : Type) `{Scalar K} : Prop := {
  Keqb_eq : ∀ x y : K, Keqb x y = true → x = y;
  Keqb_refl : ∀ x : K, Keqb x x = true;
  Kadd_comm : ∀ x y : K, Kadd x y = Kadd y x;
  Kadd_zero_r : ∀ x : K, Kadd x Kzero = x;
  Ksub_zero_r : ∀ x : K, Ksub x Kzero = x;
  Ksub_zero_l : ∀ x : K, Ksub Kzero x = Kneg x;
  Kmul_comm : ∀ x y : K, Kmul x y = Kmul y x;
  Kmul_one_r : ∀ x : K, Kmul x Kone = x;
  Kmul_zero_right : ∀ x : K, Kmul x Kzero = Kzero
}.

(** [abs] of a scalar, a float. *)
Class Modulus (K : Type) : Type := {
  Kabs : K → R
}.

(** numpy's [True] and [False] as numbers. *)
Definition Kbool {K : Type} `{Scalar K} (b : bool) : K := if b then Kone else Kzero.

(** *** float64 as the reals *)

#[global] Instance R_eq_dec : EqDecision R := Req_dec_T.
#[global] Instance Rlt_decision : RelDecision Rlt := Rlt_dec.
#[global] Instance Rle_decision : RelDecision Rle := Rle_dec.

#[global] Instance R_Scalar : Scalar R := {|
  Kzero := 0%R;
  Kone := 1%R;
  Kadd := Rplus;
  Ksub := Rminus;
  Kmul := Rmult;
  Kdiv := Rdiv;
  Kneg := Ropp;
  Kconj := λ x, x;
  Keqb := λ x y, bool_decide (x = y);
  Kcomplexfloating := false
|}.

#[global] Instance R_Elementary : Elementary R := {|
  Ksqrt := sqrt;
  Kexp := exp;
  Klog := ln;
  Ktanh := tanh
|}.

(** [x ** y]: an integer exponent is repeated multiplication, any other
    one goes through the logarithm. *)
Definition R_pow (x y : R) : R :=
  if decide (IZR (Int_part y) = y) then powerRZ x (Int_part y) else Rpower x y.

#[global] Instance R_Ufunc2 : Ufunc2 R := {|
  Kfloordiv := λ x y, IZR (Int_part (x / y));
  Kpow := R_pow;
  Klt := λ x y, bool_decide (x < y)%R;
  Kle := λ x y, bool_decide (x <= y)%R
|}.

(** *** complex128 as pairs of reals *)

Definition complex : Type := R * R.

Definition Cadd (a b : complex) : complex := (a.1 + b.1, a.2 + b.2)%R.
Definition Csub (a b : complex) : complex := (a.1 - b.1, a.2 - b.2)%R.
Definition Cmul (a b : complex) : complex :=
  (a.1 * b.1 - a.2 * b.2, a.1 * b.2 + a.2 * b.1)%R.
Definition Cneg (a : complex) : complex := (- a.1, - a.2)%R.
Definition Cconj (a : complex) : complex := (a.1, - a.2)%R.
Definition Cdiv (a b : complex) : complex :=
  let n := (b.1 * b.1 + b.2 * b.2)%R in
  ((a.1 * b.1 + a.2 * b.2) / n, (a.2 * b.1 - a.1 * b.2) / n)%R.
Definition RtoC (r : R) : complex := (r, 0%R).

#[global] Instance C_Scalar : Scalar complex := {|
  Kzero := RtoC 0;
  Kone := RtoC 1;
  Kadd := Cadd;
  Ksub := Csub;
  Kmul := Cmul;
  Kdiv := Cdiv;
  Kneg := Cneg;
  Kconj := Cconj;
  Keqb := λ x y, bool_decide (x = y);
  Kcomplexfloating := true
|}.

#[global] Instance R_Modulus : Modulus R := {| Kabs := Rabs |}.

#[global] Instance C_Modulus : Modulus complex := {|
  Kabs := λ z, sqrt (z.1 * z.1 + z.2 * z.2)
|}.

(** *** float64 with [inf] and [nan]

    The finite values are idealised as reals; what is kept of IEEE 754 is
    how the special values arise and propagate.  The sign of a zero is not
    kept: a division of a non-zero number by zero takes the sign of the
    numerator. *)

Inductive float64 : Type :=
| Fin (r : R)
| PInf
| NInf
| NaN.

Definition f64_neg (x : float64) : float64 :=
  match x with
  | Fin r => Fin (- r)
  | PInf => NInf
  | NInf => PInf
  | NaN => NaN
  end.

Definition f64_add (x y : float64) : float64 :=
  match x, y with
  | NaN, _ | _, NaN => NaN
  | PInf, NInf | NInf, PInf => NaN
  | PInf, _ | _, PInf => PInf
  | NInf, _ | _, NInf => NInf
  | Fin a, Fin b => Fin (a + b)
  end.

Definition f64_sub (x y : float64) : float64 := f64_add x (f64_neg y).

(** The infinity with the sign of [r], and [nan] for [r = 0]. *)
Definition f64_signed_inf (r : R) : float64 :=
  if decide (0 < r)%R then PInf
  else if decide (r < 0)%R then NInf
  else NaN.

Definition f64_mul (x y : float64) : float64 :=
  match x, y with
  | NaN, _ | _, NaN => NaN
  | Fin a, Fin b => Fin (a * b)
  | Fin a, PInf | PInf, Fin a => f64_signed_inf a
  | Fin a, NInf | NInf, Fin a => f64_signed_inf (- a)
  | PInf, PInf | NInf, NInf => PInf
  | PInf, NInf | NInf, PInf => NInf
  end.

Definition f64_div (x y : float64) : float64 :=
  match x, y with
  | NaN, _ | _, NaN => NaN
  | Fin a, Fin b => if decide (b = 0%R) then f64_signed_inf a else Fin (a / b)
  | Fin _, (PInf | NInf) => Fin 0
  | (PInf | NInf), (PInf | NInf) => NaN
  | PInf, Fin b => if decide (b < 0)%R then NInf else PInf
  | NInf, Fin b => if decide (b < 0)%R then PInf else NInf
  end.

Definition f64_eqb (x y : float64) : bool :=
  match x, y with
  | Fin a, Fin b => bool_decide (a = b)
  | PInf, PInf | NInf, NInf => true
  | _, _ => false
  end.

#[global] Instance f64_Scalar : Scalar float64 := {|
  Kzero := Fin 0;
  Kone := Fin 1;
  Kadd := f64_add;
  Ksub := f64_sub;
  Kmul := f64_mul;
  Kdiv := f64_div;
  Kneg := f64_neg;
  Kconj := λ x, x;
  Keqb := f64_eqb;
  Kcomplexfloating := false
|}.

(** [np.log]: [-inf] at zero and [nan] below it. *)
Definition f64_log (x : float64) : float64 :=
  match x with
  | Fin r =>
      if decide (0 < r)%R then Fin (ln r)
      else if decide (r = 0%R) then NInf
      else NaN
  | PInf => PInf
  | NInf | NaN => NaN
  end.

Definition f64_sqrt (x : float64) : float64 :=
  match x with
  | Fin r => if decide (r < 0)%R then NaN else Fin (sqrt r)
  | PInf => PInf
  | NInf | NaN => NaN
  end.

Definition f64_exp (x : float64) : float64 :=
  match x with
  | Fin r => Fin (exp r)
  | PInf => PInf
  | NInf => Fin 0
  | NaN => NaN
  end.

Definition f64_tanh (x : float64) : float64 :=
  match x with
  | Fin r => Fin (tanh r)
  | PInf => Fin 1
  | NInf => Fin (-1)
  | NaN => NaN
  end.

#[global] Instance f64_Elementary : Elementary float64 := {|
  Ksqrt := f64_sqrt;
  Kexp := f64_exp;
  Klog := f64_log;
  Ktanh := f64_tanh
|}.

Definition is_finite (x : float64) : Prop := ∃ r, x = Fin r.

(** ** domain_tuple.py *)

Module DomainTuples.
Section domain_tuple.

(** [Domain] is the abstract base class of the concrete spaces, which live
    outside of this development; objects of it are hashable and compared
    by content, and [DomainTuple] reads their [shape]. *)
Context {Domain : Type} `{Countable Domain}.
Variable shape : Domain → list nat.

(** A [DomainTuple] object.  [addr] is the identity of the object: [x is y]
    is [addr x = addr y]. *)
Record DomainTuple : Type := mkDomainTuple {
  addr : nat;
  _dom : list Domain;
  _axtuple : list (list nat);
  _shape : list nat;
  _size : nat
}.

(** What [make] and [_parse_domain] are called with: [None], one [Domain],
    or an iterable of Python objects, each of which is a [Domain] or not. *)
Inductive pyobj : Type :=
| PyDomain (d : Domain)
| PyOther.

Inductive description : Type :=
| DNone
| DDomain (d : Domain)
| DIter (l : list pyobj).

Fixpoint all_domains (l : list pyobj) : result (list Domain) :=
  match l with
  | [] => Ok []
  | PyDomain d :: l' => ds ← all_domains l'; Ok (d :: ds)
  | PyOther :: _ =>
      Raise (TypeError "Given object contains something that is not an instance of Domain class.")
  end.

Definition _parse_domain (domain : description) : result (list Domain) :=
  match domain with
  | DNone => Ok []
  | DDomain d => Ok [d]
  | DIter l => all_domains l
  end.

Fixpoint _get_axes_tuple_from (i : nat) (dom : list Domain) : list (list nat) :=
  match dom with
  | [] => []
  | thing :: rest =>
      let nax := length (shape thing) in
      seq i nax :: _get_axes_tuple_from (i + nax) rest
  end.

Definition _get_axes_tuple (dom : list Domain) : list (list nat) :=
  _get_axes_tuple_from 0 dom.

(** [DomainTuple.__init__], for the object allocated at [a].  It is only
    ever reached from [make], with a tuple that went through
    [_parse_domain] already. *)
Definition __init__ (a : nat) (domain : list Domain) (_callingfrommake : bool)
  : result DomainTuple :=
  if negb _callingfrommake then Raise (NotImplementedError "")
  else
    let shp := foldl (λ x y, x ++ y) [] (shape <$> domain) in
    Ok {| addr := a;
          _dom := domain;
          _axtuple := _get_axes_tuple domain;
          _shape := shp;
          _size := foldl Nat.mul 1 shp |}.

(** The class attribute [_tupleCache] and the allocator's next free
    address. *)
Record state : Type := mkState {
  _tupleCache : gmap (list Domain) DomainTuple;
  next_addr : nat
}.

Definition initial : state := {| _tupleCache := ∅; next_addr := 0 |}.

(** [DomainTuple.make]. *)
Definition make (domain : DomainTuple + description) (st : state)
  : result DomainTuple * state :=
  match domain with
  | inl dt => (Ok dt, st)
  | inr d =>
      match _parse_domain d with
      | Raise e => (Raise e, st)
      | Ok domain =>
          match _tupleCache st !! domain with
          | Some obj => (Ok obj, st)
          | None =>
              match __init__ (next_addr st) domain true with
              | Raise e => (Raise e, st)
              | Ok obj =>
                  (Ok obj,
                   {| _tupleCache := <[domain := obj]> (_tupleCache st);
                      next_addr := S (next_addr st) |})
              end
          end
      end
  end.

(** [DomainTuple.__eq__]. *)
Definition __eq__ (self x : DomainTuple) : bool :=
  bool_decide (addr self = addr x) || bool_decide (_dom self = _dom x).

(** A run of the program, as far as the cache is concerned: the
    descriptions [make] is called with, in order. *)
Definition run (calls : list description) (st : state) : state :=
  foldl (λ s d, snd (make (inr d) s)) st calls.

(** The cache invariant: an entry is filed under its own [_dom], lives
    below the allocation pointer, and no two entries share an address. *)
Record cache_ok (st : state) : Prop := {
  cache_key : ∀ k obj, _tupleCache st !! k = Some obj → _dom obj = k;
  cache_below : ∀ k obj, _tupleCache st !! k = Some obj → addr obj < next_addr st;
  cache_inj : ∀ k1 k2 o1 o2,
    _tupleCache st !! k1 = Some o1 → _tupleCache st !! k2 = Some o2 →
    addr o1 = addr o2 → k1 = k2
}.

(** [DomainTuple.__len__]. *)
Definition __len__ (self : DomainTuple) : nat := length (_dom self).

(** [DomainTuple.__ne__]. *)
Definition __ne__ (self x : DomainTuple) : bool := negb (__eq__ self x).

(** The class attributes together: the cache with the allocator, and
    [_scalarDomain]. *)
Record class_state : Type := mkClassState {
  cache : state;
  _scalarDomain : option DomainTuple
}.

Definition initial_class : class_state := {| cache := initial; _scalarDomain := None |}.

(** [DomainTuple.scalar_domain]; [make(())] is [make] of the empty tuple. *)
Definition scalar_domain (cs : class_state) : result DomainTuple * class_state :=
  match _scalarDomain cs with
  | Some obj => (Ok obj, cs)
  | None =>
      let r := make (inr (DIter [])) (cache cs) in
      match r.1 with
      | Ok obj => (Ok obj, {| cache := r.2; _scalarDomain := Some obj |})
      | Raise e => (Raise e, {| cache := r.2; _scalarDomain := None |})
      end
  end.

(** What a program does to the class: it calls [make] with a description,
    or [scalar_domain]. *)
Inductive call : Type :=
| CallMake (d : description)
| CallScalarDomain.

Definition step (cs : class_state) (c : call) : class_state :=
  match c with
  | CallMake d => {| cache := snd (make (inr d) (cache cs)); _scalarDomain := _scalarDomain cs |}
  | CallScalarDomain => snd (scalar_domain cs)
  end.

Definition run_class (calls : list call) (cs : class_state) : class_state :=
  foldl step cs calls.

(** The product of the entries of a shape. *)
Definition prod_shape (shp : list nat) : nat := foldr Nat.mul 1 shp.

(** [DomainTuple.__reduce__] gives the arguments of the call that
    unpickles the object, [_unpickleDomainTuple] makes that call. *)
Definition __reduce__ (self : DomainTuple) : description :=
  DIter (PyDomain <$> _dom self).

Definition _unpickleDomainTuple (args : description) (st : state)
  : result DomainTuple * state :=
  make (inr args) st.

(** Each object in the cache is what the constructor builds for its key. *)
Definition cache_built (st : state) : Prop :=
  ∀ k obj, _tupleCache st !! k = Some obj → __init__ (addr obj) k true = Ok obj.

(** [_scalarDomain], once set, is the object cached for the empty tuple. *)
Definition class_ok (cs : class_state) : Prop :=
  ∀ obj, _scalarDomain cs = Some obj → _tupleCache (cache cs) !! [] = Some obj.

(** The tuples the calls of a run ask for. *)
Definition requested (calls : list description) : list (list Domain) :=
  omap (λ d, match _parse_domain d with Ok k => Some k | Raise _ => None end) calls.

End domain_tuple.
End DomainTuples.

(** ** field.py (nifty5) *)

Module Fields.
Section field.

Context {Domain : Type} {K : Type} `{Scalar K}.
#[local] Abbreviation DomainTuple := (@DomainTuples.DomainTuple Domain).

(** [x is y] on two [DomainTuple] objects. *)
Definition is_ (x y : DomainTuple) : bool :=
  bool_decide (DomainTuples.addr x = DomainTuples.addr y).

(** A [dobj.data_object], that is a numpy array: its shape and its entries
    in row-major order. *)
Record data_object : Type := mkArray {
  arr_shape : list nat;
  arr_data : list K
}.

Definition arr_size (shape : list nat) : nat := foldl Nat.mul 1 shape.

Definition uniform_full (shape : list nat) (val : K) : data_object :=
  {| arr_shape := shape; arr_data := replicate (arr_size shape) val |}.

(** An elementwise function of one array, and of two arrays of one shape
    (all arrays that meet below belong to Fields of one domain). *)
Definition arr_map (f : K → K) (a : data_object) : data_object :=
  {| arr_shape := arr_shape a; arr_data := f <$> arr_data a |}.

Definition arr_zip (f : K → K → K) (a b : data_object) : data_object :=
  {| arr_shape := arr_shape a; arr_data := zip_with f (arr_data a) (arr_data b) |}.

Definition arr_sum (a : data_object) : K := foldr Kadd Kzero (arr_data a).

(** [dobj.vdot], numpy's [vdot]: the first argument is conjugated. *)
Definition dobj_vdot (a b : data_object) : K :=
  arr_sum (arr_zip (λ x y, Kmul (Kconj x) y) a b).

Record Field : Type := mkField {
  _domain : DomainTuple;
  _val : data_object;
  _uni : option K
}.

(** [Field.__init__]; [val] is a data object or a scalar. *)
Definition __init__ (domain : DomainTuple) (val : data_object + K) : result Field :=
  match val with
  | inr s =>
      Ok {| _domain := domain;
            _val := uniform_full (DomainTuples._shape domain) s;
            _uni := Some s |}
  | inl a =>
      if bool_decide (DomainTuples._shape domain = arr_shape a)
      then Ok {| _domain := domain; _val := a; _uni := None |}
      else Raise (ValueError "mismatch between the shapes of val and domain")
  end.

(** The constant Field: what [Field(domain, k)] builds for a scalar [k]. *)
Definition constant (d : DomainTuple) (k : K) : Field :=
  {| _domain := d; _val := uniform_full (DomainTuples._shape d) k; _uni := Some k |}.

(** [Field.full], called with a [DomainTuple], which [DomainTuple.make]
    hands back as it is. *)
Definition full (domain : DomainTuple) (val : K) : result Field :=
  __init__ domain (inr val).

(** The right operand of a binary operator: a [Field], a scalar, an array
    or anything else. *)
Inductive operand : Type :=
| OField (f : Field)
| OScalar (k : K)
| OArray (a : data_object)
| OOther.

(** [return NotImplemented]: with an operand that has no reflected method
    of its own, Python turns it into this error. *)
Definition NotImplemented : result Field :=
  Raise (TypeError "unsupported operand type(s)").

Definition __neg__ (self : Field) : result Field :=
  match _uni self with
  | None => __init__ (_domain self) (inl (arr_map Kneg (_val self)))
  | Some u => __init__ (_domain self) (inr (Kneg u))
  end.

Definition __add__ (self : Field) (other : operand) : result Field :=
  match other with
  | OField other =>
      if negb (is_ (_domain other) (_domain self))
      then Raise (ValueError "domains are incompatible.")
      else
        match _uni self with
        | None =>
            match _uni other with
            | None => __init__ (_domain self) (inl (arr_zip Kadd (_val self) (_val other)))
            | Some ou =>
                if Keqb ou Kzero then Ok self
                else __init__ (_domain self) (inl (arr_map (λ x, Kadd x ou) (_val self)))
            end
        | Some su =>
            if Keqb su Kzero then Ok other
            else
              match _uni other with
              | None => __init__ (_domain self) (inl (arr_map (λ x, Kadd x su) (_val other)))
              | Some ou => __init__ (_domain self) (inr (Kadd su ou))
              end
        end
  | OScalar o =>
      match _uni self with
      | None => __init__ (_domain self) (inl (arr_map (λ x, Kadd x o) (_val self)))
      | Some su => __init__ (_domain self) (inr (Kadd su o))
      end
  | OArray a => __init__ (_domain self) (inl (arr_zip Kadd (_val self) a))
  | OOther => NotImplemented
  end.

Definition __radd__ (self : Field) (other : operand) : result Field :=
  __add__ self other.

Definition __sub__ (self : Field) (other : operand) : result Field :=
  match other with
  | OField other =>
      if negb (is_ (_domain other) (_domain self))
      then Raise (ValueError "domains are incompatible.")
      else
        match _uni self with
        | None =>
            match _uni other with
            | None => __init__ (_domain self) (inl (arr_zip Ksub (_val self) (_val other)))
            | Some ou =>
                if Keqb ou Kzero then Ok self
                else __init__ (_domain self) (inl (arr_map (λ x, Ksub x ou) (_val self)))
            end
        | Some su =>
            if Keqb su Kzero then __neg__ other
            else
              match _uni other with
              | None => __init__ (_domain self) (inl (arr_map (λ x, Ksub su x) (_val other)))
              | Some ou => __init__ (_domain self) (inr (Ksub su ou))
              end
        end
  | OScalar o =>
      match _uni self with
      | None => __init__ (_domain self) (inl (arr_map (λ x, Ksub x o) (_val self)))
      | Some su => __init__ (_domain self) (inr (Ksub su o))
      end
  | OArray a => __init__ (_domain self) (inl (arr_zip Ksub (_val self) a))
  | OOther => NotImplemented
  end.

Definition __mul__ (self : Field) (other : operand) : result Field :=
  match other with
  | OField other =>
      if negb (is_ (_domain other) (_domain self))
      then Raise (ValueError "domains are incompatible.")
      else
        match _uni self with
        | None =>
            match _uni other with
            | None => __init__ (_domain self) (inl (arr_zip Kmul (_val self) (_val other)))
            | Some ou =>
                if Keqb ou Kone then Ok self
                else if Keqb ou Kzero then Ok other
                else __init__ (_domain self) (inl (arr_map (λ x, Kmul x ou) (_val self)))
            end
        | Some su =>
            if Keqb su Kone then Ok other
            else if Keqb su Kzero then Ok self
            else
              match _uni other with
              | None => __init__ (_domain self) (inl (arr_map (λ x, Kmul x su) (_val other)))
              | Some ou => __init__ (_domain self) (inr (Kmul su ou))
              end
        end
  | OScalar o =>
      match _uni self with
      | None =>
          if Keqb o Kone then Ok self
          else if Keqb o Kzero then __init__ (_domain self) (inr o)
          else __init__ (_domain self) (inl (arr_map (λ x, Kmul x o) (_val self)))
      | Some su => __init__ (_domain self) (inr (Kmul su o))
      end
  | OArray a => __init__ (_domain self) (inl (arr_zip Kmul (_val self) a))
  | OOther => NotImplemented
  end.

(** The generic [func2], for the array operator [op]. *)
Definition func2 (op : K → K → K) (self : Field) (other : operand) : result Field :=
  match other with
  | OField other =>
      if negb (is_ (_domain other) (_domain self))
      then Raise (ValueError "domains are incompatible.")
      else __init__ (_domain self) (inl (arr_zip op (_val self) (_val other)))
  | OScalar o => __init__ (_domain self) (inl (arr_map (λ x, op x o) (_val self)))
  | OArray a => __init__ (_domain self) (inl (arr_zip op (_val self) a))
  | OOther => NotImplemented
  end.

Definition __rsub__ : Field → operand → result Field := func2 (λ x y, Ksub y x).
Definition __rmul__ : Field → operand → result Field := func2 (λ x y, Kmul y x).
Definition __truediv__ : Field → operand → result Field := func2 Kdiv.
Definition __rtruediv__ : Field → operand → result Field := func2 (λ x y, Kdiv y x).
Definition __pow__ `{Ufunc2 K} : Field → operand → result Field := func2 Kpow.

(** The names both loops over operators run through; [Field] defines the
    first four by hand and the others through [func2]. *)
Inductive dunder : Type :=
| add_ | radd_ | sub_ | rsub_ | mul_ | rmul_
| div_ | rdiv_ | truediv_ | rtruediv_ | floordiv_ | rfloordiv_
| pow_ | rpow_ | lt_ | le_ | gt_ | ge_ | eq_ | ne_.

(** [getattr(self._val, op)] on two entries; [__div__] is the one of
    Python 2, under [from __future__ import division]. *)
Definition np_getattr `{Ufunc2 K} (op : dunder) : K → K → K :=
  match op with
  | add_ | radd_ => Kadd
  | sub_ => Ksub
  | rsub_ => λ x y, Ksub y x
  | mul_ | rmul_ => Kmul
  | div_ | truediv_ => Kdiv
  | rdiv_ | rtruediv_ => λ x y, Kdiv y x
  | floordiv_ => Kfloordiv
  | rfloordiv_ => λ x y, Kfloordiv y x
  | pow_ => Kpow
  | rpow_ => λ x y, Kpow y x
  | lt_ => λ x y, Kbool (Klt x y)
  | le_ => λ x y, Kbool (Kle x y)
  | gt_ => λ x y, Kbool (Klt y x)
  | ge_ => λ x y, Kbool (Kle y x)
  | eq_ => λ x y, Kbool (Keqb x y)
  | ne_ => λ x y, Kbool (negb (Keqb x y))
  end.

(** [getattr(v, op)] on a [Field]. *)
Definition getattr `{Ufunc2 K} (op : dunder) : Field → operand → result Field :=
  match op with
  | add_ => __add__
  | radd_ => __radd__
  | sub_ => __sub__
  | mul_ => __mul__
  | _ => func2 (np_getattr op)
  end.

(** The elementary functions of the last loop of the file. *)
Definition func1 (fu : K → K) (self : Field) : result Field :=
  match _uni self with
  | None => __init__ (_domain self) (inl (arr_map fu (_val self)))
  | Some u => __init__ (_domain self) (inr (fu u))
  end.

Definition sqrt `{Elementary K} : Field → result Field := func1 Ksqrt.
Definition exp `{Elementary K} : Field → result Field := func1 Kexp.
Definition log `{Elementary K} : Field → result Field := func1 Klog.
Definition tanh `{Elementary K} : Field → result Field := func1 Ktanh.

(** [Field.vdot] with [spaces=None], the contraction over all sub-domains.
    (With a proper subset of them the result is a [Field]; that branch is
    not part of this development.) *)
Definition vdot (self : Field) (x : operand) : result K :=
  match x with
  | OField x =>
      if negb (is_ (_domain x) (_domain self))
      then Raise (ValueError "Domain mismatch")
      else Ok (dobj_vdot (_val self) (_val x))
  | _ => Raise (TypeError "The dot-partner must be an instance of the NIFTy field class")
  end.

Definition conjugate (self : Field) : result Field :=
  if Kcomplexfloating
  then __init__ (_domain self) (inl (arr_map Kconj (_val self)))
  else Ok self.

(** [x.local_data[()]], the entry of a Field over the scalar domain. *)
Definition item (self : Field) : result K :=
  match arr_data (_val self) with
  | [k] => Ok k
  | _ => Raise (IndexError "too many indices for array")
  end.

(** The entries of a Field, in row-major order. *)
Definition entries (self : Field) : list K := arr_data (_val self).

(** [Field.sum] with [spaces=None]. *)
Definition sum (self : Field) : K := arr_sum (_val self).

Definition unite (self other : Field) : result Field := __add__ self (OField other).

(** What numpy and [Field.__init__] keep true of every [Field]: the array
    has as many entries as its shape says, the shape is the domain's, and
    [_uni] is set exactly on the arrays from [uniform_full]. *)
Record field_ok (f : Field) : Prop := {
  ok_shape : arr_shape (_val f) = DomainTuples._shape (_domain f);
  ok_length : length (arr_data (_val f)) = arr_size (arr_shape (_val f));
  ok_uni : ∀ u, _uni f = Some u → _val f = uniform_full (DomainTuples._shape (_domain f)) u
}.

(** A Field that a method returns for [self]: well-formed, and on the
    domain of [self]. *)
Definition built (self : Field) (r : result Field) : Prop :=
  ∃ f, r = Ok f ∧ field_ok f ∧ _domain f = _domain self.

(** A Field built from [v], entry by entry. *)
Definition mapped (g : K → K) (v : Field) (r : result Field) : Prop :=
  ∃ f, r = Ok f ∧ field_ok f ∧ _domain f = _domain v ∧ entries f = g <$> entries v.

(** [Field.__pos__]. *)
Definition __pos__ (self : Field) : result Field := Ok self.

(** [Field.cast_domain], called with a [DomainTuple]. *)
Definition cast_domain (self : Field) (new_domain : DomainTuple) : result Field :=
  __init__ new_domain (inl (_val self)).

(** [Field.extract]. *)
Definition extract (self : Field) (dom : DomainTuple) : result Field :=
  if negb (is_ dom (_domain self)) then Raise (ValueError "domain mismatch")
  else Ok self.

(** [Field.squared_norm] and [Field.norm]. *)
Definition squared_norm `{Modulus K} (self : Field) : result R :=
  v ← vdot self (OField self); Ok (Kabs v).

Definition norm `{Modulus K} (self : Field) : result R :=
  v ← vdot self (OField self); Ok (Stdlib.Reals.R_sqrt.sqrt (Kabs v)).

End field.

Section real_field.

Context {Domain : Type}.
#[local] Abbreviation RField := (@Field Domain R).

(** [Field.positive_tanh]: [1.+f] is [f.__radd__(1.)], and [0.5*f] is
    [f.__rmul__(0.5)]. *)
Definition positive_tanh (self : RField) : result RField :=
  match _uni self with
  | None =>
      t ← tanh self;
      u ← __radd__ t (OScalar 1%R);
      __rmul__ u (OScalar (1 / 2)%R)
  | Some u => __init__ (_domain self) (inr (1 / 2 * (1 + Rtrigo_def.tanh u))%R)
  end.

(** The sum of the squared moduli of complex numbers. *)
Definition sum_abs2 (l : list complex) : R :=
  foldr (λ z acc, (z.1 * z.1 + z.2 * z.2 + acc)%R) 0%R l.

End real_field.
End Fields.

(** ** multi_field.py (nifty5) *)

Module MultiFields.
Section multi_field.

Context {Domain : Type} {K : Type} `{Scalar K}.
#[local] Abbreviation DomainTuple := (@DomainTuples.DomainTuple Domain).
#[local] Abbreviation Field := (@Fields.Field Domain K).

(** Modelled from the spec: [MultiDomain], whose class is not part of the
    sources at hand, "mapping from string key to DomainTuple (keys unique,
    canonical sorted order)", canonicalized like a [DomainTuple]: the
    object's address, its keys and, in the order of the keys, the
    sub-domains ([_domains]). *)
Record MultiDomain : Type := mkMultiDomain {
  md_addr : nat;
  keys : list string;
  _domains : list DomainTuple
}.

Definition md_is (x y : MultiDomain) : bool := bool_decide (md_addr x = md_addr y).

Record MultiField : Type := mkMultiField {
  _domain : MultiDomain;
  _val : list (option Field)
}.

(** [MultiField.__init__]; [val] is a tuple of Fields and [None]s. *)
Definition __init__ (domain : MultiDomain) (val : list (option Field)) : result MultiField :=
  if negb (bool_decide (length val = length (keys domain)))
  then Raise (ValueError "length mismatch")
  else if forallb (λ vd, match vd.1 with
                         | Some v => Fields.is_ (Fields._domain v) vd.2
                         | None => true
                         end) (zip val (_domains domain))
  then Ok {| _domain := domain; _val := val |}
  else Raise (ValueError "domain mismatch").

Definition _transform (self : MultiField) (op : Field → result Field) : result MultiField :=
  res ← for_each (λ v, match v with
                       | Some v => Some <$> op v
                       | None => Ok None
                       end) (_val self);
  __init__ (_domain self) res.

Definition full (domain : MultiDomain) (val : K) : result MultiField :=
  res ← for_each (λ dom, Some <$> Fields.full dom val) (_domains domain);
  __init__ domain res.

(** The right operand of a binary operator. *)
Inductive operand : Type :=
| OMultiField (m : MultiField)
| OElse (o : @Fields.operand Domain K).

(** One turn of the loop of [func2]; [f] is [getattr(_, op)], a method of
    [Field]. *)
Definition func2_entry (f : Field → @Fields.operand Domain K → result Field)
  (v1 v2 : option Field) : result (option Field) :=
  match v1, v2 with
  | Some v1, None =>
      z ← Fields.__mul__ v1 (Fields.OScalar Kzero);
      Some <$> f v1 (Fields.OField z)
  | Some v1, Some v2 => Some <$> f v1 (Fields.OField v2)
  | None, None => Ok None
  | None, Some v2 =>
      z ← Fields.__mul__ v2 (Fields.OScalar Kzero);
      Some <$> f z (Fields.OField v2)
  end.

Definition func2 (f : Field → @Fields.operand Domain K → result Field)
  (self : MultiField) (other : operand) : result MultiField :=
  match other with
  | OMultiField other =>
      if negb (md_is (_domain self) (_domain other))
      then Raise (ValueError "domain mismatch")
      else
        res ← for_each (λ v, func2_entry f v.1 v.2) (zip (_val self) (_val other));
        __init__ (_domain self) res
  | OElse other => _transform self (λ x, f x other)
  end.

(** The methods that the loop over the operator names installs. *)
Definition getattr `{Ufunc2 K} (op : Fields.dunder) : MultiField → operand → result MultiField :=
  func2 (Fields.getattr op).

Definition conjugate (self : MultiField) : result MultiField :=
  _transform self Fields.conjugate.

Definition __neg__ (self : MultiField) : result MultiField :=
  _transform self Fields.__neg__.

Definition __add__ : MultiField → operand → result MultiField := func2 Fields.__add__.
Definition __mul__ : MultiField → operand → result MultiField := func2 Fields.__mul__.
Definition __truediv__ : MultiField → operand → result MultiField := func2 Fields.__truediv__.

(** [MultiField.vdot]. *)
Fixpoint vdot_loop (l : list (option Field * option Field)) (acc : K) : result K :=
  match l with
  | [] => Ok acc
  | (Some v1, Some v2) :: l' =>
      r ← Fields.vdot v1 (Fields.OField v2); vdot_loop l' (Kadd acc r)
  | _ :: l' => vdot_loop l' acc
  end.

Definition vdot (self x : MultiField) : result K :=
  if negb (md_is (_domain x) (_domain self))
  then Raise (ValueError "domains are incompatible.")
  else vdot_loop (zip (_val self) (_val x)) Kzero.

(** [MultiField.__getitem__]; [idx] maps a key to its position. *)
Definition idx (domain : MultiDomain) (key : string) : option nat :=
  list_find (λ k, k = key) (keys domain) ≫= λ r, Some r.1.

Definition __getitem__ (self : MultiField) (key : string) : option (option Field) :=
  i ← idx (_domain self) key; _val self !! i.

(** The invariant of the constructor, over well-formed Fields: there is
    one entry per key, and a Field that is present lives on the sub-domain
    of its key. *)
Definition entry_ok (dom : DomainTuple) (v : option Field) : Prop :=
  match v with
  | Some f => Fields.field_ok f ∧ Fields._domain f = dom
  | None => True
  end.

Record multi_field_ok (m : MultiField) : Prop := {
  ok_domains : length (_domains (_domain m)) = length (keys (_domain m));
  ok_entries : Forall2 entry_ok (_domains (_domain m)) (_val m)
}.





(** [MultiField.to_dict]; a [None] entry is a value of the dict like any
    other, and in a dict comprehension a later item replaces an earlier
    one with the same key. *)
Definition to_dict (self : MultiField) : gmap string (option Field) :=
  foldl (λ m kv, <[kv.1 := kv.2]> m) ∅ (zip (keys (_domain self)) (_val self)).

(** [MultiField.from_dict] with a [domain].  (With [domain=None] the
    domain comes from [MultiDomain.make], which is not part of the sources
    at hand.) *)
Definition from_dict (dict : gmap string (option Field)) (domain : MultiDomain)
  : result MultiField :=
  __init__ domain ((λ key, match dict !! key with Some v => v | None => None end)
                     <$> keys domain).

(** The products [conj(x) * y] of the entries of two MultiFields, over the
    keys that both have. *)
Definition common_products (self x : MultiField) : list K :=
  p ← zip (_val self) (_val x);
  match p with
  | (Some v1, Some v2) =>
      zip_with (λ a b, Kmul (Kconj a) b) (Fields.entries v1) (Fields.entries v2)
  | _ => []
  end.

End multi_field.
End MultiFields.

(** ** Linear operators: scaling_operator.py, vdot_operator.py and the
    operators they are combined with *)

Module Operators.
Section operators.

Context {Domain : Type} {K : Type} `{Scalar K}.
#[local] Abbreviation DomainTuple := (@DomainTuples.DomainTuple Domain).
#[local] Abbreviation Field := (@Fields.Field Domain K).
#[local] Abbreviation MultiDomain := (@MultiFields.MultiDomain Domain).
#[local] Abbreviation MultiField := (@MultiFields.MultiField Domain K).

(** [DomainTuple.scalar_domain()], the one object it returns. *)
Variable scalar_domain : DomainTuple.

(** What operators are applied to, and where those live. *)
Inductive value : Type :=
| VField (f : Field)
| VMulti (m : MultiField).

Inductive domain : Type :=
| DomTuple (d : DomainTuple)
| DomMulti (d : MultiDomain).

Definition domain_of_value (x : value) : domain :=
  match x with
  | VField f => DomTuple (Fields._domain f)
  | VMulti m => DomMulti (MultiFields._domain m)
  end.

Definition domain_is (a b : domain) : bool :=
  match a, b with
  | DomTuple a, DomTuple b => Fields.is_ a b
  | DomMulti a, DomMulti b => MultiFields.md_is a b
  | _, _ => false
  end.

(** [x op y] on two values: a [Field] on the left hands a [MultiField]
    operand over to the reflected method [refl] of the latter. *)
Definition binary (fwd refl : Field → @Fields.operand Domain K → result Field)
  (x y : value) : result value :=
  match x, y with
  | VField a, VField b => VField <$> fwd a (Fields.OField b)
  | VMulti a, VMulti b => VMulti <$> MultiFields.func2 fwd a (MultiFields.OMultiField b)
  | VMulti a, VField b => VMulti <$> MultiFields.func2 fwd a (MultiFields.OElse (Fields.OField b))
  | VField a, VMulti b => VMulti <$> MultiFields.func2 refl b (MultiFields.OElse (Fields.OField a))
  end.

Definition add : value → value → result value := binary Fields.__add__ Fields.__radd__.
Definition mul : value → value → result value := binary Fields.__mul__ Fields.__rmul__.
Definition truediv : value → value → result value :=
  binary Fields.__truediv__ Fields.__rtruediv__.

(** [x op k] for a scalar [k]. *)
Definition binary_scalar (fwd : Field → @Fields.operand Domain K → result Field)
  (x : value) (k : K) : result value :=
  match x with
  | VField a => VField <$> fwd a (Fields.OScalar k)
  | VMulti a => VMulti <$> MultiFields.func2 fwd a (MultiFields.OElse (Fields.OScalar k))
  end.

Definition mul_scalar : value → K → result value := binary_scalar Fields.__mul__.

Definition neg (x : value) : result value :=
  match x with
  | VField a => VField <$> Fields.__neg__ a
  | VMulti a => VMulti <$> MultiFields.__neg__ a
  end.

(** [x.unite(y)]: [Field.unite] is [self + other]; the class [MultiField]
    defines no [unite], and asking one for it is an [AttributeError]. *)
Definition unite (x y : value) : result value :=
  match x with
  | VField a =>
      match y with
      | VField b => VField <$> Fields.unite a b
      | VMulti _ => add x y
      end
  | VMulti _ => Raise (AttributeError "'MultiField' object has no attribute 'unite'")
  end.

Definition conjugate (x : value) : result value :=
  match x with
  | VField a => VField <$> Fields.conjugate a
  | VMulti a => VMulti <$> MultiFields.conjugate a
  end.

Definition vdot (x y : value) : result K :=
  match x, y with
  | VField a, VField b => Fields.vdot a (Fields.OField b)
  | VMulti a, VMulti b => MultiFields.vdot a b
  | VField _, VMulti _ =>
      Raise (TypeError "The dot-partner must be an instance of the NIFTy field class")
  | VMulti _, VField _ => Raise (AttributeError "_val")
  end.

(** This [MultiField] has no [sum] and no [local_data]. *)
Definition sum (x : value) : result K :=
  match x with
  | VField a => Ok (Fields.sum a)
  | VMulti _ => Raise (AttributeError "sum")
  end.

Definition item (x : value) : result K :=
  match x with
  | VField a => Fields.item a
  | VMulti _ => Raise (AttributeError "local_data")
  end.

(** Modelled from the spec: [sugar.full], which is not part of the sources
    at hand: the constant Field or MultiField on a domain. *)
Definition full (dom : domain) (val : K) : result value :=
  match dom with
  | DomTuple d => VField <$> Fields.full d val
  | DomMulti d => VMulti <$> MultiFields.full d val
  end.

(** The zero Field or MultiField on a domain. *)
Definition zero_value (dom : domain) : value :=
  match dom with
  | DomTuple d => VField (Fields.constant d Kzero)
  | DomMulti d =>
      VMulti {| MultiFields._domain := d;
                MultiFields._val := (λ di, Some (Fields.constant di Kzero)) <$> MultiFields._domains d |}
  end.

(** A [MultiDomain] has one sub-domain per key. *)
Definition domain_ok (dom : domain) : Prop :=
  match dom with
  | DomTuple _ => True
  | DomMulti d => length (MultiFields._domains d) = length (MultiFields.keys d)
  end.

(** Modelled from the spec: the constants of the base class
    [LinearOperator], which is not part of the sources at hand: the
    "capability: bitset of {FORWARD, ADJOINT, INVERSE, ADJOINT_INVERSE}",
    one bit per mode, in the order in which [ScalingOperator.apply] tests
    them ([mode & 10] for the adjoint modes, [mode & 12] for the inverse
    ones), and [_all_ops], all four of them. *)
Definition TIMES : N := 1.
Definition ADJOINT_TIMES : N := 2.
Definition INVERSE_TIMES : N := 4.
Definition ADJOINT_INVERSE_TIMES : N := 8.
Definition _all_ops : N := 15.

(** Modelled from the spec: the modes an operator can be called in, of the
    same base class: exactly one of the four bits. *)
Definition _validMode (mode : N) : bool :=
  bool_decide (mode = 1 ∨ mode = 2 ∨ mode = 4 ∨ mode = 8)%N.

(** Modelled from the spec: the operators [DiagonalOperator],
    [ChainOperator], [SumOperator], [RelaxedSumOperator] and
    [AdjointOperator], whose classes are not part of the sources at hand:
    "Diagonal: elementwise multiply by a stored Field; inverse divides
    elementwise", "Chain: sequential application", "Sum: pointwise
    addition of two operators' applies", the "relaxed sum" of
    [Linearization.__add__], and the adjoint wrapper that "re-routes to
    apply with flipped mode bits".  [ScalingOperator], [VdotOperator] and
    [SumReductionOperator] are classes of the sources, with the attributes
    their constructors set. *)
Inductive LinearOperator : Type :=
| ScalingOperator (_factor : K) (_domain : domain) (_capability : N)
| VdotOperator (_field : value)
| SumReductionOperator (_domain : domain)
| DiagonalOperator (diagonal : value)
| ChainOperator (op1 op2 : LinearOperator)
| SumOperator (op1 op2 : LinearOperator)
| RelaxedSumOperator (op1 op2 : LinearOperator)
| AdjointOperator (op : LinearOperator).

(** Modelled from the spec: the adjoint of a mode or of a capability,
    "flipped mode bits": bits 1 and 2 change places, and so do bits 4 and
    8. *)
Definition flip_adjoint (c : N) : N :=
  N.lor (N.lor (N.shiftl (N.land c 1) 1) (N.shiftr (N.land c 2) 1))
        (N.lor (N.shiftl (N.land c 4) 1) (N.shiftr (N.land c 8) 1)).

(** The attributes [domain] and [target] of an operator.  Modelled from
    the spec: those of the operators that are: a chain goes from the
    domain of its last operator to the target of its first, a sum has
    the domain and target of its operators, the adjoint wrapper
    exchanges them. *)
Fixpoint op_domain (op : LinearOperator) : domain :=
  match op with
  | ScalingOperator _ d _ => d
  | VdotOperator f => domain_of_value f
  | SumReductionOperator d => d
  | DiagonalOperator d => domain_of_value d
  | ChainOperator _ op2 => op_domain op2
  | SumOperator op1 _ => op_domain op1
  | RelaxedSumOperator op1 _ => op_domain op1
  | AdjointOperator op => op_target op
  end
with op_target (op : LinearOperator) : domain :=
  match op with
  | ScalingOperator _ d _ => d
  | VdotOperator _ => DomTuple scalar_domain
  | SumReductionOperator _ => DomTuple scalar_domain
  | DiagonalOperator d => domain_of_value d
  | ChainOperator op1 _ => op_target op1
  | SumOperator op1 _ => op_target op1
  | RelaxedSumOperator op1 _ => op_target op1
  | AdjointOperator op => op_domain op
  end.

(** The attribute [capability] of an operator.  Modelled from the spec:
    the one of the operators that are: "the composite's capability is the
    bitwise AND of constituents' capabilities", a sum "requires both to
    support the requested mode", and a diagonal operator "advertises
    inverse capability unconditionally". *)
Fixpoint capability (op : LinearOperator) : N :=
  match op with
  | ScalingOperator _ _ c => c
  | VdotOperator _ => N.lor TIMES ADJOINT_TIMES
  | SumReductionOperator _ => N.lor TIMES ADJOINT_TIMES
  | DiagonalOperator _ => _all_ops
  | ChainOperator op1 op2 => N.land (capability op1) (capability op2)
  | SumOperator op1 op2 => N.land (capability op1) (capability op2)
  | RelaxedSumOperator op1 op2 =>
      N.land (N.lor TIMES ADJOINT_TIMES) (N.land (capability op1) (capability op2))
  | AdjointOperator op => flip_adjoint (capability op)
  end.

(** Modelled from the spec: [LinearOperator._dom], of the base class that
    is not part of the sources at hand: where the argument of a mode
    lives, [domain] for [TIMES] and [ADJOINT_INVERSE_TIMES], [target] for
    the other two. *)
Definition _dom (op : LinearOperator) (mode : N) : domain :=
  if negb (N.land mode 9 =? 0)%N then op_domain op else op_target op.

(** Modelled from the spec: [LinearOperator._check_input], of the same
    base class: "callers must check capability before invoking a mode,
    otherwise the call fails with UnsupportedCapability", and an argument
    on another domain fails with DomainMismatch. *)
Definition _check_input (op : LinearOperator) (x : value) (mode : N) : result unit :=
  if negb (_validMode mode)
  then Raise (NotImplementedError "invalid operator mode specified")
  else if (N.land mode (capability op) =? 0)%N
  then Raise (NotImplementedError "requested operator mode is not supported")
  else if negb (domain_is (_dom op mode) (domain_of_value x))
  then Raise (ValueError "domain mismatch")
  else Ok ().

(** [ScalingOperator.__init__]; [factor] is a scalar or something else,
    and [makeDomain] hands a [DomainTuple] or [MultiDomain] back as it
    is. *)
Definition ScalingOperator__init__ (factor : option K) (dom : domain) : result LinearOperator :=
  match factor with
  | None => Raise (TypeError "Scalar required")
  | Some factor => Ok (ScalingOperator factor dom _all_ops)
  end.

(** [ScalingOperator.apply], after [_check_input]. *)
Definition ScalingOperator_apply (_factor : K) (dom : domain) (x : value) (mode : N)
  : result value :=
  let fct := _factor in
  if Keqb fct Kone then Ok x
  else if Keqb fct Kzero then full dom Kzero
  else
    let fct := if negb (N.land mode 10 =? 0)%N then Kconj fct else fct in
    let fct := if negb (N.land mode 12 =? 0)%N then Kdiv Kone fct else fct in
    mul_scalar x fct.

(** [VdotOperator.apply] and [SumReductionOperator.apply], after
    [_check_input]. *)
Definition VdotOperator_apply (_field x : value) (mode : N) : result value :=
  if (mode =? TIMES)%N
  then r ← vdot _field x; VField <$> Fields.__init__ scalar_domain (inr r)
  else k ← item x; mul_scalar _field k.

Definition SumReductionOperator_apply (dom : domain) (x : value) (mode : N) : result value :=
  if (mode =? TIMES)%N
  then r ← sum x; VField <$> Fields.__init__ scalar_domain (inr r)
  else k ← item x; full dom k.

(** Modelled from the spec: [DiagonalOperator.apply], after
    [_check_input]: "elementwise multiply by a stored Field; inverse
    divides elementwise", with the conjugate of the Field in the adjoint
    modes. *)
Definition DiagonalOperator_apply (diagonal x : value) (mode : N) : result value :=
  d ← (if negb (N.land mode 10 =? 0)%N then conjugate diagonal else Ok diagonal);
  if negb (N.land mode 12 =? 0)%N then truediv x d else mul x d.

(** [op.apply(x, mode)].  Modelled from the spec: the cases of the
    operators that are: a chain applies its operators one after the
    other, in the reverse order in the modes [ADJOINT_TIMES] and
    [INVERSE_TIMES]; a sum adds what its operators return, and so does a
    relaxed sum of two operators of one domain, "treating an absent key
    on one side as contributing zero", which is what [+] does on two
    MultiFields; the adjoint wrapper flips the mode. *)
Fixpoint apply (op : LinearOperator) (x : value) (mode : N) : result value :=
  _ ← _check_input op x mode;
  match op with
  | ScalingOperator fct d _ => ScalingOperator_apply fct d x mode
  | VdotOperator f => VdotOperator_apply f x mode
  | SumReductionOperator d => SumReductionOperator_apply d x mode
  | DiagonalOperator d => DiagonalOperator_apply d x mode
  | ChainOperator op1 op2 =>
      if negb (N.land mode 9 =? 0)%N
      then y ← apply op2 x mode; apply op1 y mode
      else y ← apply op1 x mode; apply op2 y mode
  | SumOperator op1 op2 =>
      y1 ← apply op1 x mode; y2 ← apply op2 x mode; add y1 y2
  | RelaxedSumOperator op1 op2 =>
      y1 ← apply op1 x mode; y2 ← apply op2 x mode; add y1 y2
  | AdjointOperator op => apply op x (flip_adjoint mode)
  end.

(** Modelled from the spec: [sugar.makeOp], which is not part of the
    sources at hand: the diagonal operator of a Field or MultiField. *)
Definition makeOp (x : value) : LinearOperator := DiagonalOperator x.

(** Modelled from the spec: [LinearOperator.chain], of the base class that
    is not part of the sources at hand, called with an operator: "Chain:
    sequential application". *)
Definition chain (op : LinearOperator) (x : LinearOperator) : LinearOperator :=
  ChainOperator op x.

(** Modelled from the spec: [LinearOperator.chain] called with a scalar,
    which stands for the scaling by it on the domain of [op]. *)
Definition chain_scalar (op : LinearOperator) (x : K) : LinearOperator :=
  ChainOperator op (ScalingOperator x (op_domain op) _all_ops).

(** Modelled from the spec: [SandwichOperator.make(bun, cheese)], whose
    class is not part of the sources at hand: "represents [J^t M J]
    without materializing it: [apply(x) = J.adjoint(M(J(x)))]". *)
Definition SandwichOperator_make (bun cheese : LinearOperator) : LinearOperator :=
  ChainOperator (AdjointOperator bun) (ChainOperator cheese bun).

(** The factor [apply] multiplies with in a mode, for a factor that is
    neither one nor zero: conjugated in the adjoint modes, inverted in the
    inverse ones. *)
Definition mode_factor (_factor : K) (mode : N) : K :=
  let fct := _factor in
  let fct := if negb (N.land mode 10 =? 0)%N then Kconj fct else fct in
  if negb (N.land mode 12 =? 0)%N then Kdiv Kone fct else fct.

(** The mode that undoes a mode: [TIMES] and [INVERSE_TIMES] change
    places, and so do [ADJOINT_TIMES] and [ADJOINT_INVERSE_TIMES]. *)
Definition inverse_mode (mode : N) : N :=
  if (mode =? TIMES)%N then INVERSE_TIMES
  else if (mode =? INVERSE_TIMES)%N then TIMES
  else if (mode =? ADJOINT_TIMES)%N then ADJOINT_INVERSE_TIMES
  else ADJOINT_TIMES.

End operators.

Section draw_sample.

Context {Domain : Type}.
#[local] Abbreviation value := (@value Domain R).
#[local] Abbreviation domain := (@domain Domain).

(** [fct.real] and [fct.imag] of a float. *)
Definition float_real (fct : R) : R := fct.
Definition float_imag (fct : R) : R := 0%R.

(** [ScalingOperator.draw_sample] of an operator with a float as factor.
    [from_random] stands for [cls.from_random(random_type="normal",
    domain=..., std=..., dtype=dtype)], which draws from numpy's random
    generator. *)
Definition draw_sample (from_random : domain → R → result value)
  (_factor : R) (_domain : domain) (from_inverse : bool) : result value :=
  let fct := _factor in
  if bool_decide (float_imag fct ≠ 0%R) || bool_decide (float_real fct < 0)%R
  then Raise (ValueError "operator not positive definite")
  else if bool_decide (float_real fct = 0%R) && from_inverse
  then Raise (ValueError "operator not positive definite")
  else
    let fct := if from_inverse then (1 / sqrt fct)%R else sqrt fct in
    from_random _domain fct.

End draw_sample.
End Operators.

(** ** linearization.py *)

Module Linearizations.
Section linearization.

Context {Domain : Type} {K : Type} `{Scalar K}.
#[local] Abbreviation DomainTuple := (@DomainTuples.DomainTuple Domain).
#[local] Abbreviation value := (@Operators.value Domain K).
#[local] Abbreviation LinearOperator := (@Operators.LinearOperator Domain K).

Variable scalar_domain : DomainTuple.

Record Linearization : Type := mkLinearization {
  _val : value;
  _jac : LinearOperator;
  _metric : option LinearOperator
}.

(** [Linearization(val, jac)], with the default [metric=None]. *)
Definition Linearization_ (val : value) (jac : LinearOperator) : Linearization :=
  {| _val := val; _jac := jac; _metric := None |}.

(** An elementary function of a value; this [MultiField] has none. *)
Definition func1 (name : string) (f : @Fields.Field Domain K → result (@Fields.Field Domain K))
  (x : value) : result value :=
  match x with
  | Operators.VField a => Operators.VField <$> f a
  | Operators.VMulti _ => Raise (AttributeError name)
  end.

Definition __neg__ (self : Linearization) : result Linearization :=
  v ← Operators.neg (_val self);
  Ok {| _val := v;
        _jac := Operators.chain_scalar scalar_domain (_jac self) (Kneg Kone);
        _metric := match _metric self with
                   | None => None
                   | Some m => Some (Operators.chain_scalar scalar_domain m (Kneg Kone))
                   end |}.

(** The operands the [isinstance] tests of [__add__] accept; with any
    other one the method falls through both tests. *)
Inductive operand : Type :=
| OLinearization (l : Linearization)
| OScalar (k : K)
| OValue (v : value).

Definition __add__ (self : Linearization) (other : operand) : result Linearization :=
  match other with
  | OLinearization other =>
      let met :=
        match _metric self, _metric other with
        | Some m1, Some m2 => Some (Operators.RelaxedSumOperator m1 m2)
        | _, _ => None
        end in
      v ← Operators.unite (_val self) (_val other);
      Ok {| _val := v;
            _jac := Operators.RelaxedSumOperator (_jac self) (_jac other);
            _metric := met |}
  | OScalar k =>
      v ← Operators.binary_scalar Fields.__add__ (_val self) k;
      Ok {| _val := v; _jac := _jac self; _metric := _metric self |}
  | OValue o =>
      v ← Operators.add (_val self) o;
      Ok {| _val := v; _jac := _jac self; _metric := _metric self |}
  end.

Definition __radd__ (self : Linearization) (other : operand) : result Linearization :=
  __add__ self other.

(** [-other], for each kind of operand. *)
Definition neg_operand (other : operand) : result operand :=
  match other with
  | OLinearization l => OLinearization <$> __neg__ l
  | OScalar k => Ok (OScalar (Kneg k))
  | OValue v => OValue <$> Operators.neg v
  end.

Definition __sub__ (self : Linearization) (other : operand) : result Linearization :=
  o ← neg_operand other; __add__ self o.

(** [vdot] with a [Field] or [MultiField], and with a [Linearization]. *)
Definition vdot (self : Linearization) (other : value + Linearization) : result Linearization :=
  match other with
  | inl other =>
      r ← Operators.vdot (_val self) other;
      v ← Fields.__init__ scalar_domain (inr r);
      Ok (Linearization_ (Operators.VField v)
            (Operators.chain (Operators.VdotOperator other) (_jac self)))
  | inr other =>
      r ← Operators.vdot (_val self) (_val other);
      v ← Fields.__init__ scalar_domain (inr r);
      Ok (Linearization_ (Operators.VField v)
            (Operators.SumOperator
               (Operators.chain (Operators.VdotOperator (_val self)) (_jac other))
               (Operators.chain (Operators.VdotOperator (_val other)) (_jac self))))
  end.

Definition sum (self : Linearization) : result Linearization :=
  r ← Operators.sum (_val self);
  v ← Fields.__init__ scalar_domain (inr r);
  Ok (Linearization_ (Operators.VField v)
        (Operators.chain
           (Operators.SumReductionOperator (Operators.op_target scalar_domain (_jac self)))
           (_jac self))).

Definition exp `{Elementary K} (self : Linearization) : result Linearization :=
  tmp ← func1 "exp" Fields.exp (_val self);
  Ok (Linearization_ tmp (Operators.chain (Operators.makeOp tmp) (_jac self))).

Definition log `{Elementary K} (self : Linearization) : result Linearization :=
  tmp ← func1 "log" Fields.log (_val self);
  d ← Operators.binary_scalar Fields.__rtruediv__ (_val self) Kone;
  Ok (Linearization_ tmp (Operators.chain (Operators.makeOp d) (_jac self))).

(** [1.-tmp**2]. *)
Definition one_minus_square `{Ufunc2 K} (tmp : value) : result value :=
  sq ← Operators.binary_scalar Fields.__pow__ tmp (Kadd Kone Kone);
  Operators.binary_scalar Fields.__rsub__ sq Kone.

Definition tanh `{Elementary K} `{Ufunc2 K} (self : Linearization) : result Linearization :=
  tmp ← func1 "tanh" Fields.tanh (_val self);
  d ← one_minus_square tmp;
  Ok (Linearization_ tmp (Operators.chain (Operators.makeOp d) (_jac self))).

Definition half : K := Kdiv Kone (Kadd Kone Kone).

Definition positive_tanh `{Elementary K} `{Ufunc2 K} (self : Linearization)
  : result Linearization :=
  tmp ← func1 "tanh" Fields.tanh (_val self);
  t1 ← Operators.binary_scalar Fields.__radd__ tmp Kone;
  tmp2 ← Operators.binary_scalar Fields.__rmul__ t1 half;
  d ← one_minus_square tmp;
  hd ← Operators.binary_scalar Fields.__rmul__ d half;
  Ok (Linearization_ tmp2 (Operators.chain (Operators.makeOp hd) (_jac self))).

(** [Linearization.gradient]: [adjoint_times] is [apply] in the mode
    [ADJOINT_TIMES], and [Field(target, 1.)] needs a [DomainTuple]. *)
Definition gradient (self : Linearization) : result value :=
  match Operators.op_target scalar_domain (_jac self) with
  | Operators.DomTuple d =>
      one ← Fields.__init__ d (inr Kone);
      Operators.apply scalar_domain (_jac self) (Operators.VField one) Operators.ADJOINT_TIMES
  | Operators.DomMulti _ => Raise (TypeError "domain must be of type DomainTuple")
  end.

(** [Linearization.__mul__]; the [+] of two operators is their
    [SumOperator]. *)
Definition __mul__ (self : Linearization) (other : operand) : result Linearization :=
  match other with
  | OLinearization other =>
      let d1 := Operators.makeOp (_val self) in
      let d2 := Operators.makeOp (_val other) in
      v ← Operators.mul (_val self) (_val other);
      Ok (Linearization_ v
            (Operators.SumOperator (Operators.chain d2 (_jac self))
                                   (Operators.chain d1 (_jac other))))
  | OScalar k =>
      let met :=
        match _metric self with
        | None => None
        | Some m => Some (Operators.chain_scalar scalar_domain m k)
        end in
      v ← Operators.mul_scalar (_val self) k;
      Ok {| _val := v;
            _jac := Operators.chain_scalar scalar_domain (_jac self) k;
            _metric := met |}
  | OValue o =>
      let d2 := Operators.makeOp o in
      v ← Operators.mul (_val self) o;
      Ok (Linearization_ v (Operators.chain d2 (_jac self)))
  end.

Definition add_metric (self : Linearization) (metric : LinearOperator) : Linearization :=
  {| _val := _val self; _jac := _jac self; _metric := Some metric |}.

Definition make_var (field : value) : result Linearization :=
  jac ← Operators.ScalingOperator__init__ (Some Kone) (Operators.domain_of_value field);
  Ok (Linearization_ field jac).

(** The elementary functions the specification names, each with the
    function of one entry and the derivative it states for it. *)
Inductive elementary : Type :=
| Exp
| Log
| Tanh.

Definition call `{Elementary K} `{Ufunc2 K} (e : elementary)
  : Linearization → result Linearization :=
  match e with
  | Exp => exp
  | Log => log
  | Tanh => tanh
  end.

Definition function `{Elementary K} (e : elementary) : K → K :=
  match e with
  | Exp => Kexp
  | Log => Klog
  | Tanh => Ktanh
  end.

Definition derivative `{Elementary K} `{Ufunc2 K} (e : elementary) : K → K :=
  match e with
  | Exp => Kexp
  | Log => λ x, Kdiv Kone x
  | Tanh => λ x, Ksub Kone (Kpow (Ktanh x) (Kadd Kone Kone))
  end.

(** What [call e] returns for a Linearization [L] with the Field [v] as
    value: the new value [fv], the diagonal [d] of the Jacobian, and how
    the Jacobian acts. *)
Definition chain_rule `{Elementary K} `{Ufunc2 K} (e : elementary)
  (L : Linearization) (v : @Fields.Field Domain K) : Prop :=
  ∃ fv d,
    call e L
    = Ok (Linearization_ (Operators.VField fv)
            (Operators.chain (Operators.makeOp (Operators.VField d)) (_jac L))) ∧
    Fields.field_ok fv ∧ Fields._domain fv = Fields._domain v ∧
    Fields.entries fv = function e <$> Fields.entries v ∧
    Fields.field_ok d ∧ Fields._domain d = Fields._domain v ∧
    Fields.entries d = derivative e <$> Fields.entries v ∧
    (e = Exp → d = fv) ∧
    (∀ x y,
       Operators._check_input scalar_domain
         (Operators.chain (Operators.makeOp (Operators.VField d)) (_jac L)) x Operators.TIMES
       = Ok () →
       Operators.apply scalar_domain (_jac L) x Operators.TIMES = Ok y →
       Operators._check_input scalar_domain (Operators.makeOp (Operators.VField d)) y
         Operators.TIMES = Ok () →
       Operators.apply scalar_domain
         (Operators.chain (Operators.makeOp (Operators.VField d)) (_jac L)) x Operators.TIMES
       = Operators.mul y (Operators.VField d)).

End linearization.
End Linearizations.

(** ** library/poissonian_energy.py and operators/energy_operators.py *)

Module Energies.
Section poissonian_energy.

Context {Domain : Type} {K : Type} `{Scalar K} `{Elementary K}.
#[local] Abbreviation DomainTuple := (@DomainTuples.DomainTuple Domain).
#[local] Abbreviation Field := (@Fields.Field Domain K).
#[local] Abbreviation value := (@Operators.value Domain K).
#[local] Abbreviation Linearization := (@Linearizations.Linearization Domain K).

Variable scalar_domain : DomainTuple.

(** What an operator is called with, and what comes back. *)
Inductive input : Type :=
| IValue (x : value)
| ILinearization (x : Linearization).

Inductive output : Type :=
| RScalar (k : K)
| RField (f : Field)
| RLinearization (l : Linearization).

(** [sum(x) - <log(x), d>] on the entries, with the arithmetic of the
    scalars. *)
Definition poisson_formula (xs ds : list K) : K :=
  Ksub (foldr Kadd Kzero xs)
       (foldr Kadd Kzero (zip_with (λ a b, Kmul (Kconj a) b) (Klog <$> xs) ds)).

(** [x.sum() - x.log().vdot(self._d)] for a Field or MultiField [x]. *)
Definition res_value (x d : value) : result K :=
  s ← Operators.sum x;
  lx ← Linearizations.func1 "log" Fields.log x;
  v ← Operators.vdot lx d;
  Ok (Ksub s v).

(** The same expression for a [Linearization] [x]. *)
Definition res_linearization (x : Linearization) (d : value) : result Linearization :=
  s ← Linearizations.sum scalar_domain x;
  lx ← Linearizations.log x;
  v ← Linearizations.vdot scalar_domain lx (inl d);
  Linearizations.__sub__ scalar_domain s (Linearizations.OLinearization v).

(** [makeOp(1./x.val)] sandwiched by the Jacobian. *)
Definition poisson_metric (x : Linearization) : result (@Operators.LinearOperator Domain K) :=
  d ← Operators.binary_scalar Fields.__rtruediv__ (Linearizations._val x) Kone;
  Ok (Operators.SandwichOperator_make (Linearizations._jac x) (Operators.makeOp d)).

(** [PoissonianEnergy.apply] of library/poissonian_energy.py; [_op] is
    the model operator the energy was built with. *)
Definition PoissonianEnergy_apply (_op : input → result input) (_d : value) (x : input)
  : result output :=
  x ← _op x;
  match x with
  | IValue x => res ← res_value x _d; Ok (RScalar res)
  | ILinearization x =>
      res ← res_linearization x _d;
      metric ← poisson_metric x;
      Ok (RLinearization (Linearizations.add_metric res metric))
  end.

(** Modelled from the spec: [Operator._check_input] of the base class that
    is not part of the sources at hand; the argument has to live on the
    operator's domain ("mismatched domains fail with DomainMismatch"). *)
Definition Operator_check_input (_domain : DomainTuple) (x : value) : result unit :=
  if negb (Operators.domain_is (Operators.DomTuple _domain) (Operators.domain_of_value x))
  then Raise (ValueError "domain mismatch")
  else Ok ().

(** [PoissonianEnergy.apply] of operators/energy_operators.py, called
    with a Field ([Field.scalar(res)] is the Field over the scalar domain).
    The branch for a [Linearization] reads its [want_metric], which the
    class in linearization.py does not have. *)
Definition energy_operators_PoissonianEnergy_apply (_d : Field) (x : value) : result Field :=
  _ ← Operator_check_input (Fields._domain _d) x;
  res ← res_value x (Operators.VField _d);
  Fields.__init__ scalar_domain (inr res).

(** [BernoulliEnergy.apply] of operators/energy_operators.py, called with
    a Field or MultiField: [x.log().vdot(-d) - (1.-x).log().vdot(1.-d)],
    where [1.-x] is [x.__rsub__(1.)]. *)
Definition BernoulliEnergy_apply (_d : Field) (x : value) : result Field :=
  _ ← Operator_check_input (Fields._domain _d) x;
  lx ← Linearizations.func1 "log" Fields.log x;
  nd ← Fields.__neg__ _d;
  a ← Operators.vdot lx (Operators.VField nd);
  omx ← Operators.binary_scalar Fields.__rsub__ x Kone;
  lomx ← Linearizations.func1 "log" Fields.log omx;
  omd ← Fields.__rsub__ _d (Fields.OScalar Kone);
  b ← Operators.vdot lomx (Operators.VField omd);
  Fields.__init__ scalar_domain (inr (Ksub a b)).

(** [InverseGammaLikelihood.apply] of operators/energy_operators.py,
    called with a Field or MultiField:
    [0.5*(x.log().sum() + (1./x).vdot(d))], where [1./x] is
    [x.__rtruediv__(1.)] and [0.5] is [Linearizations.half]. *)
Definition InverseGammaLikelihood_apply (_d : Field) (x : value) : result Field :=
  _ ← Operator_check_input (Fields._domain _d) x;
  lx ← Linearizations.func1 "log" Fields.log x;
  s ← Operators.sum lx;
  ix ← Operators.binary_scalar Fields.__rtruediv__ x Kone;
  v ← Operators.vdot ix (Operators.VField _d);
  Fields.__init__ scalar_domain (inr (Kmul Linearizations.half (Kadd s v))).

End poissonian_energy.

(** [sum(x) - <log(x), d>] over the reals. *)
Definition real_formula (rs ds : list R) : R :=
  (foldr Rplus 0 rs - foldr Rplus 0 (zip_with (λ r δ, ln r * δ) rs ds))%R.

(** [(sum (ln x) + sum (d / x)) / 2] over the reals. *)
Definition inverse_gamma_formula (rs ds : list R) : R :=
  (1 / (1 + 1) * (foldr Rplus 0 (ln <$> rs)
                  + foldr Rplus 0 (zip_with (λ r δ, 1 / r * δ) rs ds)))%R.

(** The cross entropy [- sum (d ln x + (1 - d) ln (1 - x))] over the
    reals. *)
Definition cross_entropy (rs ds : list R) : R :=
  foldr Rplus 0%R (zip_with (λ r δ, (- (δ * ln r + (1 - δ) * ln (1 - r)))%R) rs ds).

End Energies.

(** ** minimization/scipy_minimizer.py *)

Module Minimizers.
Section scipy_minimizer.

Context {Domain : Type} {K : Type} `{Scalar K}.
#[local] Abbreviation DomainTuple := (@DomainTuples.DomainTuple Domain).
#[local] Abbreviation Field := (@Fields.Field Domain K).
#[local] Abbreviation LinearOperator := (@Operators.LinearOperator Domain K).

Variable scalar_domain : DomainTuple.

(** Modelled from the spec: the constants of [IterationController], whose
    class is not part of the sources at hand: the "states {CONTINUE,
    CONVERGED, ERROR}". *)
Inductive IterationController_status : Type :=
| CONVERGED
| CONTINUE
| ERROR.

(** The status the specification has for a solve that ran out of budget,
    next to [CONVERGED] and [ERROR]. *)
Definition reports_NonConvergence (st : IterationController_status) : Prop :=
  st ≠ CONVERGED ∧ st ≠ ERROR.

(** Modelled from the spec: an [Energy], whose classes are not part of the
    sources at hand, as far as the minimizers read it: "energy(position)
    -> scalar, gradient(position) -> Field, metric(position, tangent) ->
    Field" and the position it is at.  A [QuadraticEnergy] has the
    operator [_A] and the Field [_b] besides. *)
Record Energy : Type := mkEnergy {
  position : Field;
  quadratic : option (LinearOperator * Field);
  (** [value], [gradient] and [metric] at a position. *)
  value_at : Field → K;
  gradient_at : Field → Field;
  metric_at : Field → Field → result Field
}.

(** Modelled from the spec: [energy.at(position)], the same energy at
    another position. *)
Definition at_ (energy : Energy) (pos : Field) : Energy :=
  {| position := pos;
     quadratic := quadratic energy;
     value_at := value_at energy;
     gradient_at := gradient_at energy;
     metric_at := metric_at energy |}.

Definition _toArray (fld : Field) : list K := Fields.arr_data (Fields._val fld).

Definition _toArray_rw (fld : Field) : list K := Fields.arr_data (Fields._val fld).

(** [arr.reshape(dom.shape)] needs as many entries as the shape has. *)
Definition _toField (arr : list K) (dom : DomainTuple) : result Field :=
  if negb (bool_decide (length arr = Fields.arr_size (DomainTuples._shape dom)))
  then Raise (ValueError "cannot reshape array")
  else Fields.__init__ dom
         (inl {| Fields.arr_shape := DomainTuples._shape dom; Fields.arr_data := arr |}).

(** *** _MinHelper

    The helper holds the energy at the last position it was asked about;
    its methods run in the state monad over that attribute. *)
Definition helper (A : Type) : Type := Energy → result (A * Energy).

Definition _MinHelper_domain (energy : Energy) : DomainTuple :=
  Fields._domain (position energy).

(** [(pos != self._energy.position).any()]. *)
Definition differs (pos cur : Field) : bool :=
  existsb (λ ab, negb (Keqb ab.1 ab.2))
    (zip (Fields.arr_data (Fields._val pos)) (Fields.arr_data (Fields._val cur))).

(** The domain is the one of the energy the helper was made with. *)
Definition _update (_domain : DomainTuple) (x : list K) : helper unit :=
  λ _energy,
    pos ← _toField x _domain;
    if negb (Fields.is_ (Fields._domain pos) (Fields._domain (position _energy)))
    then Raise (ValueError "domains are incompatible.")
    else if differs pos (position _energy)
    then Ok ((), at_ _energy pos)
    else Ok ((), _energy).

Definition fun_ (_domain : DomainTuple) (x : list K) : helper K :=
  λ _energy,
    r ← _update _domain x _energy;
    Ok (value_at r.2 (position r.2), r.2).

Definition jac (_domain : DomainTuple) (x : list K) : helper (list K) :=
  λ _energy,
    r ← _update _domain x _energy;
    Ok (_toArray_rw (gradient_at r.2 (position r.2)), r.2).

Definition hessp (_domain : DomainTuple) (x p : list K) : helper (list K) :=
  λ _energy,
    r ← _update _domain x _energy;
    pf ← _toField p _domain;
    res ← metric_at r.2 (position r.2) pf;
    Ok (_toArray_rw res, r.2).

(** *** ScipyMinimizer *)

(** What [__call__] reads of scipy's [OptimizeResult]. *)
Record OptimizeResult : Type := mkOptimizeResult {
  success : bool;
  message : string
}.

(** scipy's [minimize]: it is handed the callbacks and the start, and
    whatever it does with them happens in the helper's monad. *)
Definition opt_minimize : Type :=
  (list K → helper K) → list K → string → (list K → helper (list K)) →
  option (list K → list K → helper (list K)) → option (list (K * K)) →
  helper OptimizeResult.

Record ScipyMinimizer : Type := mkScipyMinimizer {
  _method : string;
  _need_hessp : bool;
  (** [None], or a sequence. *)
  _bounds : option (list K)
}.

(** The [bounds] handed to scipy. *)
Definition scipy_bounds (self : ScipyMinimizer) (energy : Energy)
  : result (option (list (K * K))) :=
  match _bounds self with
  | None => Ok None
  | Some [lo; hi] =>
      Ok (Some (replicate (DomainTuples._size (Fields._domain (position energy))) (lo, hi)))
  | Some _ => Raise (ValueError "unrecognized bounds")
  end.

Definition ScipyMinimizer__call__ (minimize : opt_minimize) (self : ScipyMinimizer)
  (energy : Energy) : result (Energy * IterationController_status) :=
  let _domain := _MinHelper_domain energy in
  bounds ← scipy_bounds self energy;
  let x := _toArray_rw (position energy) in
  let hessp := if _need_hessp self then Some (hessp _domain) else None in
  r ← minimize (fun_ _domain) x (_method self) (jac _domain) hessp bounds energy;
  if negb (success r.1)
  then Ok (r.2, ERROR)
  else Ok (r.2, CONVERGED).

(** *** ScipyCG *)

(** scipy's [cg]: the operator's [matvec], the right-hand side, the start,
    the tolerance, the preconditioner's [matvec] and the budget; it
    answers with the last iterate and [info], which is [0] on success,
    the number of iterations when the budget ran out before the tolerance
    was met, and negative on illegal input or breakdown. *)
Definition sparse_cg : Type :=
  (list K → result (list K)) → list K → list K → K →
  option (list K → result (list K)) → nat → result (list K * Z).

Record ScipyCG : Type := mkScipyCG {
  _tol : K;
  _maxiter : nat
}.

(** [mymatvec(op)]. *)
Definition mymatvec (op : LinearOperator) (inp : list K) : result (list K) :=
  match Operators.op_domain scalar_domain op with
  | Operators.DomTuple d =>
      f ← _toField inp d;
      r ← Operators.apply scalar_domain op (Operators.VField f) Operators.TIMES;
      match r with
      | Operators.VField r => Ok (_toArray r)
      | Operators.VMulti _ => Raise (AttributeError "to_global_data")
      end
  | Operators.DomMulti _ => Raise (AttributeError "shape")
  end.

Definition ScipyCG__call__ (cg : sparse_cg) (self : ScipyCG) (energy : Energy)
  (preconditioner : option LinearOperator) : result (Energy * IterationController_status) :=
  match quadratic energy with
  | None => Raise (ValueError "need a quadratic energy for CG")
  | Some (op, _b) =>
      let b := _toArray _b in
      let sx := _toArray (position energy) in
      match Operators.op_domain scalar_domain op with
      | Operators.DomMulti _ => Raise (AttributeError "size")
      | Operators.DomTuple d =>
          let sci_op := mymatvec op in
          let prec_op := mymatvec <$> preconditioner in
          r ← cg sci_op b sx (_tol self) prec_op (_maxiter self);
          let stat := if (r.2 >=? 0)%Z then CONVERGED else ERROR in
          f ← _toField r.1 d;
          Ok (at_ energy f, stat)
      end
  end.

End scipy_minimizer.
End Minimizers.

(** ** scipy's conjugate gradient

    [scipy.sparse.linalg.cg] is a library of its own, and [ScipyCG] takes
    it as a parameter.  This is its iteration on real vectors, in exact
    arithmetic, for the runs below: the tolerance is relative to the norm
    of the right-hand side, the residual is tested at the head of every
    pass, and a loop that comes to its end answers with the iterate and
    [maxiter] as [info]. *)

Module Scipy.
#[local] Open Scope R_scope.

Definition dot (u v : list R) : R := foldr Rplus 0 (zip_with Rmult u v).

Definition norm (u : list R) : R := sqrt (dot u u).

Definition any (x : list R) : bool := existsb (λ xi, negb (bool_decide (xi = 0))) x.

(** The passes of [for iteration in range(maxiter)] that are left, with
    [rho_prev] and [p] of the pass before, if there was one. *)
Fixpoint cg_loop (matvec psolve : list R → result (list R)) (atol : R) (maxiter : nat)
    (rest : nat) (x r : list R) (prev : option (R * list R)) : result (list R * Z) :=
  match rest with
  | O => Ok (x, Z.of_nat maxiter)
  | S rest =>
      if bool_decide (norm r < atol) then Ok (x, 0%Z)
      else
        z ← psolve r;
        let rho_cur := dot r z in
        let p := match prev with
                 | Some (rho_prev, p) =>
                     zip_with (λ pi zi, rho_cur / rho_prev * pi + zi) p z
                 | None => z
                 end in
        q ← matvec p;
        let alpha := rho_cur / dot p q in
        cg_loop matvec psolve atol maxiter rest
          (zip_with (λ xi pi, xi + alpha * pi) x p)
          (zip_with (λ ri qi, ri - alpha * qi) r q)
          (Some (rho_cur, p))
  end.

Definition cg : @Minimizers.sparse_cg R :=
  λ matvec b x0 tol M maxiter,
    let bnrm2 := norm b in
    let atol := Rmax 0 (tol * bnrm2) in
    if bool_decide (bnrm2 = 0) then Ok (b, 0%Z)
    else
      r ← (if any x0 then Ax ← matvec x0; Ok (zip_with Rminus b Ax) else Ok b);
      cg_loop matvec (default Ok M) atol maxiter maxiter x0 r None.

End Scipy.

(** ** field.py (nifty, the version with [dot] and [bare]) *)

Module Nifty3.

(** An array of complex numbers: its shape, and the entry at each
    multi-index. *)
Record array : Type := mkArray {
  arr_shape : list nat;
  entry : list nat → complex
}.

(** All multi-indices of a shape, in row-major order. *)
Fixpoint indices (shape : list nat) : list (list nat) :=
  match shape with
  | [] => [[]]
  | n :: shape' => i ← seq 0 n; (λ I, i :: I) <$> indices shape'
  end.

Definition arr_conjugate (a : array) : array :=
  {| arr_shape := arr_shape a; entry := λ I, Cconj (entry a I) |}.

(** The product of two arrays of one shape, entry by entry. *)
Definition arr_mul (a b : array) : array :=
  {| arr_shape := arr_shape a; entry := λ I, Cmul (entry a I) (entry b I) |}.

Definition arr_sum (a : array) : complex :=
  foldr Cadd (RtoC 0) (entry a <$> indices (arr_shape a)).

(** Modelled from the spec: a [Space] and its method [weight], which the
    abstract class leaves to the concrete spaces: a shape and a
    "volume-element (scalar or per-cell array)", and "weight(power, subset)
    multiplies values by the volume element raised to power".  [dvol] is
    the volume of the cell of the space at a multi-index of the space;
    [axes] are the axes of the array that belong to the space. *)
Record Space : Type := mkSpace {
  shape : list nat;
  dvol : list nat → R
}.

(** Modelled from the spec: [Space.weight]: the entries, each multiplied
    by the volume of its cell to the power [power], a number; the power
    is numpy's [**]. *)
Definition Space_weight (sp : Space) (x : array) (power : R) (axes : list nat) : array :=
  {| arr_shape := arr_shape x;
     entry := λ I,
       Cmul (entry x I) (RtoC (R_pow (dvol sp ((λ a, nth a I 0) <$> axes)) power)) |}.

Record Field : Type := mkField {
  domain : list Space;
  val : array
}.

(** The array of a Field has the shape of its domain. *)
Definition field_ok (self : Field) : Prop :=
  arr_shape (val self) = concat (shape <$> domain self).

Fixpoint _get_axes_tuple (i : nat) (domain : list Space) : list (list nat) :=
  match domain with
  | [] => []
  | sp :: rest =>
      let nax := length (shape sp) in
      seq i nax :: _get_axes_tuple (i + nax) rest
  end.

(** The attribute [domain_axes], which [__init__] sets. *)
Definition domain_axes (self : Field) : list (list nat) := _get_axes_tuple 0 (domain self).

(** The loop of [Field.weight] over [enumerate(self.domain)], from the
    position [ind] on; [domain_axes[ind]] is an index into a tuple. *)
Fixpoint weight_loop (spaces : list nat) (power : R) (domain_axes : list (list nat))
    (ind : nat) (domain : list Space) (new_val : array) : result array :=
  match domain with
  | [] => Ok new_val
  | sp :: rest =>
      new_val ← (if bool_decide (ind ∈ spaces)
                 then match domain_axes !! ind with
                      | Some axes => Ok (Space_weight sp new_val power axes)
                      | None => Raise (IndexError "tuple index out of range")
                      end
                 else Ok new_val);
      weight_loop spaces power domain_axes (S ind) rest new_val
  end.

(** [Field.weight] with [inplace=False]. *)
Definition weight (self : Field) (power : R) (spaces : option (list nat)) : result Field :=
  let spaces :=
    match spaces with
    | None => seq 0 (length (domain self))
    | Some spaces => spaces
    end in
  new_val ← weight_loop spaces power (domain_axes self) 0 (domain self) (val self);
  Ok {| domain := domain self; val := new_val |}.

(** [Field.dot] with [spaces=None]; [x] is a [Field] or something else.
    (With [spaces] given the product goes through a [DiagonalOperator]
    and stays a [Field]; that branch is not part of this development.) *)
Definition dot (self : Field) (x : option Field) (bare : bool) : result complex :=
  match x with
  | None => Raise (ValueError "The dot-partner must be an instance of the NIFTy field class")
  | Some x =>
      y ← (if bare then Ok self else weight self 1 None);
      let x_val := val x in
      let y_val := val y in
      Ok (arr_sum (arr_mul (arr_conjugate x_val) y_val))
  end.

(** *** What the specification asks of [weight] and [dot]

    The sum of the pointwise conjugate product of [x] and [y] over a shape,
    each term weighted with [w]. *)
Definition weighted_product (shape : list nat) (w : list nat → R)
  (x y : list nat → complex) : complex :=
  foldr Cadd (RtoC 0)
    ((λ I, Cmul (Cconj (x I)) (Cmul (y I) (RtoC (w I)))) <$> indices shape).

(** The part of a multi-index of a domain that belongs to its first
    space, and the part that belongs to the others. *)
Definition own_index (sp : Space) (I : list nat) : list nat := take (length (shape sp)) I.
Definition other_index (sp : Space) (I : list nat) : list nat := drop (length (shape sp)) I.

(** The volume of the cell at a multi-index of a domain: the product of
    the volumes of the cells of its spaces. *)
Fixpoint volume (domain : list Space) (I : list nat) : R :=
  match domain with
  | [] => 1%R
  | sp :: rest => Rmult (dvol sp (own_index sp I)) (volume rest (other_index sp I))
  end.

(** The volumes, to the power [power], of the cells of the spaces of a
    domain whose position, counted from [ind], is among [spaces]. *)
Fixpoint weight_factor (spaces : list nat) (power : R) (ind : nat)
    (domain : list Space) (I : list nat) : R :=
  match domain with
  | [] => 1%R
  | sp :: rest =>
      Rmult (if bool_decide (ind ∈ spaces) then R_pow (dvol sp (own_index sp I)) power
             else 1%R)
            (weight_factor spaces power (S ind) rest (other_index sp I))
  end.

End Nifty3.

(** ** Sample objects

    A domain is stood for by its number of pixels.  These are the objects
    the statements below are tried on. *)

Module Samples.

Definition pixels (n addr : nat) : @DomainTuples.DomainTuple nat :=
  {| DomainTuples.addr := addr;
     DomainTuples._dom := [n];
     DomainTuples._axtuple := [[0]];
     DomainTuples._shape := [n];
     DomainTuples._size := n |}.

(** Two pixels, the scalar domain, and a second object of two pixels that
    [make] would never hand out next to the first. *)
Definition two_pixels : @DomainTuples.DomainTuple nat := pixels 2 0.

Definition scalar_domain : @DomainTuples.DomainTuple nat :=
  {| DomainTuples.addr := 1;
     DomainTuples._dom := [];
     DomainTuples._axtuple := [];
     DomainTuples._shape := [];
     DomainTuples._size := 1 |}.

Definition stray_pixels : @DomainTuples.DomainTuple nat := pixels 2 2.

(** The Field on two pixels with the entries [a] and [b]. *)
Definition field {K : Type} (dom : @DomainTuples.DomainTuple nat) (a b : K)
  : @Fields.Field nat K :=
  {| Fields._domain := dom;
     Fields._val := {| Fields.arr_shape := [2]; Fields.arr_data := [a; b] |};
     Fields._uni := None |}.

(** A MultiDomain with the keys [a] and [b], and MultiFields on it with
    one or no entry. *)
Definition two_keys : @MultiFields.MultiDomain nat :=
  {| MultiFields.md_addr := 3;
     MultiFields.keys := ["a"; "b"]%string;
     MultiFields._domains := [two_pixels; two_pixels] |}.

Definition only_a : @MultiFields.MultiField nat R :=
  {| MultiFields._domain := two_keys;
     MultiFields._val := [Some (field two_pixels 1%R 2%R); None] |}.


(** A quadratic energy at the origin, and a [minimize] that gives up at
    once. *)
Definition energy0 : @Minimizers.Energy nat R :=
  {| Minimizers.position := field two_pixels 0%R 0%R;
     Minimizers.quadratic :=
       Some (Operators.ScalingOperator 2%R (Operators.DomTuple two_pixels) Operators._all_ops,
             field two_pixels 1%R 1%R);
     Minimizers.value_at := λ _, 0%R;
     Minimizers.gradient_at := λ f, f;
     Minimizers.metric_at := λ _ f, Ok f |}.

(** A quadratic energy at the origin whose operator multiplies the two
    pixels by 1 and by 2: the system [A x = b] with [b = (1, 1)], which
    the conjugate gradient needs two steps for. *)
Definition stretch : @Operators.LinearOperator nat R :=
  Operators.DiagonalOperator (Operators.VField (field two_pixels 1%R 2%R)).

Definition energy1 : @Minimizers.Energy nat R :=
  {| Minimizers.position := field two_pixels 0%R 0%R;
     Minimizers.quadratic := Some (stretch, field two_pixels 1%R 1%R);
     Minimizers.value_at := λ _, 0%R;
     Minimizers.gradient_at := λ f, f;
     Minimizers.metric_at := λ _ f, Ok f |}.

(** [ScipyCG(tol=1e-5, maxiter=1)]. *)
Definition one_step : @Minimizers.ScipyCG R :=
  {| Minimizers._tol := (1 / 100000)%R; Minimizers._maxiter := 1 |}.

Definition minimize_gives_up : @Minimizers.opt_minimize nat R :=
  λ _ _ _ _ _ _ energy,
    Ok ({| Minimizers.success := false;
           Minimizers.message := "Maximum number of iterations has been exceeded." |},
        energy).

(** A space of two cells of volume 1/2 each. *)
Definition half_cells : Nifty3.Space :=
  {| Nifty3.shape := [2]; Nifty3.dvol := λ _, (1 / 2)%R |}.

(** A space of two cells of the volumes 2 and 3, and the Fields on the
    product of it and of [half_cells], of shape [(2, 2)]: the cells of the
    first row have the volume 1, those of the second 3/2. *)
Definition graded_cells : Nifty3.Space :=
  {| Nifty3.shape := [2];
     Nifty3.dvol := λ J, match J with
                         | [0] => 2%R
                         | _ => 3%R
                         end |}.

Definition grid_field (z00 z01 z10 z11 : complex) : Nifty3.Field :=
  {| Nifty3.domain := [graded_cells; half_cells];
     Nifty3.val := {| Nifty3.arr_shape := [2; 2];
                      Nifty3.entry := λ I, match I with
                                           | [0; 0] => z00
                                           | [0; 1] => z01
                                           | [1; 0] => z10
                                           | _ => z11
                                           end |} |}.

Definition grid_a : Nifty3.Field := grid_field (1, 2)%R (0, 1)%R (2, 0)%R (1, 1)%R.
Definition grid_b : Nifty3.Field := grid_field (1, 0)%R (0, 1)%R (1, 1)%R (2, 0)%R.

(** Complex MultiFields with the keys [a] and [b]: one has both entries,
    the other only [b]. *)
Definition both_keys : @MultiFields.MultiField nat complex :=
  {| MultiFields._domain := two_keys;
     MultiFields._val := [Some (field two_pixels (1, 2)%R (0, 1)%R);
                          Some (field two_pixels (3, 0)%R (1, 1)%R)] |}.

Definition only_b_complex : @MultiFields.MultiField nat complex :=
  {| MultiFields._domain := two_keys;
     MultiFields._val := [None; Some (field two_pixels (0, 1)%R (2, 0)%R)] |}.



(** The Linearization [make_var] builds for a Field on two pixels. *)
Definition variable (a b : R) : @Linearizations.Linearization nat R :=
  Linearizations.Linearization_ (Operators.VField (field two_pixels a b))
    (Operators.ScalingOperator 1%R (Operators.DomTuple two_pixels) Operators._all_ops).

End Samples.

(** * Properties *)

(** ** The identity cache of [DomainTuple] *)

Module DomainTupleFacts.
Import DomainTuples.
Section facts.

Context {Domain : Type} `{Countable Domain}.
Variable shape : Domain → list nat.

#[local] Abbreviation state := (@DomainTuples.state Domain _ _).

Lemma cache_ok_initial : cache_ok (initial : state).
Proof. split; intros *; cbn; rewrite lookup_empty; discriminate. Qed.

Lemma cache_ok_make d (st : state) :
  cache_ok st → cache_ok (snd (make shape (inr d) st)).
Proof.
  intros [Hk Hb Hi]. unfold make.
  destruct (_parse_domain d) as [k|e]; [|by split].
  destruct (_tupleCache st !! k) as [obj|] eqn:Hc; [by split|].
  cbn. split; cbn.
  - intros k' obj'. rewrite lookup_insert. case_decide; intros Hl; simplify_eq; eauto.
  - intros k' obj'. rewrite lookup_insert. case_decide; intros Hl; simplify_eq; cbn; [lia|].
    apply Hb in Hl. lia.
  - intros k1 k2 o1 o2. rewrite !lookup_insert.
    repeat case_decide; intros Hl1 Hl2 Ha; simplify_eq; cbn in *; eauto.
    + apply Hb in Hl2. lia.
    + apply Hb in Hl1. lia.
Qed.

Lemma cache_ok_run calls (st : state) : cache_ok st → cache_ok (run shape calls st).
Proof.
  revert st. induction calls as [|d calls IH]; intros st Hst; [done|].
  cbn. apply IH. by apply cache_ok_make.
Qed.

(** The cache only grows: an entry stays where it is. *)
Lemma make_keeps d (st : state) k obj :
  _tupleCache st !! k = Some obj →
  _tupleCache (snd (make shape (inr d) st)) !! k = Some obj.
Proof.
  intros Hl. unfold make.
  destruct (_parse_domain d) as [k'|e]; [|done].
  destruct (_tupleCache st !! k') as [obj'|] eqn:Hc; [done|].
  cbn. rewrite lookup_insert_ne; [done|]. intros ->. congruence.
Qed.

Lemma run_keeps calls (st : state) k obj :
  _tupleCache st !! k = Some obj → _tupleCache (run shape calls st) !! k = Some obj.
Proof.
  revert st. induction calls as [|d calls IH]; intros st Hl; [done|].
  cbn. apply IH. by apply make_keeps.
Qed.

(** What [make] returns is in the cache afterwards, under the parsed
    description. *)
Lemma make_cached d (st : state) obj :
  fst (make shape (inr d) st) = Ok obj →
  ∃ k, _parse_domain d = Ok k ∧ _tupleCache (snd (make shape (inr d) st)) !! k = Some obj.
Proof.
  unfold make. destruct (_parse_domain d) as [k|e]; [|discriminate].
  destruct (_tupleCache st !! k) as [obj'|] eqn:Hc; cbn.
  - intros [= ->]. eauto.
  - intros [= <-]. exists k. split; [done|]. by rewrite lookup_insert_eq.
Qed.

(** [make] succeeds on every description that parses. *)
Lemma make_total d (st : state) k :
  _parse_domain d = Ok k → is_Ok (fst (make shape (inr d) st)).
Proof.
  intros Hp. unfold make. rewrite Hp.
  destruct (_tupleCache st !! k); cbn; by eexists.
Qed.

(** C8. Two calls of [DomainTuple.make], anywhere in a run that started
    with the empty cache, with descriptions that parse to the same tuple
    of domains, return the same object; and on any two objects that
    [make] returned, [__eq__] holds exactly when they are the same object
    (the same address, hence the same contents). *)
Theorem make_canonical (before between : list description) (a1 a2 : description)
    (d1 d2 : DomainTuple) :
  let st1 := run shape before initial in
  let st2 := run shape between (snd (make shape (inr a1) st1)) in
  fst (make shape (inr a1) st1) = Ok d1 →
  fst (make shape (inr a2) st2) = Ok d2 →
  (_parse_domain a1 = _parse_domain a2 → addr d1 = addr d2 ∧ d1 = d2) ∧
  (__eq__ d1 d2 = true ↔ addr d1 = addr d2) ∧
  (addr d1 = addr d2 → d1 = d2).
Proof.
  intros st1 st2 Hm1 Hm2.
  destruct (make_cached _ _ _ Hm1) as (k1 & Hp1 & Hc1).
  destruct (make_cached _ _ _ Hm2) as (k2 & Hp2 & Hc2).
  apply (run_keeps between) in Hc1. fold st2 in Hc1.
  apply (make_keeps a2) in Hc1.
  assert (Hok : cache_ok (snd (make shape (inr a2) st2))).
  { apply cache_ok_make, cache_ok_run, cache_ok_make, cache_ok_run, cache_ok_initial. }
  destruct Hok as [Hk Hb Hi].
  assert (Hdom : _dom d1 = _dom d2 → d1 = d2).
  { intros Hd. rewrite (Hk _ _ Hc1), (Hk _ _ Hc2) in Hd. subst k2. congruence. }
  assert (Haddr : addr d1 = addr d2 → d1 = d2).
  { intros Ha. pose proof (Hi _ _ _ _ Hc1 Hc2 Ha). subst k2. congruence. }
  split; [|split; [|done]].
  - intros Hp. rewrite Hp1, Hp2 in Hp. injection Hp as ->.
    assert (d1 = d2) by congruence. by subst.
  - unfold __eq__. rewrite orb_true_iff, !bool_decide_eq_true.
    split; [|by left]. intros [Ha|Hd]; [done|]. by rewrite (Hdom Hd).
Qed.

End facts.

(** A run with two spaces of 2 and 3 pixels: the pair of them is made
    twice, once from a tuple and once from a list, with other calls
    before and in between. *)
Lemma make_canonical_witness :
  let d := {| addr := 1; _dom := [2; 3]; _axtuple := [[0]; [1]];
              _shape := [2; 3]; _size := 6 |} in
  (_parse_domain (DIter [PyDomain 2; PyDomain 3]) = _parse_domain (DIter [PyDomain 2; PyDomain 3]) →
   addr d = addr d ∧ d = d) ∧
  (__eq__ d d = true ↔ addr d = addr d) ∧
  (addr d = addr d → d = d).
Proof.
  intros d.
  apply (make_canonical (λ n : nat, [n]) [DDomain 3] [DNone; DDomain 2]
           (DIter [PyDomain 2; PyDomain 3]) (DIter [PyDomain 2; PyDomain 3]) d d);
    vm_compute; reflexivity.
Defined.

End DomainTupleFacts.

(** ** Binary operators of [Field] *)

Module FieldFacts.
Import Fields.
Section facts.

Context {Domain : Type} {K : Type} `{Scalar K}.
#[local] Abbreviation Field := (@Fields.Field Domain K).
#[local] Abbreviation data_object := (@Fields.data_object K).

Implicit Types (self other f : Field) (a b : data_object) (k : K).
Implicit Types (d : @DomainTuples.DomainTuple Domain).

Lemma is_true_iff (x y : @DomainTuples.DomainTuple Domain) :
  is_ x y = true ↔ DomainTuples.addr x = DomainTuples.addr y.
Proof. unfold is_. apply bool_decide_eq_true. Qed.

Lemma is_refl (x : @DomainTuples.DomainTuple Domain) : is_ x x = true.
Proof. by apply is_true_iff. Qed.

Lemma init_array d a :
  DomainTuples._shape d = arr_shape a →
  __init__ d (inl a) = Ok {| _domain := d; _val := a; _uni := None |}.
Proof. intros Hs. unfold __init__. by rewrite bool_decide_eq_true_2. Qed.

Lemma constant_ok d k : field_ok (constant d k).
Proof.
  split; cbn; [done| |by intros u [= ->]].
  by rewrite length_replicate.
Qed.

Lemma array_ok d a :
  DomainTuples._shape d = arr_shape a →
  length (arr_data a) = arr_size (arr_shape a) →
  field_ok {| _domain := d; _val := a; _uni := None |}.
Proof. intros Hs Hl. split; cbn; [done|done|discriminate]. Qed.

Lemma built_scalar self k : built self (__init__ (_domain self) (inr k)).
Proof. exists (constant (_domain self) k). split; [done|]. split; [apply constant_ok|done]. Qed.

Lemma built_map self f g :
  field_ok f → _domain f = _domain self →
  built self (__init__ (_domain self) (inl (arr_map g (_val f)))).
Proof.
  intros [Hs Hl Hu] Hd. eexists. split.
  - apply init_array. cbn. by rewrite Hs, Hd.
  - split; [|done]. apply array_ok; cbn; [by rewrite Hs, Hd|].
    by rewrite length_fmap.
Qed.

Lemma built_zip self other g :
  field_ok self → field_ok other → _domain other = _domain self →
  built self (__init__ (_domain self) (inl (arr_zip g (_val self) (_val other)))).
Proof.
  intros [Hs Hl Hu] [Hs' Hl' Hu'] Hd. eexists. split.
  - apply init_array. cbn. by rewrite Hs.
  - split; [|done]. apply array_ok; cbn; [by rewrite Hs|].
    rewrite length_zip_with, Hl, Hl', Hs, Hs', Hd. unfold arr_size. lia.
Qed.

Lemma built_self self : field_ok self → built self (Ok self).
Proof. intros Hok. by exists self. Qed.

Lemma built_other self other :
  field_ok other → _domain other = _domain self → built self (Ok other).
Proof. intros Hok Hd. by exists other. Qed.

Lemma built_neg self other :
  field_ok other → _domain other = _domain self → built self (__neg__ other).
Proof.
  intros Hok Hd. unfold __neg__. destruct (_uni other).
  - rewrite Hd. apply built_scalar.
  - rewrite Hd. by apply built_map.
Qed.

Create HintDb built.
#[local] Hint Resolve built_scalar built_map built_zip built_self built_other built_neg : built.

Lemma func2_built g self other :
  field_ok self → field_ok other → _domain other = _domain self →
  built self (func2 g self (OField other)).
Proof.
  intros Hs Ho Hd. unfold func2. rewrite Hd, is_refl. cbn [negb]. auto with built.
Qed.

Lemma add_built self other :
  field_ok self → field_ok other → _domain other = _domain self →
  built self (__add__ self (OField other)).
Proof.
  intros Hs Ho Hd. unfold __add__. rewrite Hd, is_refl. cbn [negb].
  destruct (_uni self) as [su|], (_uni other) as [ou|];
    repeat case_match; auto with built.
Qed.

Lemma sub_built self other :
  field_ok self → field_ok other → _domain other = _domain self →
  built self (__sub__ self (OField other)).
Proof.
  intros Hs Ho Hd. unfold __sub__. rewrite Hd, is_refl. cbn [negb].
  destruct (_uni self) as [su|], (_uni other) as [ou|];
    repeat case_match; auto with built.
Qed.

Lemma mul_built self other :
  field_ok self → field_ok other → _domain other = _domain self →
  built self (__mul__ self (OField other)).
Proof.
  intros Hs Ho Hd. unfold __mul__. rewrite Hd, is_refl. cbn [negb].
  destruct (_uni self) as [su|], (_uni other) as [ou|];
    repeat case_match; auto with built.
Qed.

Lemma getattr_built `{Ufunc2 K} op self other :
  field_ok self → field_ok other → _domain other = _domain self →
  built self (getattr op self (OField other)).
Proof.
  intros Hs Ho Hd.
  destruct op;
    first [by apply add_built | by apply sub_built | by apply mul_built | by apply func2_built].
Qed.

Lemma getattr_mismatch `{Ufunc2 K} op self other :
  DomainTuples.addr (_domain self) ≠ DomainTuples.addr (_domain other) →
  getattr op self (OField other) = Raise (ValueError "domains are incompatible.").
Proof.
  intros Hne.
  assert (Hf : is_ (_domain other) (_domain self) = false).
  { apply not_true_is_false. rewrite is_true_iff. congruence. }
  destruct op; cbn; unfold __radd__, __add__, __sub__, __mul__, func2; by rewrite Hf.
Qed.

(** C7. A binary operator on two Fields ([+], [-], [*], [/], [//], [**],
    the comparisons, and the reflected forms) returns a Field exactly when
    the two [_domain]s are the same object; when they are not, it raises
    [ValueError("domains are incompatible.")], the DomainMismatch of the
    specification, and nothing is returned.  The Fields are well-formed,
    and their domains come from [DomainTuple.make], so that two of them
    at one address are one object. *)
Theorem binary_operator_domains `{Ufunc2 K} (op : dunder) self other :
  field_ok self → field_ok other →
  (DomainTuples.addr (_domain self) = DomainTuples.addr (_domain other) →
   _domain self = _domain other) →
  (is_Ok (getattr op self (OField other)) ↔
   DomainTuples.addr (_domain self) = DomainTuples.addr (_domain other)) ∧
  (DomainTuples.addr (_domain self) ≠ DomainTuples.addr (_domain other) →
   getattr op self (OField other) = Raise (ValueError "domains are incompatible.")).
Proof.
  intros Hs Ho Hmake. split; [|apply getattr_mismatch].
  split.
  - intros [r Hr].
    destruct (decide (DomainTuples.addr (_domain self) = DomainTuples.addr (_domain other)))
      as [|Hne]; [done|].
    rewrite (getattr_mismatch op _ _ Hne) in Hr. discriminate.
  - intros Ha. destruct (getattr_built op self other Hs Ho) as (r & Hr & _).
    + symmetry. by apply Hmake.
    + by exists r.
Qed.

End facts.
End FieldFacts.

(** ** Exact zeros *)

#[global] Instance R_ExactZero : ExactZero R.
Proof.
  split; cbn.
  - intros x. apply Rmult_0_r.
  - apply bool_decide_eq_false_2. intros Heq. symmetry in Heq. by apply R1_neq_R0.
  - by apply bool_decide_eq_true_2.
  - by apply bool_decide_eq_true_2.
Qed.

#[global] Instance C_ExactZero : ExactZero complex.
Proof.
  split; cbn.
  - intros [x y]. unfold Cmul, RtoC. cbn. f_equal; lra.
  - apply bool_decide_eq_false_2. unfold RtoC. intros [= Heq]. lra.
  - by apply bool_decide_eq_true_2.
  - by apply bool_decide_eq_true_2.
Qed.

(** ** Binary operators of [MultiField] *)

Module MultiFieldFacts.
Import MultiFields.
Section facts.

Context {Domain : Type} {K : Type} `{Scalar K} `{!ExactZero K}.
#[local] Abbreviation DomainTuple := (@DomainTuples.DomainTuple Domain).
#[local] Abbreviation Field := (@Fields.Field Domain K).
#[local] Abbreviation MultiField := (@MultiFields.MultiField Domain K).
#[local] Abbreviation MultiDomain := (@MultiFields.MultiDomain Domain).

Implicit Types (v : Field) (dom : DomainTuple) (a b r : MultiField).
Implicit Types (vo ro : option Field) (f : Field → @Fields.operand Domain K → result Field).








Lemma init_ok (d : MultiDomain) (res : list (option Field)) :
  length (_domains d) = length (keys d) → Forall2 entry_ok (_domains d) res →
  __init__ d res = Ok {| _domain := d; _val := res |}.
Proof.
  intros Hl Hres. unfold __init__.
  rewrite bool_decide_eq_true_2 by (by rewrite <- (Forall2_length _ _ _ Hres)). cbn.
  assert (Hall : forallb (λ vd : option Field * DomainTuple,
                    match vd.1 with
                    | Some v => Fields.is_ (Fields._domain v) vd.2
                    | None => true
                    end) (zip res (_domains d)) = true).
  { clear Hl. induction Hres as [|dom vo doms l Hv Hres IH]; [done|]. cbn.
    rewrite IH, andb_true_r. destruct vo as [v|]; [|done].
    destruct Hv as [_ <-]. apply FieldFacts.is_refl. }
  by rewrite Hall.
Qed.

Lemma md_is_refl (d : MultiDomain) : md_is d d = true.
Proof. unfold md_is. by apply bool_decide_eq_true_2. Qed.


End facts.
End MultiFieldFacts.

(** ** [ScalingOperator] *)

Module OperatorFacts.
Import Operators.
Section facts.

Context {Domain : Type} {K : Type} `{Scalar K}.
#[local] Abbreviation DomainTuple := (@DomainTuples.DomainTuple Domain).
#[local] Abbreviation value := (@Operators.value Domain K).
#[local] Abbreviation domain := (@Operators.domain Domain).
#[local] Abbreviation LinearOperator := (@Operators.LinearOperator Domain K).

Variable scalar_domain : DomainTuple.

Implicit Types (x y : value) (dom : domain) (op : LinearOperator) (mode : N).

Lemma domain_is_refl dom : domain_is dom dom = true.
Proof. destruct dom; cbn; [apply FieldFacts.is_refl|by apply bool_decide_eq_true_2]. Qed.

(** The four modes are the valid ones, and an operator with [_all_ops]
    supports each of them. *)
Lemma validMode_iff mode :
  _validMode mode = true ↔ mode = TIMES ∨ mode = ADJOINT_TIMES ∨
                           mode = INVERSE_TIMES ∨ mode = ADJOINT_INVERSE_TIMES.
Proof. unfold _validMode. apply bool_decide_eq_true. Qed.

Lemma all_ops_supports mode :
  _validMode mode = true → (N.land mode _all_ops =? 0)%N = false.
Proof. rewrite validMode_iff. by intros [->|[->|[->| ->]]]. Qed.

(** The check of an operator that supports every mode. *)
Lemma check_input_all_ops op x mode :
  capability op = _all_ops → _validMode mode = true →
  domain_is (_dom scalar_domain op mode) (domain_of_value x) = true →
  _check_input scalar_domain op x mode = Ok ().
Proof.
  intros Hc Hm Hd. unfold _check_input.
  by rewrite Hm, Hc, (all_ops_supports _ Hm), Hd.
Qed.

(** C3. [ScalingOperator(factor, domain)] is built for every scalar
    [factor], zero included, and the operator advertises all four modes:
    its capability is [TIMES | ADJOINT_TIMES | INVERSE_TIMES |
    ADJOINT_INVERSE_TIMES], so that [_check_input] lets every valid mode
    through and nothing about the factor is looked at before [apply]. *)
Theorem scaling_operator_capability (factor : K) dom :
  ∃ op, ScalingOperator__init__ (Some factor) dom = Ok op ∧
    ScalingOperator__init__ (Some Kzero) dom = Ok (ScalingOperator Kzero dom _all_ops) ∧
    capability op = N.lor (N.lor TIMES ADJOINT_TIMES)
                          (N.lor INVERSE_TIMES ADJOINT_INVERSE_TIMES) ∧
    (∀ mode, _validMode mode = true → (N.land mode (capability op) =? 0)%N = false) ∧
    (∀ x mode, _validMode mode = true → domain_is dom (domain_of_value x) = true →
       _check_input scalar_domain op x mode = Ok ()).
Proof.
  exists (ScalingOperator factor dom _all_ops).
  split; [done|]. split; [done|]. split; [done|]. split.
  - intros mode. apply all_ops_supports.
  - intros x mode Hm Hd. apply check_input_all_ops; [done|done|].
    unfold _dom. cbn. by destruct (negb _).
Qed.

End facts.

Section zero_one.

Context {Domain : Type} {K : Type} `{Scalar K} `{!ExactZero K}.
#[local] Abbreviation DomainTuple := (@DomainTuples.DomainTuple Domain).
#[local] Abbreviation value := (@Operators.value Domain K).
#[local] Abbreviation domain := (@Operators.domain Domain).

Variable scalar_domain : DomainTuple.

Lemma for_each_full (doms : list DomainTuple) (k : K) :
  for_each (λ d, Some <$> Fields.full d k) doms
  = Ok ((λ d, Some (Fields.constant d k)) <$> doms).
Proof.
  induction doms as [|d doms IH]; [done|].
  cbn [for_each]. rewrite IH. reflexivity.
Qed.

Lemma full_zero (dom : domain) : domain_ok dom → full dom Kzero = Ok (zero_value dom).
Proof.
  destruct dom as [d|d]; [done|]. intros Hl. unfold full, zero_value, MultiFields.full.
  rewrite for_each_full. cbn [mbind result_bind].
  rewrite MultiFieldFacts.init_ok; [done|done|].
  induction (MultiFields._domains d) as [|di doms IH]; cbn; constructor; [|done].
  split; [apply FieldFacts.constant_ok|done].
Qed.

Lemma scaling_apply_zero (dom : domain) (x : value) (mode : N) :
  domain_ok dom → ScalingOperator_apply Kzero dom x mode = Ok (zero_value dom).
Proof.
  intros Hdom. unfold ScalingOperator_apply.
  rewrite Keqb_zero_one, Keqb_zero_zero. by apply full_zero.
Qed.

Lemma scaling_apply_one (dom : domain) (x : value) (mode : N) :
  ScalingOperator_apply Kone dom x mode = Ok x.
Proof. unfold ScalingOperator_apply. by rewrite Keqb_one_one. Qed.

Lemma scaling_check (factor : K) (dom : domain) (x : value) (mode : N) :
  _validMode mode = true → domain_is dom (domain_of_value x) = true →
  _check_input scalar_domain (ScalingOperator factor dom _all_ops) x mode = Ok ().
Proof.
  intros Hm Hd. apply check_input_all_ops; [done|done|].
  unfold _dom. cbn. by destruct (negb _).
Qed.

Lemma scaling_one_is_identity (dom : domain) (x : value) (mode : N) :
  _validMode mode = true → domain_is dom (domain_of_value x) = true →
  apply scalar_domain (ScalingOperator Kone dom _all_ops) x mode = Ok x.
Proof.
  intros Hm Hd. cbn [apply]. by rewrite scaling_check, scaling_apply_one.
Qed.

(** C10. With the factor [0], [ScalingOperator.apply] returns the zero
    Field (or MultiField) on the operator's domain in every mode, the
    inverse ones included, for every argument that passes the check of
    the argument ([_check_input]: a valid mode, and an argument on the
    operator's domain); with the factor [1] it returns its argument.
    Nothing else can raise: the result is the one of the check, followed
    by that value. *)
Theorem scaling_zero_and_one (dom : domain) (x : value) (mode : N) :
  domain_ok dom →
  apply scalar_domain (ScalingOperator Kzero dom _all_ops) x mode
  = (_ ← _check_input scalar_domain (ScalingOperator Kzero dom _all_ops) x mode;
     Ok (zero_value dom)) ∧
  apply scalar_domain (ScalingOperator Kone dom _all_ops) x mode
  = (_ ← _check_input scalar_domain (ScalingOperator Kone dom _all_ops) x mode; Ok x) ∧
  (_validMode mode = true → domain_is dom (domain_of_value x) = true →
   apply scalar_domain (ScalingOperator Kzero dom _all_ops) x mode = Ok (zero_value dom) ∧
   apply scalar_domain (ScalingOperator Kone dom _all_ops) x mode = Ok x).
Proof.
  intros Hdom. split; [|split].
  - cbn [apply]. by rewrite scaling_apply_zero.
  - cbn [apply]. by rewrite scaling_apply_one.
  - intros Hm Hd. split; [|by apply scaling_one_is_identity].
    cbn [apply]. by rewrite scaling_check, scaling_apply_zero.
Qed.

End zero_one.
End OperatorFacts.

(** ** [Linearization] *)

Module LinearizationFacts.
Import Operators Linearizations.

Section relaxed_sum.

Context {Domain : Type} {K : Type} `{Scalar K} `{!ExactZero K} `{Ufunc2 K}.
#[local] Abbreviation DomainTuple := (@DomainTuples.DomainTuple Domain).
#[local] Abbreviation MultiField := (@MultiFields.MultiField Domain K).
#[local] Abbreviation LinearOperator := (@Operators.LinearOperator Domain K).



End relaxed_sum.

Section chain_rule.

Context {Domain : Type} {K : Type} `{Scalar K} `{Elementary K} `{Ufunc2 K}.
#[local] Abbreviation DomainTuple := (@DomainTuples.DomainTuple Domain).
#[local] Abbreviation Field := (@Fields.Field Domain K).
#[local] Abbreviation value := (@Operators.value Domain K).
#[local] Abbreviation LinearOperator := (@Operators.LinearOperator Domain K).
#[local] Abbreviation Linearization := (@Linearizations.Linearization Domain K).

Variable scalar_domain : DomainTuple.

Implicit Types (v : Field) (g : K → K) (L : Linearization).

Lemma func1_mapped g v : Fields.field_ok v → Fields.mapped g v (Fields.func1 g v).
Proof.
  intros [Hs Hl Hu]. unfold Fields.func1. destruct (Fields._uni v) as [u|] eqn:Hv.
  - exists (Fields.constant (Fields._domain v) (g u)).
    split; [done|]. split; [apply FieldFacts.constant_ok|]. split; [done|].
    unfold Fields.entries. rewrite (Hu _ eq_refl). cbn. by rewrite fmap_replicate.
  - eexists. split; [apply FieldFacts.init_array; by cbn|].
    split; [|done]. apply FieldFacts.array_ok; cbn; [done|]. by rewrite length_fmap.
Qed.

Lemma func2_scalar_mapped (op : K → K → K) v k :
  Fields.field_ok v → Fields.mapped (λ x, op x k) v (Fields.func2 op v (Fields.OScalar k)).
Proof.
  intros [Hs Hl Hu]. eexists. split; [apply FieldFacts.init_array; by cbn|].
  split; [|done]. apply FieldFacts.array_ok; cbn; [done|]. by rewrite length_fmap.
Qed.

Lemma mapped_compose g1 g2 v f r :
  Fields.entries f = g1 <$> Fields.entries v → Fields._domain f = Fields._domain v →
  Fields.mapped g2 f r → Fields.mapped (g2 ∘ g1) v r.
Proof.
  intros He Hd (f' & -> & Hok & Hd' & He'). exists f'.
  split; [done|]. split; [done|]. split; [congruence|].
  by rewrite He', He, <- list_fmap_compose.
Qed.

Lemma one_minus_square_mapped v t :
  Fields.field_ok t → Fields.entries t = Ktanh <$> Fields.entries v →
  Fields._domain t = Fields._domain v →
  ∃ d, one_minus_square (VField t) = Ok (VField d) ∧ Fields.field_ok d ∧
       Fields._domain d = Fields._domain v ∧
       Fields.entries d = derivative Tanh <$> Fields.entries v.
Proof.
  intros Hok He Hd. unfold one_minus_square, binary_scalar.
  destruct (func2_scalar_mapped Kpow t (Kadd Kone Kone) Hok) as (sq & Hsq & Hoksq & Hdsq & Hesq).
  unfold Fields.__pow__. rewrite Hsq. cbn [fmap result_fmap mbind result_bind].
  destruct (func2_scalar_mapped (λ x y, Ksub y x) sq Kone Hoksq) as (d & Hd' & Hokd & Hdd & Hed).
  unfold Fields.__rsub__. rewrite Hd'. cbn [fmap result_fmap].
  exists d. split; [done|]. split; [done|]. split; [congruence|].
  rewrite Hed, Hesq, He, <- !list_fmap_compose. done.
Qed.

(** The application of a chain of a diagonal operator and [J], in the
    mode [TIMES]. *)
Lemma apply_diagonal_chain (d : value) (J : LinearOperator) (x y : value) :
  _check_input scalar_domain (chain (makeOp d) J) x TIMES = Ok () →
  apply scalar_domain J x TIMES = Ok y →
  _check_input scalar_domain (makeOp d) y TIMES = Ok () →
  apply scalar_domain (chain (makeOp d) J) x TIMES = mul y d.
Proof.
  intros Hc HJ Hcd. unfold chain, makeOp in *. cbn [apply].
  rewrite Hc. cbn [mbind result_bind]. rewrite HJ. cbn [mbind result_bind].
  change (apply scalar_domain (DiagonalOperator d) y TIMES)
    with (_ ← _check_input scalar_domain (DiagonalOperator d) y TIMES;
          DiagonalOperator_apply d y TIMES).
  rewrite Hcd. reflexivity.
Qed.

Lemma call_chain_rule (e : elementary) L v :
  _val L = VField v → Fields.field_ok v → chain_rule scalar_domain e L v.
Proof.
  intros Hv Hok. unfold chain_rule. destruct e; cbn [call function derivative].
  - destruct (func1_mapped Kexp v Hok) as (fv & Hfv & Hokfv & Hdfv & Hefv).
    exists fv, fv. unfold exp, func1. rewrite Hv. unfold Fields.exp. rewrite Hfv.
    repeat (split; [done|]). intros x y. apply apply_diagonal_chain.
  - destruct (func1_mapped Klog v Hok) as (fv & Hfv & Hokfv & Hdfv & Hefv).
    destruct (func2_scalar_mapped (λ x y, Kdiv y x) v Kone Hok) as (d & Hd & Hokd & Hdd & Hed).
    exists fv, d. unfold log, func1, binary_scalar. rewrite Hv.
    unfold Fields.log, Fields.__rtruediv__. rewrite Hfv, Hd.
    repeat (split; [done|]). intros x y. apply apply_diagonal_chain.
  - destruct (func1_mapped Ktanh v Hok) as (fv & Hfv & Hokfv & Hdfv & Hefv).
    destruct (one_minus_square_mapped v fv Hokfv Hefv Hdfv) as (d & Hd & Hokd & Hdd & Hed).
    exists fv, d. unfold tanh, func1. rewrite Hv. unfold Fields.tanh. rewrite Hfv.
    cbn [fmap result_fmap mbind result_bind]. rewrite Hd.
    repeat (split; [done|]). intros x y. apply apply_diagonal_chain.
Qed.

(** C5. [exp], [log] and [tanh] of a Linearization with the Field [v] as
    value and [J] as Jacobian return a new Linearization: its value is the
    function applied to [v] entry by entry, and its Jacobian is the chain
    of the diagonal operator of the derivative at [v] ([exp(v)], [1/v],
    [1 - tanh(v)**2]) and [J], for [exp] the diagonal operator of the new
    value itself; applied to a tangent, that chain multiplies what [J]
    returns by the derivative. *)
Theorem elementary_chain_rule (e : elementary) L v :
  _val L = VField v → Fields.field_ok v →
  ∃ fv d,
    call e L = Ok (Linearization_ (VField fv) (chain (makeOp (VField d)) (_jac L))) ∧
    Fields.field_ok fv ∧ Fields._domain fv = Fields._domain v ∧
    Fields.entries fv = function e <$> Fields.entries v ∧
    Fields.field_ok d ∧ Fields._domain d = Fields._domain v ∧
    Fields.entries d = derivative e <$> Fields.entries v ∧
    (e = Exp → d = fv) ∧
    (∀ x y,
       _check_input scalar_domain (chain (makeOp (VField d)) (_jac L)) x TIMES = Ok () →
       apply scalar_domain (_jac L) x TIMES = Ok y →
       _check_input scalar_domain (makeOp (VField d)) y TIMES = Ok () →
       apply scalar_domain (chain (makeOp (VField d)) (_jac L)) x TIMES = mul y (VField d)).
Proof. apply call_chain_rule. Qed.

End chain_rule.

Section round_trip.

Context {Domain : Type}.
#[local] Abbreviation DomainTuple := (@DomainTuples.DomainTuple Domain).
#[local] Abbreviation Field := (@Fields.Field Domain R).
#[local] Abbreviation value := (@Operators.value Domain R).
#[local] Abbreviation LinearOperator := (@Operators.LinearOperator Domain R).

Variable scalar_domain : DomainTuple.

Implicit Types (v t x : Field).

Lemma length_entries v :
  Fields.field_ok v →
  length (Fields.entries v) = Fields.arr_size (DomainTuples._shape (Fields._domain v)).
Proof. intros [Hs Hl Hu]. unfold Fields.entries. by rewrite Hl, Hs. Qed.

Lemma uniform_entries v u :
  Fields.field_ok v → Fields._uni v = Some u →
  Fields.entries v = replicate (Fields.arr_size (DomainTuples._shape (Fields._domain v))) u.
Proof. intros [Hs Hl Hu] Hv. unfold Fields.entries. by rewrite (Hu _ Hv). Qed.

Lemma replicate_as_fmap (l : list R) (n : nat) (c : R) (g : R → R) :
  length l = n → (∀ y, g y = c) → replicate n c = g <$> l.
Proof.
  intros <- Hg. induction l as [|y l IH]; [done|]. cbn. by rewrite IH, Hg.
Qed.

Lemma fmap_as_id_on (l : list R) (g : R → R) : Forall (λ y, g y = y) l → l = g <$> l.
Proof.
  induction 1 as [|y l Hy Hl IH]; [done|]. cbn. by rewrite <- IH, Hy.
Qed.

Lemma fmap_as_id (l : list R) (g : R → R) : (∀ y, g y = y) → l = g <$> l.
Proof.
  intros Hg. induction l as [|y l IH]; [done|]. cbn. by rewrite <- IH, Hg.
Qed.

(** The product of two real Fields of one domain, entry by entry, whatever
    short cut [__mul__] takes. *)
Lemma mul_entries v t :
  Fields.field_ok v → Fields.field_ok t → Fields._domain t = Fields._domain v →
  ∃ r, Fields.__mul__ v (Fields.OField t) = Ok r ∧ Fields.field_ok r ∧
       Fields._domain r = Fields._domain v ∧
       Fields.entries r = zip_with Rmult (Fields.entries v) (Fields.entries t).
Proof.
  intros Hv Ht Hd.
  pose proof (length_entries v Hv) as Hlv. pose proof (length_entries t Ht) as Hlt.
  rewrite Hd in Hlt.
  destruct (FieldFacts.mul_built v t Hv Ht Hd) as (r & Hr & Hok & Hdr).
  exists r. split; [done|]. split; [done|]. split; [done|].
  revert Hr. unfold Fields.__mul__. rewrite Hd, FieldFacts.is_refl. cbn [negb].
  destruct (Fields._uni v) as [su|] eqn:Hsu, (Fields._uni t) as [ou|] eqn:Hou.
  - rewrite (uniform_entries v su Hv Hsu), (uniform_entries t ou Ht Hou), Hd.
    rewrite zip_with_replicate. cbn [Keqb Kone Kzero Kmul R_Scalar].
    repeat case_bool_decide; intros [= <-]; subst.
    + rewrite (uniform_entries t ou Ht Hou), Hd. f_equal. lra.
    + rewrite (uniform_entries v 0%R Hv Hsu). f_equal. lra.
    + done.
  - rewrite (uniform_entries v su Hv Hsu).
    rewrite zip_with_replicate_l by lia. cbn [Keqb Kone Kzero Kmul R_Scalar].
    repeat case_bool_decide; intros Hr; subst.
    + injection Hr as <-. apply fmap_as_id. intros y. lra.
    + injection Hr as <-. rewrite (uniform_entries v 0%R Hv Hsu).
      apply replicate_as_fmap; [done|]. intros y. lra.
    + rewrite FieldFacts.init_array in Hr by (destruct Ht as [Hs _ _]; cbn; by rewrite Hs, Hd).
      injection Hr as <-. cbn. apply list_fmap_ext. intros _ y _. cbn. lra.
  - rewrite (uniform_entries t ou Ht Hou), Hd.
    rewrite zip_with_replicate_r by lia. cbn [Keqb Kone Kzero Kmul R_Scalar].
    repeat case_bool_decide; intros Hr; subst.
    + injection Hr as <-. apply fmap_as_id. intros y. unfold flip. lra.
    + injection Hr as <-. rewrite (uniform_entries t 0%R Ht Hou), Hd.
      apply replicate_as_fmap; [done|]. intros y. unfold flip. lra.
    + rewrite FieldFacts.init_array in Hr by (destruct Hv as [Hs _ _]; cbn; by rewrite Hs).
      injection Hr as <-. done.
  - rewrite FieldFacts.init_array by (destruct Hv as [Hs _ _]; cbn; by rewrite Hs).
    by intros [= <-].
Qed.

Lemma exp_log_entries (xs ts : list R) :
  Forall (λ r, 0 < r)%R xs → length ts = length xs →
  zip_with Rmult (zip_with Rmult ts ((λ r, 1 / r)%R <$> xs)) ((λ r, Rtrigo_def.exp (ln r)) <$> xs) = ts.
Proof.
  intros Hpos. revert ts. induction Hpos as [|r xs Hr Hpos IH]; intros [|t ts] Hl; try done.
  cbn. rewrite IH by (cbn in Hl; lia). f_equal.
  rewrite exp_ln by done. field. lra.
Qed.

Lemma factors_are_one (xs : list R) :
  Forall (λ r, 0 < r)%R xs →
  zip_with Rmult ((λ r, Rtrigo_def.exp (ln r)) <$> xs) ((λ r, 1 / r)%R <$> xs) = replicate (length xs) 1%R.
Proof.
  induction 1 as [|r xs Hr Hpos IH]; [done|]. cbn. rewrite IH. f_equal.
  rewrite exp_ln by done. field. lra.
Qed.

(** C6. For a Field [x] with positive entries, [exp(log(.))] of the
    variable at [x] has [x] again as value, and a Jacobian that is the
    identity on the domain of [x]: it is the chain of the diagonal
    operators of [exp(log(x))] and of [1/x] and of the scaling by one,
    the two diagonals multiply to one everywhere, and the Jacobian
    returns every tangent as it got it. *)
Theorem exp_log_jacobian_is_identity x :
  Fields.field_ok x → Forall (λ r, 0 < r)%R (Fields.entries x) →
  ∃ (L : @Linearizations.Linearization Domain R) (e d : Field),
    (l0 ← make_var (VField x); l1 ← log l0; exp l1) = Ok L ∧
    _val L = VField e ∧ Fields.entries e = Fields.entries x ∧
    _jac L = chain (makeOp (VField e))
               (chain (makeOp (VField d))
                  (ScalingOperator 1%R (DomTuple (Fields._domain x)) _all_ops)) ∧
    Fields.entries d = (λ r, 1 / r)%R <$> Fields.entries x ∧
    zip_with Rmult (Fields.entries e) (Fields.entries d)
      = replicate (length (Fields.entries x)) 1%R ∧
    ∀ t, Fields.field_ok t → Fields._domain t = Fields._domain x →
      ∃ r, apply scalar_domain (_jac L) (VField t) TIMES = Ok (VField r) ∧
           Fields._domain r = Fields._domain t ∧ Fields.entries r = Fields.entries t.
Proof.
  intros Hx Hpos.
  set (J0 := ScalingOperator 1%R (DomTuple (Fields._domain x)) _all_ops).
  set (L0 := @Linearization_ Domain R (VField x) J0).
  destruct (call_chain_rule scalar_domain Log L0 x eq_refl Hx)
    as (lx & d & Hlog & Hoklx & Hdlx & Helx & Hokd & Hdd & Hed & _ & _).
  set (L1 := Linearization_ (VField lx) (chain (makeOp (VField d)) (_jac L0))) in Hlog.
  destruct (call_chain_rule scalar_domain Exp L1 lx eq_refl Hoklx)
    as (e & e' & Hexp & Hoke & Hde & Hee & _ & _ & _ & He' & _).
  rewrite (He' eq_refl) in Hexp. clear e' He'.
  cbn [call function derivative Kexp Klog Kdiv Kone R_Scalar R_Elementary] in *.
  assert (Hex : Fields.entries e = (λ r, Rtrigo_def.exp (ln r)) <$> Fields.entries x).
  { rewrite Hee, Helx, <- list_fmap_compose. done. }
  exists (Linearization_ (VField e) (chain (makeOp (VField e)) (_jac L1))), e, d.
  split; [|split; [done|split; [|split; [|split; [done|split]]]]].
  - unfold make_var. cbn [ScalingOperator__init__ mbind result_bind domain_of_value].
    change (log L0 ≫= (λ l1, exp l1)
            = Ok (Linearization_ (VField e) (chain (makeOp (VField e)) (_jac L1)))).
    rewrite Hlog. cbn [mbind result_bind]. exact Hexp.
  - rewrite Hex. symmetry. apply fmap_as_id_on. eapply Forall_impl; [exact Hpos|].
    intros r Hr. cbn. by apply exp_ln.
  - done.
  - rewrite Hex, Hed. by apply factors_are_one.
  - intros t Ht Hdt.
    assert (Hall : ∀ op (y : Field), capability op = _all_ops →
              op_domain scalar_domain op = DomTuple (Fields._domain x) →
              Fields._domain y = Fields._domain x →
              _check_input scalar_domain op (VField y) TIMES = Ok ()).
    { intros op y Hcap Hop Hy. apply OperatorFacts.check_input_all_ops; [done|done|].
      unfold _dom. cbn [N.land TIMES negb N.eqb Pos.land]. rewrite Hop. cbn.
      rewrite Hy. apply FieldFacts.is_refl. }
    destruct (mul_entries t d Ht Hokd) as (r1 & Hr1 & Hokr1 & Hdr1 & Her1); [congruence|].
    destruct (mul_entries r1 e Hokr1 Hoke) as (r2 & Hr2 & Hokr2 & Hdr2 & Her2); [congruence|].
    exists r2. split; [|split; [congruence|]].
    + cbn [_jac Linearization_].
      rewrite (apply_diagonal_chain scalar_domain (VField e) _ (VField t) (VField r1)).
      * unfold mul, binary. by rewrite Hr2.
      * apply Hall; [reflexivity|reflexivity|done].
      * unfold L1. cbn [_jac Linearization_].
        rewrite (apply_diagonal_chain scalar_domain (VField d) _ (VField t) (VField t)).
        -- unfold mul, binary. by rewrite Hr1.
        -- apply Hall; [reflexivity|reflexivity|done].
        -- unfold L0, J0. cbn [_jac Linearization_].
           refine (@OperatorFacts.scaling_one_is_identity Domain R R_Scalar R_ExactZero
                     scalar_domain (DomTuple (Fields._domain x)) (VField t) TIMES eq_refl _).
           cbn. rewrite Hdt. apply FieldFacts.is_refl.
        -- apply Hall; [reflexivity| |done]. cbn. by rewrite Hdd.
      * apply Hall; [reflexivity| |congruence]. cbn. by rewrite Hde, Hdlx.
    + rewrite Her2, Her1, Hex, Hed. apply exp_log_entries; [done|].
      rewrite !length_entries by done. by rewrite Hdt.
Qed.

End round_trip.
End LinearizationFacts.

(** ** The Poisson likelihood *)

Module EnergyFacts.
Import Operators Energies.

Section unguarded.

Context {Domain : Type} {K : Type} `{Scalar K} `{Elementary K}.
#[local] Abbreviation DomainTuple := (@DomainTuples.DomainTuple Domain).
#[local] Abbreviation Field := (@Fields.Field Domain K).

Variable scalar_domain : DomainTuple.

Implicit Types (x d : Field).

(** The expression of both versions of [apply] never raises on Fields of
    one domain, whatever their entries are. *)
Lemma res_value_formula x d :
  Fields.field_ok x → Fields._domain d = Fields._domain x →
  res_value (VField x) (VField d)
  = Ok (poisson_formula (Fields.entries x) (Fields.entries d)).
Proof.
  intros Hx Hd. unfold res_value. cbn [sum mbind result_bind].
  destruct (LinearizationFacts.func1_mapped Klog x Hx) as (lx & Hlx & Hoklx & Hdlx & Helx).
  unfold Linearizations.func1, Fields.log. rewrite Hlx. cbn [fmap result_fmap mbind result_bind].
  unfold vdot, Fields.vdot. rewrite Hd, <- Hdlx, FieldFacts.is_refl. cbn [negb mbind result_bind].
  unfold poisson_formula, Fields.sum, Fields.dobj_vdot, Fields.arr_sum, Fields.arr_zip.
  cbn [Fields.arr_data]. unfold Fields.entries in Helx. by rewrite Helx.
Qed.

End unguarded.

Section float64.

Context {Domain : Type}.
#[local] Abbreviation DomainTuple := (@DomainTuples.DomainTuple Domain).
#[local] Abbreviation Field := (@Fields.Field Domain float64).

Variable scalar_domain : DomainTuple.

Implicit Types (x d : Field).

Lemma sum_finite (rs : list R) :
  foldr f64_add (Fin 0) (Fin <$> rs) = Fin (foldr Rplus 0%R rs).
Proof. induction rs as [|r rs IH]; [done|]. cbn. by rewrite IH. Qed.

Lemma log_times_finite (rs ds : list R) :
  Forall (λ r, 0 < r)%R rs →
  zip_with (λ a b, f64_mul a b) (f64_log <$> (Fin <$> rs)) (Fin <$> ds)
  = Fin <$> zip_with (λ r δ, ln r * δ)%R rs ds.
Proof.
  intros Hpos. revert ds. induction Hpos as [|r rs Hr Hpos IH]; intros [|δ ds]; try done.
  cbn. rewrite IH. by rewrite decide_True.
Qed.

Lemma formula_finite (rs ds : list R) :
  Forall (λ r, 0 < r)%R rs →
  poisson_formula (Fin <$> rs) (Fin <$> ds) = Fin (real_formula rs ds).
Proof.
  intros Hpos. unfold poisson_formula, real_formula.
  cbn [Ksub Kadd Kzero Kmul Kconj Klog f64_Scalar f64_Elementary].
  by rewrite sum_finite, (log_times_finite _ _ Hpos), sum_finite.
Qed.

(** C2, as the code has it.  Neither version of [PoissonianEnergy.apply]
    looks at the sign of the prediction: on every prediction [x] on the
    domain of the data [d] it returns [sum(x) - <log(x), d>] in numpy's
    arithmetic and raises nothing, so that a zero or negative entry goes
    through [log] as [-inf] or [nan] into the energy that is returned,
    unclamped and unreported.  On a prediction with positive entries and
    finite data the energy is the real number [sum(x) - <log(x), d>]. *)
Theorem poisson_energy_is_unguarded (_op : input → result input) (inp : input) x d :
  Fields.field_ok x → Fields._domain d = Fields._domain x →
  _op inp = Ok (IValue (VField x)) →
  let E := poisson_formula (Fields.entries x) (Fields.entries d) in
  PoissonianEnergy_apply scalar_domain _op (VField d) inp = Ok (RScalar E) ∧
  energy_operators_PoissonianEnergy_apply scalar_domain d (VField x)
  = Ok (Fields.constant scalar_domain E) ∧
  (∀ rs ds, Fields.entries x = Fin <$> rs → Fields.entries d = Fin <$> ds →
     Forall (λ r, 0 < r)%R rs → E = Fin (real_formula rs ds)).
Proof.
  intros Hx Hd Hop E. split; [|split].
  - unfold PoissonianEnergy_apply. rewrite Hop. cbn [mbind result_bind].
    by rewrite res_value_formula.
  - unfold energy_operators_PoissonianEnergy_apply, Operator_check_input.
    cbn [domain_of_value domain_is]. rewrite Hd, FieldFacts.is_refl.
    cbn [negb mbind result_bind]. by rewrite res_value_formula.
  - intros rs ds Hxs Hds Hpos. unfold E. rewrite Hxs, Hds. by apply formula_finite.
Qed.

End float64.
End EnergyFacts.

(** ** The scipy minimizers *)

Module MinimizerFacts.
Import Operators Minimizers.

Section facts.

Context {Domain : Type} {K : Type} `{Scalar K}.
#[local] Abbreviation DomainTuple := (@DomainTuples.DomainTuple Domain).
#[local] Abbreviation Field := (@Fields.Field Domain K).
#[local] Abbreviation Energy := (@Minimizers.Energy Domain K).
#[local] Abbreviation LinearOperator := (@Operators.LinearOperator Domain K).

Variable scalar_domain : DomainTuple.

Lemma toField_ok (arr : list K) (d : DomainTuple) :
  length arr = Fields.arr_size (DomainTuples._shape d) →
  _toField arr d
  = Ok {| Fields._domain := d;
          Fields._val := {| Fields.arr_shape := DomainTuples._shape d; Fields.arr_data := arr |};
          Fields._uni := None |}.
Proof.
  intros Hl. unfold _toField. rewrite bool_decide_eq_true_2 by done. cbn [negb].
  by apply FieldFacts.init_array.
Qed.

Lemma ScipyCG_returns (cg : sparse_cg) (self : ScipyCG) (energy : Energy)
    (preconditioner : option LinearOperator) op b d res info :
  quadratic energy = Some (op, b) →
  op_domain scalar_domain op = DomTuple d →
  cg (mymatvec scalar_domain op) (_toArray b) (_toArray (position energy)) (_tol self)
     (mymatvec scalar_domain <$> preconditioner) (_maxiter self) = Ok (res, info) →
  length res = Fields.arr_size (DomainTuples._shape d) →
  ∃ f, _toField res d = Ok f ∧ Fields.entries f = res ∧ Fields._domain f = d ∧
       ScipyCG__call__ scalar_domain cg self energy preconditioner
       = Ok (at_ energy f, if (info >=? 0)%Z then CONVERGED else ERROR).
Proof.
  intros Hq Hop Hcg Hl. eexists. split; [by apply toField_ok|]. split; [done|]. split; [done|].
  unfold ScipyCG__call__. rewrite Hq, Hop, Hcg. cbn [mbind result_bind fst snd].
  by rewrite toField_ok.
Qed.

Lemma ScipyMinimizer_returns (minimize : opt_minimize) (self : ScipyMinimizer)
    (energy : Energy) bounds r e :
  scipy_bounds self energy = Ok bounds →
  minimize (fun_ (_MinHelper_domain energy)) (_toArray_rw (position energy)) (_method self)
    (jac (_MinHelper_domain energy))
    (if _need_hessp self then Some (hessp (_MinHelper_domain energy)) else None)
    bounds energy = Ok (r, e) →
  ScipyMinimizer__call__ minimize self energy
  = Ok (e, if success r then CONVERGED else ERROR).
Proof.
  intros Hb Hm. unfold ScipyMinimizer__call__. rewrite Hb. cbn [mbind result_bind].
  rewrite Hm. cbn [mbind result_bind fst snd]. by destruct (success r).
Qed.

(** C1, as the code has it.  Both minimizers return a pair of an energy
    and a status, and the status is [CONVERGED] or [ERROR], never a third
    one.  [ScipyCG] returns the energy at the last iterate of scipy's
    [cg], whatever [info] says, with [CONVERGED] for [info >= 0], which
    includes the positive [info] of a budget that ran out before the
    tolerance was met, and [ERROR] for a negative one.  [ScipyMinimizer]
    returns the energy its helper holds when scipy's [minimize] comes
    back, with [ERROR] when [success] is false, which is what scipy
    reports for a budget that ran out, and [CONVERGED] otherwise. *)
Theorem scipy_minimizers_return (cg : sparse_cg) (self : ScipyCG) (energy : Energy)
    (preconditioner : option LinearOperator) op b d res info
    (minimize : opt_minimize) (self' : ScipyMinimizer) (energy' : Energy) bounds r e :
  quadratic energy = Some (op, b) →
  op_domain scalar_domain op = DomTuple d →
  cg (mymatvec scalar_domain op) (_toArray b) (_toArray (position energy)) (_tol self)
     (mymatvec scalar_domain <$> preconditioner) (_maxiter self) = Ok (res, info) →
  length res = Fields.arr_size (DomainTuples._shape d) →
  scipy_bounds self' energy' = Ok bounds →
  minimize (fun_ (_MinHelper_domain energy')) (_toArray_rw (position energy')) (_method self')
    (jac (_MinHelper_domain energy'))
    (if _need_hessp self' then Some (hessp (_MinHelper_domain energy')) else None)
    bounds energy' = Ok (r, e) →
  (∃ f st, ScipyCG__call__ scalar_domain cg self energy preconditioner = Ok (at_ energy f, st) ∧
     Fields.entries (position (at_ energy f)) = res ∧
     st = (if (info >=? 0)%Z then CONVERGED else ERROR) ∧
     (st = CONVERGED ∨ st = ERROR) ∧
     ((0 < info)%Z → st = CONVERGED)) ∧
  (∃ st, ScipyMinimizer__call__ minimize self' energy' = Ok (e, st) ∧
     st = (if success r then CONVERGED else ERROR) ∧
     (st = CONVERGED ∨ st = ERROR) ∧
     (success r = false → st = ERROR)).
Proof.
  intros Hq Hop Hcg Hl Hb Hm. split.
  - destruct (ScipyCG_returns cg self energy preconditioner op b d res info Hq Hop Hcg Hl)
      as (f & _ & Hf & _ & Hcall).
    exists f. eexists. split; [exact Hcall|]. split; [done|]. split; [done|]. split.
    + destruct (info >=? 0)%Z; auto.
    + intros Hpos. destruct (Z.geb_spec info 0); [done|lia].
  - eexists. split; [by eapply ScipyMinimizer_returns|]. split; [done|]. split.
    + destruct (success r); auto.
    + by intros ->.
Qed.

End facts.
End MinimizerFacts.

(** ** Inner products *)

Module InnerProductFacts.

Lemma Cconj_add (a b : complex) : Cconj (Cadd a b) = Cadd (Cconj a) (Cconj b).
Proof. destruct a, b. unfold Cconj, Cadd. cbn. f_equal; ring. Qed.

Lemma Cconj_mul (a b : complex) : Cconj (Cmul a b) = Cmul (Cconj a) (Cconj b).
Proof. destruct a, b. unfold Cconj, Cmul. cbn. f_equal; ring. Qed.

Lemma Cconj_conj (a : complex) : Cconj (Cconj a) = a.
Proof. destruct a. unfold Cconj. cbn. f_equal; ring. Qed.

Lemma Cconj_real (r : R) : Cconj (RtoC r) = RtoC r.
Proof. unfold Cconj, RtoC. cbn. f_equal; ring. Qed.

Lemma Cmul_comm (a b : complex) : Cmul a b = Cmul b a.
Proof. destruct a, b. unfold Cmul. cbn. f_equal; ring. Qed.

Lemma Cmul_assoc (a b c : complex) : Cmul a (Cmul b c) = Cmul (Cmul a b) c.
Proof. destruct a, b, c. unfold Cmul. cbn. f_equal; ring. Qed.

Lemma Cmul_one (a : complex) : Cmul a (RtoC 1) = a.
Proof. destruct a. unfold Cmul, RtoC. cbn. f_equal; ring. Qed.

Lemma Cmul_real (r1 r2 : R) : Cmul (RtoC r1) (RtoC r2) = RtoC (r1 * r2).
Proof. unfold Cmul, RtoC. cbn. f_equal; ring. Qed.

Lemma Cconj_sum (l : list complex) :
  Cconj (foldr Cadd (RtoC 0) l) = foldr Cadd (RtoC 0) (Cconj <$> l).
Proof.
  induction l as [|a l IH]; cbn; [apply Cconj_real|]. by rewrite Cconj_add, IH.
Qed.

(** The conjugate of a conjugate product is the product the other way
    round, provided the weight is real. *)
Lemma conj_term (x y : complex) (w : R) :
  Cconj (Cmul (Cconj x) (Cmul y (RtoC w))) = Cmul (Cconj y) (Cmul x (RtoC w)).
Proof.
  rewrite !Cconj_mul, Cconj_conj, Cconj_real.
  rewrite !Cmul_assoc. f_equal. apply Cmul_comm.
Qed.

Lemma weighted_product_conj shape w x y :
  Cconj (Nifty3.weighted_product shape w x y) = Nifty3.weighted_product shape w y x.
Proof.
  unfold Nifty3.weighted_product. rewrite Cconj_sum, <- list_fmap_compose.
  f_equal. apply list_fmap_ext. intros _ I _. cbn. apply conj_term.
Qed.

Section nifty.
Import Nifty3.

Implicit Types (self x : Field) (a : array) (I : list nat) (dom : list Space).

Lemma indices_length (shape : list nat) I : I ∈ indices shape → length I = length shape.
Proof.
  revert I. induction shape as [|n shape IH]; intros I HI; cbn in HI.
  - apply list_elem_of_singleton in HI. by subst.
  - apply list_elem_of_bind in HI as (i & HI & _).
    apply list_elem_of_fmap in HI as (J & -> & HJ). cbn. f_equal. by apply IH.
Qed.

(** Reading a multi-index at the axes [i, ..., i + n - 1] gives its [n]
    positions from [i] on. *)
Lemma read_axes I (i n : nat) :
  i + n ≤ length I → (λ ax, nth ax I 0) <$> seq i n = take n (drop i I).
Proof.
  intros Hl. apply list_eq. intros k. rewrite list_lookup_fmap.
  destruct (decide (k < n)) as [Hk|Hk].
  - rewrite lookup_seq_lt, lookup_take_lt, lookup_drop by done. cbn.
    destruct (lookup_lt_is_Some_2 I (i + k)) as [y Hy]; [lia|].
    by rewrite (nth_lookup_Some _ _ _ _ Hy), Hy.
  - by rewrite lookup_seq_ge, lookup_take_ge by lia.
Qed.

(** The axes [_get_axes_tuple] gives the space at the position [k]: as
    many as its shape has, after those of the spaces before it. *)
Lemma axes_lookup dom (i k : nat) (sp : Space) :
  dom !! k = Some sp →
  _get_axes_tuple i dom !! k
  = Some (seq (i + length (concat (shape <$> take k dom))) (length (shape sp))).
Proof.
  revert i k. induction dom as [|sp0 dom IH]; intros i k Hk; [done|].
  destruct k as [|k]; cbn in Hk |- *.
  - injection Hk as ->. by rewrite Nat.add_0_r.
  - rewrite (IH _ _ Hk), length_app. do 2 f_equal. lia.
Qed.

Lemma R_pow_1 (v : R) : R_pow v 1 = v.
Proof.
  unfold R_pow.
  assert (Hi : Int_part 1 = 1%Z) by (symmetry; apply Int_part_spec; lra).
  rewrite Hi, decide_True by done. apply powerRZ_1.
Qed.

(** The loop of [weight] multiplies each entry by the volumes, to the
    power, of the spaces it weights. *)
Lemma weight_loop_entry (spaces : list nat) (power : R) (axs : list (list nat))
    (ind off : nat) dom a :
  (∀ k sp, dom !! k = Some sp →
     axs !! (ind + k)
     = Some (seq (off + length (concat (shape <$> take k dom))) (length (shape sp)))) →
  ∃ b, weight_loop spaces power axs ind dom a = Ok b ∧
       arr_shape b = arr_shape a ∧
       ∀ I, off + length (concat (shape <$> dom)) ≤ length I →
            entry b I
            = Cmul (entry a I) (RtoC (weight_factor spaces power ind dom (drop off I))).
Proof.
  revert ind off a. induction dom as [|sp dom IH]; intros ind off a Hax.
  - eexists. split; [done|]. split; [done|]. intros I _. cbn. by rewrite Cmul_one.
  - pose proof (Hax 0 sp eq_refl) as H0. cbn in H0. rewrite !Nat.add_0_r in H0.
    assert (Hrest : ∀ k sp', dom !! k = Some sp' →
              axs !! (S ind + k)
              = Some (seq (off + length (shape sp) + length (concat (shape <$> take k dom)))
                        (length (shape sp')))).
    { intros k sp' Hk. replace (S ind + k) with (ind + S k) by lia.
      rewrite (Hax (S k) sp' Hk). cbn. rewrite length_app. do 2 f_equal. lia. }
    cbn [weight_loop weight_factor]. case_bool_decide.
    + rewrite H0. cbn [mbind result_bind].
      destruct (IH (S ind) (off + length (shape sp))
                  (Space_weight sp a power (seq off (length (shape sp)))) Hrest)
        as (b & Hb & Hs & He).
      exists b. split; [done|]. split; [by rewrite Hs|]. intros I HI.
      cbn in HI. rewrite length_app in HI.
      rewrite He by lia. cbn [entry Space_weight].
      rewrite read_axes by lia. unfold own_index, other_index. rewrite drop_drop.
      by rewrite <- Cmul_assoc, Cmul_real.
    + cbn [mbind result_bind].
      destruct (IH (S ind) (off + length (shape sp)) a Hrest) as (b & Hb & Hs & He).
      exists b. split; [done|]. split; [done|]. intros I HI.
      cbn in HI. rewrite length_app in HI.
      rewrite He by lia. unfold other_index. by rewrite drop_drop, Rmult_1_l.
Qed.

(** [weight] returns a Field of the same domain and shape, each entry
    multiplied by its factor. *)
Lemma weight_entry self (power : R) (spaces : option (list nat)) :
  ∃ y, weight self power spaces = Ok y ∧
       domain y = domain self ∧
       arr_shape (val y) = arr_shape (val self) ∧
       ∀ I, length (concat (shape <$> domain self)) ≤ length I →
            entry (val y) I
            = Cmul (entry (val self) I)
                (RtoC (weight_factor (default (seq 0 (length (domain self))) spaces)
                         power 0 (domain self) I)).
Proof.
  unfold weight.
  destruct (weight_loop_entry (default (seq 0 (length (domain self))) spaces) power
              (domain_axes self) 0 0 (domain self) (val self)) as (b & Hb & Hs & He).
  { intros k sp Hk. by apply axes_lookup. }
  exists {| domain := domain self; val := b |}. split.
  - destruct spaces;
      change (default _ _) with (seq 0 (length (domain self))) in Hb ||
      change (default _ (Some ?l)) with l in Hb;
      by rewrite Hb.
  - split; [done|]. split; [done|]. intros I HI. cbn [val]. by rewrite (He I HI), drop_0.
Qed.

(** Over all spaces and with the power 1 the factor is the volume of the
    cell. *)
Lemma weight_factor_all (spaces : list nat) (ind : nat) dom I :
  (∀ k, k < length dom → ind + k ∈ spaces) →
  weight_factor spaces 1 ind dom I = volume dom I.
Proof.
  revert ind I. induction dom as [|sp dom IH]; intros ind I Hin; [done|].
  cbn [weight_factor volume]. rewrite bool_decide_eq_true_2.
  2:{ replace ind with (ind + 0) by lia. apply Hin. cbn. lia. }
  rewrite R_pow_1, IH; [done|].
  intros k Hk. replace (S ind + k) with (ind + S k) by lia. apply Hin. cbn. lia.
Qed.

Lemma weight_all self :
  field_ok self →
  ∃ y, weight self 1 None = Ok y ∧
       domain y = domain self ∧
       arr_shape (val y) = arr_shape (val self) ∧
       ∀ I, I ∈ indices (arr_shape (val self)) →
            entry (val y) I = Cmul (entry (val self) I) (RtoC (volume (domain self) I)).
Proof.
  intros Hok. destruct (weight_entry self 1 None) as (y & Hy & Hd & Hs & He).
  exists y. split; [done|]. split; [done|]. split; [done|]. intros I HI.
  apply indices_length in HI. rewrite Hok in HI.
  rewrite He by lia. cbn [default]. rewrite weight_factor_all; [done|].
  intros k Hk. apply elem_of_seq. lia.
Qed.

Lemma dot_bare self x :
  dot self (Some x) true
  = Ok (weighted_product (arr_shape (val x)) (λ _, 1%R) (entry (val x)) (entry (val self))).
Proof.
  unfold dot, arr_sum, weighted_product. cbn. do 2 f_equal.
  apply list_fmap_ext. intros _ I _. cbn. by rewrite Cmul_one.
Qed.

Lemma dot_weighted self x :
  field_ok self → arr_shape (val x) = arr_shape (val self) →
  dot self (Some x) false
  = Ok (weighted_product (arr_shape (val x)) (volume (domain self))
          (entry (val x)) (entry (val self))).
Proof.
  intros Hok Hs. destruct (weight_all self Hok) as (y & Hy & _ & _ & He).
  unfold dot. rewrite Hy. cbn [mbind result_bind].
  unfold arr_sum, weighted_product. cbn [arr_mul arr_conjugate arr_shape entry].
  do 2 f_equal. apply list_fmap_ext. intros k I HI. cbn.
  rewrite He; [done|]. rewrite <- Hs. by eapply list_elem_of_lookup_2.
Qed.

End nifty.

Section nifty5.

Context {Domain : Type}.
#[local] Abbreviation Field := (@Fields.Field Domain complex).

Lemma vdot_lists_conj (l k : list complex) :
  Cconj (foldr Cadd (RtoC 0) (zip_with (λ x y, Cmul (Cconj x) y) l k))
  = foldr Cadd (RtoC 0) (zip_with (λ x y, Cmul (Cconj x) y) k l).
Proof.
  revert k. induction l as [|a l IH]; intros [|b k]; cbn; try apply Cconj_real.
  rewrite Cconj_add, IH, Cconj_mul, Cconj_conj. f_equal. apply Cmul_comm.
Qed.

Lemma vdot_value (a b : Field) :
  Fields._domain b = Fields._domain a →
  Fields.vdot a (Fields.OField b)
  = Ok (foldr Cadd (RtoC 0)
          (zip_with (λ x y, Cmul (Cconj x) y) (Fields.entries a) (Fields.entries b))).
Proof.
  intros Hd. unfold Fields.vdot. rewrite Hd, FieldFacts.is_refl. reflexivity.
Qed.

End nifty5.

(** C9. [Field.dot] sums the pointwise product of the conjugate of [x]
    and of [self]; with [bare=True] nothing is weighted, with [bare=False]
    [self], the left operand, is first weighted with the volume element
    (power 1) of every sub-domain: each entry is multiplied by the volume of
    its cell, which is the product of the volumes of the cells of the
    spaces, each read at its own part of the multi-index.  The [vdot] of
    nifty5 has no [bare] and weights nothing: it sums the product of the
    conjugate of [self] and of [x].  On two Fields of one domain each of
    them is conjugate-symmetric: exchanging the operands conjugates the
    result. *)
Theorem inner_product_is_conjugate_symmetric {Domain : Type}
    (self x : Nifty3.Field) (a b : @Fields.Field Domain complex) :
  Nifty3.field_ok self → Nifty3.field_ok x →
  Nifty3.domain x = Nifty3.domain self →
  Fields._domain b = Fields._domain a →
  let shape := Nifty3.arr_shape (Nifty3.val self) in
  let vol := Nifty3.volume (Nifty3.domain self) in
  Nifty3.dot self (Some x) true
  = Ok (Nifty3.weighted_product shape (λ _, 1%R)
          (Nifty3.entry (Nifty3.val x)) (Nifty3.entry (Nifty3.val self))) ∧
  Nifty3.dot self (Some x) false
  = Ok (Nifty3.weighted_product shape vol
          (Nifty3.entry (Nifty3.val x)) (Nifty3.entry (Nifty3.val self))) ∧
  (∃ y, Nifty3.weight self 1 None = Ok y ∧
        (∀ I, I ∈ Nifty3.indices shape →
              Nifty3.entry (Nifty3.val y) I
              = Cmul (Nifty3.entry (Nifty3.val self) I) (RtoC (vol I))) ∧
        Nifty3.dot self (Some x) false = Nifty3.dot y (Some x) true) ∧
  (∀ bare, Nifty3.dot x (Some self) bare = Cconj <$> Nifty3.dot self (Some x) bare) ∧
  (∃ c, Fields.vdot a (Fields.OField b) = Ok c ∧
        c = foldr Cadd (RtoC 0)
              (zip_with (λ y z, Cmul (Cconj y) z) (Fields.entries a) (Fields.entries b)) ∧
        Fields.vdot b (Fields.OField a) = Ok (Cconj c)).
Proof.
  intros Hok Hokx Hd Hdab shape vol.
  assert (Hs : Nifty3.arr_shape (Nifty3.val x) = Nifty3.arr_shape (Nifty3.val self)).
  { unfold Nifty3.field_ok in Hok, Hokx. by rewrite Hok, Hokx, Hd. }
  split; [|split; [|split; [|split]]].
  - rewrite dot_bare. by rewrite Hs.
  - rewrite dot_weighted by done. by rewrite Hs.
  - destruct (weight_all self Hok) as (y & Hy & _ & _ & He).
    exists y. split; [done|]. split; [done|].
    unfold Nifty3.dot. by rewrite Hy.
  - intros [|].
    + rewrite !dot_bare. cbn. by rewrite weighted_product_conj, Hs.
    + rewrite !dot_weighted by done. cbn. by rewrite weighted_product_conj, Hs, Hd.
  - eexists. split; [by apply vdot_value|]. split; [done|].
    rewrite vdot_value by done. by rewrite vdot_lists_conj.
Qed.

End InnerProductFacts.

(** ** The statements on the sample objects *)

Module Instances.
Import Samples.

Lemma sample_field_ok {K : Type} (dom : @DomainTuples.DomainTuple nat) (a b : K) :
  DomainTuples._shape dom = [2] → Fields.field_ok (field dom a b).
Proof. intros Hs. split; cbn; [done|done|discriminate]. Qed.

Lemma only_a_ok : MultiFields.multi_field_ok only_a.
Proof.
  split; [done|]. cbn. repeat constructor. by apply sample_field_ok.
Qed.


(** [make] on the description of two pixels, twice in different forms,
    and on another description; a description with something that is no
    [Domain] in it. *)
Example make_same_object :
  let st := snd (DomainTuples.make (λ n, [n]) (inr (DomainTuples.DDomain 2)) DomainTuples.initial) in
  fst (DomainTuples.make (λ n, [n]) (inr (DomainTuples.DIter [DomainTuples.PyDomain 2])) st)
  = Ok (pixels 2 0).
Proof. vm_compute. reflexivity. Qed.

Example make_other_object :
  let st := snd (DomainTuples.make (λ n, [n]) (inr (DomainTuples.DDomain 2)) DomainTuples.initial) in
  fst (DomainTuples.make (λ n, [n]) (inr (DomainTuples.DDomain 3)) st) = Ok (pixels 3 1) ∧
  DomainTuples.__eq__ (pixels 2 0) (pixels 3 1) = false.
Proof. vm_compute. split; reflexivity. Qed.

Example make_not_a_domain :
  DomainTuples.make (λ n, [n])
    (inr (DomainTuples.DIter [DomainTuples.PyDomain 2; DomainTuples.PyOther]))
    DomainTuples.initial
  = (Raise (TypeError "Given object contains something that is not an instance of Domain class."),
     DomainTuples.initial).
Proof. reflexivity. Qed.

(** Adding two Fields whose domains are two objects, of the same shape
    though. *)
Example add_on_two_domain_objects :
  Fields.__add__ (field two_pixels 1%R 2%R) (Fields.OField (field stray_pixels 3%R 4%R))
  = Raise (ValueError "domains are incompatible.").
Proof. reflexivity. Qed.

(** A scaling cannot be built from something that is no scalar. *)
Example scaling_needs_a_scalar :
  Operators.ScalingOperator__init__ (K := R) None (Operators.DomTuple two_pixels)
  = Raise (TypeError "Scalar required").
Proof. reflexivity. Qed.

(** The scaling by one does not accept a mode that is no mode, nor a
    Field on another domain. *)
Example scaling_checks_its_argument :
  Operators.apply scalar_domain
    (Operators.ScalingOperator 1%R (Operators.DomTuple two_pixels) Operators._all_ops)
    (Operators.VField (field two_pixels 1%R 2%R)) 3
  = Raise (NotImplementedError "invalid operator mode specified") ∧
  Operators.apply scalar_domain
    (Operators.ScalingOperator 1%R (Operators.DomTuple two_pixels) Operators._all_ops)
    (Operators.VField (field stray_pixels 1%R 2%R)) Operators.TIMES
  = Raise (ValueError "domain mismatch").
Proof. split; reflexivity. Qed.

(** Dividing two Fields on the same two pixels. *)
Lemma binary_operator_domains_witness :
  is_Ok (Fields.getattr Fields.truediv_ (field two_pixels 1%R 2%R)
           (Fields.OField (field two_pixels 3%R 4%R))) ↔ 0 = 0.
Proof.
  apply (FieldFacts.binary_operator_domains Fields.truediv_
           (field two_pixels 1%R 2%R) (field two_pixels 3%R 4%R)).
  - by apply sample_field_ok.
  - by apply sample_field_ok.
  - reflexivity.
Defined.


(** [tanh] of the variable at the Field (1, 2). *)
Lemma elementary_chain_rule_witness :
  Linearizations.chain_rule scalar_domain Linearizations.Tanh
    (Linearizations.Linearization_ (Operators.VField (field two_pixels 1%R 2%R))
       (Operators.ScalingOperator 1%R (Operators.DomTuple two_pixels) Operators._all_ops))
    (field two_pixels 1%R 2%R).
Proof.
  apply (LinearizationFacts.elementary_chain_rule scalar_domain Linearizations.Tanh).
  - reflexivity.
  - by apply sample_field_ok.
Defined.

(** [exp(log(.))] at the Field (1, 2). *)
Lemma exp_log_jacobian_is_identity_witness :
  ∃ L, (l0 ← Linearizations.make_var (Operators.VField (field two_pixels 1%R 2%R));
        l1 ← Linearizations.log l0; Linearizations.exp l1) = Ok L ∧
    ∀ t, Fields.field_ok t → Fields._domain t = two_pixels →
      ∃ r, Operators.apply scalar_domain (Linearizations._jac L) (Operators.VField t)
             Operators.TIMES = Ok (Operators.VField r) ∧
           Fields._domain r = Fields._domain t ∧ Fields.entries r = Fields.entries t.
Proof.
  destruct (LinearizationFacts.exp_log_jacobian_is_identity scalar_domain
              (field two_pixels 1%R 2%R)) as (L & e & d & HL & _ & _ & _ & _ & _ & Hid).
  - by apply sample_field_ok.
  - cbn. repeat constructor; lra.
  - exists L. split; [exact HL|exact Hid].
Defined.

(** The scaling by zero and by one, applied in the inverse mode. *)
Lemma scaling_zero_and_one_witness :
  Operators.apply scalar_domain
    (Operators.ScalingOperator 0%R (Operators.DomTuple two_pixels) Operators._all_ops)
    (Operators.VField (field two_pixels 1%R 2%R)) Operators.INVERSE_TIMES
  = Ok (Operators.zero_value (Operators.DomTuple two_pixels)) ∧
  Operators.apply scalar_domain
    (Operators.ScalingOperator 1%R (Operators.DomTuple two_pixels) Operators._all_ops)
    (Operators.VField (field two_pixels 1%R 2%R)) Operators.INVERSE_TIMES
  = Ok (Operators.VField (field two_pixels 1%R 2%R)).
Proof.
  destruct (OperatorFacts.scaling_zero_and_one (K := R) scalar_domain
              (Operators.DomTuple two_pixels) (Operators.VField (field two_pixels 1%R 2%R))
              Operators.INVERSE_TIMES I) as (_ & _ & Hboth).
  apply Hboth; reflexivity.
Defined.

(** The Poisson energy of the prediction (1, 2) for the data (3, 0). *)
Lemma poisson_energy_is_unguarded_witness :
  Energies.PoissonianEnergy_apply scalar_domain Ok
    (Operators.VField (field two_pixels (Fin 3) (Fin 0)))
    (Energies.IValue (Operators.VField (field two_pixels (Fin 1) (Fin 2))))
  = Ok (Energies.RScalar
          (Energies.poisson_formula [Fin 1; Fin 2] [Fin 3; Fin 0])).
Proof.
  apply (EnergyFacts.poisson_energy_is_unguarded scalar_domain Ok
           (Energies.IValue (Operators.VField (field two_pixels (Fin 1) (Fin 2))))
           (field two_pixels (Fin 1) (Fin 2)) (field two_pixels (Fin 3) (Fin 0))).
  - by apply sample_field_ok.
  - reflexivity.
  - reflexivity.
Defined.

(** A prediction with a zero entry, and one with a negative entry: the
    energy comes back as [inf] and as [nan], and nothing is raised. *)
Lemma poisson_nonpositive_is_silent :
  Energies.PoissonianEnergy_apply scalar_domain Ok
    (Operators.VField (field two_pixels (Fin 1) (Fin 1)))
    (Energies.IValue (Operators.VField (field two_pixels (Fin 0) (Fin 1))))
  = Ok (Energies.RScalar PInf) ∧
  Energies.PoissonianEnergy_apply scalar_domain Ok
    (Operators.VField (field two_pixels (Fin 1) (Fin 1)))
    (Energies.IValue (Operators.VField (field two_pixels (Fin (-1)) (Fin 1))))
  = Ok (Energies.RScalar NaN) ∧
  Energies.energy_operators_PoissonianEnergy_apply scalar_domain
    (field two_pixels (Fin 1) (Fin 1)) (Operators.VField (field two_pixels (Fin 0) (Fin 1)))
  = Ok (Fields.constant scalar_domain PInf).
Proof.
  assert (Hzero : Energies.poisson_formula [Fin 0; Fin 1] [Fin 1; Fin 1] = PInf).
  { unfold Energies.poisson_formula.
    repeat (progress (cbn; unfold f64_signed_inf) || (case_decide; try lra)); reflexivity. }
  assert (Hneg : Energies.poisson_formula [Fin (-1); Fin 1] [Fin 1; Fin 1] = NaN).
  { unfold Energies.poisson_formula.
    repeat (progress (cbn; unfold f64_signed_inf) || (case_decide; try lra)); reflexivity. }
  unfold Energies.PoissonianEnergy_apply, Energies.energy_operators_PoissonianEnergy_apply.
  cbn [mbind result_bind].
  rewrite !EnergyFacts.res_value_formula by (try reflexivity; by apply sample_field_ok).
  cbn [Fields.entries Fields.arr_data Fields._val field]. rewrite Hzero, Hneg.
  split; [done|]. split; [done|]. reflexivity.
Qed.

(** One step of the conjugate gradient on [stretch]: from the origin to
    [(2/3, 2/3)], where the residual is [(1/3, -1/3)] and the budget of
    one iteration is spent. *)
Lemma stretch_matvec (u v : R) :
  Minimizers.mymatvec scalar_domain stretch [u; v] = Ok [(u * 1)%R; (v * 2)%R].
Proof.
  unfold Minimizers.mymatvec, stretch.
  cbn [Operators.op_domain Operators.domain_of_value field Fields._domain].
  rewrite MinimizerFacts.toField_ok by reflexivity. cbn [mbind result_bind].
  vm_compute. reflexivity.
Qed.

Lemma norm_ones : Scipy.norm [1%R; 1%R] = R_sqrt.sqrt 2.
Proof. unfold Scipy.norm, Scipy.dot. cbn. f_equal. lra. Qed.

Lemma cg_one_step :
  Scipy.cg (Minimizers.mymatvec scalar_domain stretch) [1%R; 1%R] [0%R; 0%R]
    (1 / 100000)%R None 1
  = Ok ([(2 / 3)%R; (2 / 3)%R], 1%Z).
Proof.
  assert (Hs : (0 < R_sqrt.sqrt 2)%R) by (apply sqrt_lt_R0; lra).
  unfold Scipy.cg. rewrite norm_ones.
  rewrite bool_decide_eq_false_2 by lra.
  unfold Scipy.any. cbn [existsb].
  rewrite bool_decide_eq_true_2 by done. cbn [negb orb mbind result_bind].
  unfold Scipy.cg_loop. rewrite norm_ones.
  rewrite bool_decide_eq_false_2.
  2:{ unfold Rmax. destruct (Rle_dec _ _); lra. }
  cbn [default mbind result_bind]. rewrite stretch_matvec. cbn [mbind result_bind].
  unfold Scipy.dot. cbn. do 2 f_equal. f_equal; [|f_equal]; field.
Qed.

(** A conjugate gradient run on two pixels with a budget of one
    iteration, and an L-BFGS-B run that gives up. *)
Lemma scipy_minimizers_return_witness :
  (∃ f st,
     Minimizers.ScipyCG__call__ scalar_domain Scipy.cg one_step energy1 None
     = Ok (Minimizers.at_ energy1 f, st) ∧
     Fields.entries (Minimizers.position (Minimizers.at_ energy1 f))
     = [(2 / 3)%R; (2 / 3)%R] ∧
     st = (if (1 >=? 0)%Z then Minimizers.CONVERGED else Minimizers.ERROR) ∧
     (st = Minimizers.CONVERGED ∨ st = Minimizers.ERROR) ∧
     ((0 < 1)%Z → st = Minimizers.CONVERGED)) ∧
  (∃ st,
     Minimizers.ScipyMinimizer__call__ minimize_gives_up
       {| Minimizers._method := "L-BFGS-B"; Minimizers._need_hessp := false;
          Minimizers._bounds := None |} energy0
     = Ok (energy0, st) ∧
     st = (if false then Minimizers.CONVERGED else Minimizers.ERROR) ∧
     (st = Minimizers.CONVERGED ∨ st = Minimizers.ERROR) ∧
     (false = false → st = Minimizers.ERROR)).
Proof.
  exact (MinimizerFacts.scipy_minimizers_return scalar_domain Scipy.cg one_step energy1 None
           stretch (field two_pixels 1%R 1%R) two_pixels [(2 / 3)%R; (2 / 3)%R] 1%Z
           minimize_gives_up
           {| Minimizers._method := "L-BFGS-B"; Minimizers._need_hessp := false;
              Minimizers._bounds := None |} energy0 None
           {| Minimizers.success := false;
              Minimizers.message := "Maximum number of iterations has been exceeded." |}
           energy0 eq_refl eq_refl cg_one_step eq_refl eq_refl eq_refl).
Defined.

(** The system [A x = b] with [A = diag(1, 2)] and [b = (1, 1)], started at
    the origin with [tol = 1e-5] and a budget of one iteration.  The one
    step of scipy's [cg] goes to [(2/3, 2/3)], where [A x = (2/3, 4/3)] and
    the residual [(1/3, -1/3)] is far from the tolerance: the budget ran
    out, [info] is 1.  [ScipyCG] returns the energy at this iterate with
    [CONVERGED], not with a status of its own. *)
Lemma scipy_cg_out_of_budget_is_converged :
  Scipy.cg (Minimizers.mymatvec scalar_domain stretch) [1%R; 1%R] [0%R; 0%R]
    (1 / 100000)%R None 1
  = Ok ([(2 / 3)%R; (2 / 3)%R], 1%Z) ∧
  Minimizers.mymatvec scalar_domain stretch [(2 / 3)%R; (2 / 3)%R]
  = Ok [(2 / 3 * 1)%R; (2 / 3 * 2)%R] ∧
  ¬ (Scipy.norm (zip_with Rminus [1%R; 1%R] [(2 / 3 * 1)%R; (2 / 3 * 2)%R])
     < 1 / 100000 * Scipy.norm [1%R; 1%R])%R ∧
  ∃ f,
    Fields.entries f = [(2 / 3)%R; (2 / 3)%R] ∧
    Minimizers.ScipyCG__call__ scalar_domain Scipy.cg one_step energy1 None
    = Ok (Minimizers.at_ energy1 f, Minimizers.CONVERGED) ∧
    ¬ Minimizers.reports_NonConvergence Minimizers.CONVERGED.
Proof.
  split; [exact cg_one_step|]. split; [apply stretch_matvec|]. split.
  - assert (Hr : Scipy.norm (zip_with Rminus [1%R; 1%R] [(2 / 3 * 1)%R; (2 / 3 * 2)%R])
                 = (R_sqrt.sqrt 2 / 3)%R).
    { unfold Scipy.norm, Scipy.dot. cbn.
      replace (R_sqrt.sqrt 2 / 3)%R with (R_sqrt.sqrt 2 / R_sqrt.sqrt 9)%R.
      - rewrite <- sqrt_div_alt by lra. f_equal. field.
      - f_equal. replace 9%R with (3 * 3)%R by lra. apply sqrt_square. lra. }
    rewrite Hr, norm_ones.
    assert (Hs : (0 < R_sqrt.sqrt 2)%R) by (apply sqrt_lt_R0; lra). lra.
  - destruct (MinimizerFacts.ScipyCG_returns scalar_domain Scipy.cg one_step energy1 None
                stretch (field two_pixels 1%R 1%R) two_pixels [(2 / 3)%R; (2 / 3)%R] 1%Z
                eq_refl eq_refl cg_one_step eq_refl)
      as (f & _ & Hf & _ & Hcall).
    exists f. split; [exact Hf|]. split; [exact Hcall|]. by intros [Hne _].
Qed.

(** Two complex Fields on the grid whose rows have cells of the volumes 1
    and 3/2: the weighted product is [(8, 2)] where the bare one is
    [(6, 2)], and the entry [(2, 0)] of the second row is weighted to
    [(3, 0)]. *)
Lemma grid_field_ok (z00 z01 z10 z11 : complex) : Nifty3.field_ok (grid_field z00 z01 z10 z11).
Proof. reflexivity. Qed.

Lemma inner_product_is_conjugate_symmetric_witness :
  Nifty3.dot grid_a (Some grid_b) true = Ok (6, 2)%R ∧
  Nifty3.dot grid_a (Some grid_b) false = Ok (8, 2)%R ∧
  (∃ y, Nifty3.weight grid_a 1 None = Ok y ∧
        Nifty3.entry (Nifty3.val y) [0; 1] = (0, 1)%R ∧
        Nifty3.entry (Nifty3.val y) [1; 0] = (3, 0)%R ∧
        Nifty3.dot grid_a (Some grid_b) false = Nifty3.dot y (Some grid_b) true) ∧
  Nifty3.dot grid_b (Some grid_a) true = Ok (6, -2)%R ∧
  Nifty3.dot grid_b (Some grid_a) false = Ok (8, -2)%R ∧
  Fields.vdot (field two_pixels (1, 2)%R (0, 1)%R)
    (Fields.OField (field two_pixels (3, -1)%R (2, 2)%R)) = Ok (3, -9)%R ∧
  Fields.vdot (field two_pixels (3, -1)%R (2, 2)%R)
    (Fields.OField (field two_pixels (1, 2)%R (0, 1)%R)) = Ok (3, 9)%R.
Proof.
  destruct (InnerProductFacts.inner_product_is_conjugate_symmetric grid_a grid_b
              (field two_pixels (1, 2)%R (0, 1)%R) (field two_pixels (3, -1)%R (2, 2)%R)
              (grid_field_ok _ _ _ _) (grid_field_ok _ _ _ _) eq_refl eq_refl)
    as (Hbare & Hw & (y & Hy & He & Hyx) & Hsym & (c & Hc & Hcv & Hcc)).
  assert (Hb : Nifty3.dot grid_a (Some grid_b) true = Ok (6, 2)%R).
  { rewrite Hbare. unfold Nifty3.weighted_product, Cadd, Cmul, Cconj, RtoC. cbn.
    do 2 f_equal; lra. }
  assert (Hf : Nifty3.dot grid_a (Some grid_b) false = Ok (8, 2)%R).
  { rewrite Hw. unfold Nifty3.weighted_product, Cadd, Cmul, Cconj, RtoC. cbn.
    do 2 f_equal; lra. }
  assert (Hcval : c = (3, -9)%R).
  { rewrite Hcv. unfold Cadd, Cmul, Cconj, RtoC. cbn. f_equal; lra. }
  split; [exact Hb|]. split; [exact Hf|]. split.
  { exists y. split; [exact Hy|]. split.
    - rewrite (He [0; 1]) by (cbn; set_solver).
      unfold Cmul, RtoC. cbn. f_equal; lra.
    - split; [|exact Hyx]. rewrite (He [1; 0]) by (cbn; set_solver).
      unfold Cmul, RtoC. cbn. f_equal; lra. }
  split.
  { rewrite (Hsym true), Hb. unfold Cconj. cbn. do 2 f_equal. }
  split.
  { rewrite (Hsym false), Hf. unfold Cconj. cbn. do 2 f_equal. }
  split; [etrans; [exact Hc|by rewrite Hcval]|].
  etrans; [exact Hcc|]. rewrite Hcval. unfold Cconj. cbn. do 2 f_equal. lra.
Defined.

End Instances.

(** * Further properties *)

(** ** [DomainTuple]: axes, sizes and the bookkeeping of the cache *)

Module DomainTupleMore.
Import DomainTuples.
#[local] Set Warnings "-clear-no-such-hyp".
Section facts.

Context {Domain : Type} `{Countable Domain}.
Variable shape : Domain → list nat.

#[local] Abbreviation state := (@DomainTuples.state Domain _ _).
#[local] Abbreviation class_state := (@DomainTuples.class_state Domain _ _).

Lemma foldl_app_concat (l : list (list nat)) (acc : list nat) :
  foldl (λ x y, x ++ y) acc l = acc ++ concat l.
Proof.
  revert acc. induction l as [|x l IH]; intros acc; cbn.
  - by rewrite app_nil_r.
  - by rewrite IH, app_assoc.
Qed.

Lemma foldl_mul_prod (l : list nat) (acc : nat) :
  foldl Nat.mul acc l = acc * prod_shape l.
Proof.
  revert acc. induction l as [|x l IH]; intros acc.
  - change (acc = acc * 1). lia.
  - change (foldl Nat.mul (acc * x) l = acc * (x * prod_shape l)).
    rewrite IH. lia.
Qed.

Lemma prod_shape_app (l k : list nat) :
  prod_shape (l ++ k) = prod_shape l * prod_shape k.
Proof.
  induction l as [|x l IH].
  - change (prod_shape k = 1 * prod_shape k). lia.
  - change (x * prod_shape (l ++ k) = x * prod_shape l * prod_shape k).
    rewrite IH. lia.
Qed.

Lemma prod_shape_concat (l : list (list nat)) :
  prod_shape (concat l) = prod_shape (prod_shape <$> l).
Proof. induction l as [|x l IH]; [done|]. cbn. by rewrite prod_shape_app, IH. Qed.

Lemma axes_from_spec (i : nat) (dom : list Domain) :
  length (_get_axes_tuple_from shape i dom) = length dom ∧
  concat (_get_axes_tuple_from shape i dom) = seq i (length (concat (shape <$> dom))) ∧
  Forall2 (λ ax d, length ax = length (shape d)) (_get_axes_tuple_from shape i dom) dom.
Proof.
  revert i. induction dom as [|d dom IH]; intros i; [done|].
  destruct (IH (i + length (shape d))) as (Hl & Hc & Hf). cbn.
  split; [by rewrite Hl|]. split.
  - rewrite Hc, length_app. by rewrite seq_app.
  - constructor; [by rewrite length_seq|done].
Qed.

(** What the constructor computes. *)
Lemma init_spec (a : nat) (domain : list Domain) (obj : DomainTuple) :
  __init__ shape a domain true = Ok obj →
  addr obj = a ∧ _dom obj = domain ∧
  _shape obj = concat (shape <$> domain) ∧
  _size obj = prod_shape (concat (shape <$> domain)) ∧
  _axtuple obj = _get_axes_tuple shape domain.
Proof.
  cbn. intros [= <-]. cbn. rewrite foldl_app_concat, foldl_mul_prod.
  repeat split. cbn [app]. lia.
Qed.

Lemma cache_built_make d (st : state) :
  cache_built shape st → cache_built shape (snd (make shape (inr d) st)).
Proof.
  intros Hb. unfold make.
  destruct (_parse_domain d) as [k|e]; [|done].
  destruct (_tupleCache st !! k) as [obj|] eqn:Hc; [done|].
  intros k' obj'. cbn. rewrite lookup_insert. case_decide; [|apply Hb].
  intros [= <-]. by subst.
Qed.

Lemma cache_built_run calls (st : state) :
  cache_built shape st → cache_built shape (run shape calls st).
Proof.
  revert st. induction calls as [|d calls IH]; intros st Hst; [done|].
  cbn. apply IH. by apply cache_built_make.
Qed.

Lemma made_is_built calls d obj :
  fst (make shape (inr d) (run shape calls initial)) = Ok obj →
  ∃ k, _parse_domain d = Ok k ∧ __init__ shape (addr obj) k true = Ok obj.
Proof.
  intros Hm. destruct (DomainTupleFacts.make_cached shape _ _ _ Hm) as (k & Hp & Hc).
  exists k. split; [done|].
  assert (Hb : cache_built shape (snd (make shape (inr d) (run shape calls initial)))).
  { apply cache_built_make, cache_built_run. intros k' obj'. cbn.
    rewrite lookup_empty. discriminate. }
  by apply Hb.
Qed.

(** X1. The axes of a [DomainTuple] that [make] returned split the axes
    of its array among its domains, in order: there is one group of axes
    per domain, with as many axes as the shape of that domain has, and
    together the groups are [0, 1, ..., len(shape) - 1]. *)
Theorem axes_partition calls d obj :
  fst (make shape (inr d) (run shape calls initial)) = Ok obj →
  length (_axtuple obj) = __len__ obj ∧
  Forall2 (λ ax sp, length ax = length (shape sp)) (_axtuple obj) (_dom obj) ∧
  concat (_axtuple obj) = seq 0 (length (_shape obj)).
Proof.
  intros Hm. destruct (made_is_built _ _ _ Hm) as (k & _ & Hi).
  destruct (init_spec _ _ _ Hi) as (_ & Hd & Hs & _ & Ha).
  destruct (axes_from_spec 0 k) as (Hl & Hc & Hf).
  unfold __len__. rewrite Ha, Hd, Hs. by unfold _get_axes_tuple.
Qed.

(** X2. The shape of a [DomainTuple] that [make] returned is the shapes of
    its domains one after the other, and its size is the product of the
    numbers of pixels of its domains. *)
Theorem size_is_product calls d obj :
  fst (make shape (inr d) (run shape calls initial)) = Ok obj →
  _shape obj = concat (shape <$> _dom obj) ∧
  _size obj = prod_shape (_shape obj) ∧
  _size obj = prod_shape ((λ sp, prod_shape (shape sp)) <$> _dom obj).
Proof.
  intros Hm. destruct (made_is_built _ _ _ Hm) as (k & _ & Hi).
  destruct (init_spec _ _ _ Hi) as (_ & Hd & Hs & Hz & _).
  rewrite Hd, Hs, Hz. repeat split.
  rewrite prod_shape_concat. by rewrite <- list_fmap_compose.
Qed.

Lemma make_bookkeeping d (st : state) :
  next_addr st = size (_tupleCache st) →
  next_addr (snd (make shape (inr d) st)) = size (_tupleCache (snd (make shape (inr d) st))) ∧
  dom (_tupleCache (snd (make shape (inr d) st))) =
    dom (_tupleCache st) ∪ list_to_set (requested [d]).
Proof.
  intros Hn. unfold make, requested. cbn [omap list_omap].
  destruct (_parse_domain d) as [k|e]; cbn.
  - destruct (_tupleCache st !! k) as [obj|] eqn:Hc; cbn.
    + split; [done|]. apply elem_of_dom_2 in Hc. set_solver.
    + split.
      * rewrite map_size_insert_None; [lia|done].
      * rewrite dom_insert_L. set_solver.
  - split; [done|]. set_solver.
Qed.

Lemma run_bookkeeping calls (st : state) :
  next_addr st = size (_tupleCache st) →
  next_addr (run shape calls st) = size (_tupleCache (run shape calls st)) ∧
  dom (_tupleCache (run shape calls st)) =
    dom (_tupleCache st) ∪ list_to_set (requested calls).
Proof.
  revert st. induction calls as [|d calls IH]; intros st Hn.
  - split; [done|]. cbn. set_solver.
  - destruct (make_bookkeeping d st Hn) as [Hn' Hd'].
    destruct (IH _ Hn') as [Hn'' Hd'']. cbn [run foldl].
    split; [done|]. unfold run in Hd''. rewrite Hd'', Hd'.
    unfold requested. cbn [omap list_omap].
    destruct (_parse_domain d); cbn; set_solver.
Qed.

(** X3. After any run that started with the empty cache, the cache holds
    one object for each distinct tuple of domains that was asked for, and
    nothing else; the number of objects that were allocated is the number
    of these tuples.  So a call with a tuple seen before, or with a
    description that is refused, allocates nothing. *)
Theorem one_object_per_tuple calls :
  dom (_tupleCache (run shape calls initial)) = list_to_set (requested calls) ∧
  next_addr (run shape calls initial) =
    size (list_to_set (requested calls) : gset (list Domain)).
Proof.
  destruct (run_bookkeeping calls initial) as [Hn Hd]; [done|].
  cbn in Hd. rewrite dom_empty_L, (left_id_L ∅ (∪)) in Hd.
  split; [done|]. rewrite Hn, <- Hd. by rewrite size_dom.
Qed.

(** X4. Pickling round trip: [__reduce__] of a [DomainTuple] that [make]
    returned, handed to [_unpickleDomainTuple] at any later point of the
    same run, gives back the very same object, and changes nothing. *)
Theorem unpickle_gives_same_object calls later d obj :
  let st := run shape calls initial in
  let st' := run shape later (snd (make shape (inr d) st)) in
  fst (make shape (inr d) st) = Ok obj →
  _unpickleDomainTuple shape (__reduce__ obj) st' = (Ok obj, st').
Proof.
  intros st st' Hm.
  destruct (DomainTupleFacts.make_cached shape _ _ _ Hm) as (k & Hp & Hc).
  pose proof (DomainTupleFacts.cache_ok_make shape d st
                (DomainTupleFacts.cache_ok_run shape calls _ DomainTupleFacts.cache_ok_initial))
    as Hok.
  pose proof (cache_key _ Hok _ _ Hc) as Hk.
  apply (DomainTupleFacts.run_keeps shape later) in Hc. fold st' in Hc.
  unfold _unpickleDomainTuple, __reduce__, make. cbn [_parse_domain].
  assert (Hall : ∀ l : list Domain, all_domains (PyDomain <$> l) = Ok l).
  { induction l as [|x l IH]; [done|]. cbn. by rewrite IH. }
  by rewrite Hall, Hk, Hc.
Qed.

End facts.

Section scalar_domain.

Context {Domain : Type} `{Countable Domain}.
Variable shape : Domain → list nat.

#[local] Abbreviation class_state := (@DomainTuples.class_state Domain _ _).

Lemma class_ok_step (cs : class_state) c : class_ok cs → class_ok (step shape cs c).
Proof.
  intros Hok. destruct c as [d|]; cbn.
  - intros obj Hs. cbn in *. apply DomainTupleFacts.make_keeps. by apply Hok.
  - unfold scalar_domain. destruct (_scalarDomain cs) as [obj|] eqn:Hs; [done|].
    cbn. destruct (_tupleCache (cache cs) !! []) as [obj|] eqn:Hc; cbn.
    + intros ? [= <-]. done.
    + intros ? [= <-]. cbn. by rewrite lookup_insert_eq.
Qed.

Lemma class_ok_run calls (cs : class_state) : class_ok cs → class_ok (run_class shape calls cs).
Proof.
  revert cs. induction calls as [|c calls IH]; intros cs Hok; [done|].
  cbn. apply IH. by apply class_ok_step.
Qed.

Lemma cache_built_step (cs : class_state) c :
  cache_built shape (cache cs) → cache_built shape (cache (step shape cs c)).
Proof.
  intros Hb. destruct c as [d|]; cbn.
  - by apply cache_built_make.
  - unfold scalar_domain. destruct (_scalarDomain cs) as [obj|]; [done|].
    pose proof (cache_built_make shape (DIter []) _ Hb) as Hb'.
    by destruct (make shape (inr (DIter [])) (cache cs)) as [[obj|e] st'].
Qed.

Lemma cache_built_run_class calls (cs : class_state) :
  cache_built shape (cache cs) → cache_built shape (cache (run_class shape calls cs)).
Proof.
  revert cs. induction calls as [|c calls IH]; intros cs Hb; [done|].
  cbn. apply IH. by apply cache_built_step.
Qed.

(** X5. At any point of a run, whatever calls of [make] and
    [scalar_domain] came before, [scalar_domain] returns an object; it is
    the one that [make] gives for the empty tuple and for [None]; it has no
    domains, no axes, the empty shape and size 1; and a second call returns
    the same object and changes nothing. *)
Theorem scalar_domain_is_the_empty_tuple calls :
  let cs := run_class shape calls initial_class in
  ∃ obj,
    fst (scalar_domain shape cs) = Ok obj ∧
    fst (make shape (inr (DIter [])) (cache (snd (scalar_domain shape cs)))) = Ok obj ∧
    fst (make shape (inr DNone) (cache (snd (scalar_domain shape cs)))) = Ok obj ∧
    _dom obj = [] ∧ _axtuple obj = [] ∧ _shape obj = [] ∧ _size obj = 1 ∧
    scalar_domain shape (snd (scalar_domain shape cs)) = (Ok obj, snd (scalar_domain shape cs)).
Proof.
  intros cs.
  assert (Hok : class_ok cs) by (apply class_ok_run; intros ?; discriminate).
  assert (Hb : cache_built shape (cache cs)).
  { apply cache_built_run_class. intros k obj. cbn. rewrite lookup_empty. discriminate. }
  pose proof (class_ok_step cs CallScalarDomain Hok) as Hok'.
  pose proof (cache_built_step cs CallScalarDomain Hb) as Hb'.
  cbn [step] in Hok', Hb'.
  assert (Hs : ∃ obj, fst (scalar_domain shape cs) = Ok obj ∧
                      _scalarDomain (snd (scalar_domain shape cs)) = Some obj).
  { unfold scalar_domain. destruct (_scalarDomain cs) as [obj|] eqn:Hs; [by eexists|].
    cbn. destruct (_tupleCache (cache cs) !! []) as [obj|]; cbn; by eexists. }
  destruct Hs as (obj & Hr & Hs). exists obj.
  pose proof (Hok' _ Hs) as Hc. pose proof (Hb' _ _ Hc) as Hi.
  injection Hi as Hi.
  split; [done|]. unfold make. cbn [_parse_domain all_domains]. rewrite Hc. cbn [fst].
  split; [done|]. split; [done|].
  assert (_dom obj = [] ∧ _axtuple obj = [] ∧ _shape obj = [] ∧ _size obj = 1)
    as (? & ? & ? & ?) by (by rewrite <- Hi).
  repeat (split; [done|]).
  unfold scalar_domain at 1. by rewrite Hs.
Qed.

End scalar_domain.

(** A run over grids given by their shapes: a 4-pixel line is made first,
    then the pair of a 2 x 3 grid and the line. *)
Lemma axes_partition_witness :
  let obj := {| addr := 1; _dom := [[2; 3]; [4]]; _axtuple := [[0; 1]; [2]];
                _shape := [2; 3; 4]; _size := 24 |} in
  length (_axtuple obj) = __len__ obj ∧
  Forall2 (λ ax (sp : list nat), length ax = length sp) (_axtuple obj) (_dom obj) ∧
  concat (_axtuple obj) = seq 0 (length (_shape obj)).
Proof.
  intros obj.
  apply (axes_partition (λ sp : list nat, sp) [DDomain [4]]
           (DIter [PyDomain [2; 3]; PyDomain [4]]) obj).
  vm_compute. reflexivity.
Defined.

Lemma size_is_product_witness :
  let obj := {| addr := 1; _dom := [[2; 3]; [4]]; _axtuple := [[0; 1]; [2]];
                _shape := [2; 3; 4]; _size := 24 |} in
  _shape obj = concat ((λ sp : list nat, sp) <$> _dom obj) ∧
  _size obj = prod_shape (_shape obj) ∧
  _size obj = prod_shape ((λ sp : list nat, prod_shape sp) <$> _dom obj).
Proof.
  intros obj.
  apply (size_is_product (λ sp : list nat, sp) [DDomain [4]]
           (DIter [PyDomain [2; 3]; PyDomain [4]]) obj).
  vm_compute. reflexivity.
Defined.

Lemma unpickle_gives_same_object_witness :
  let obj := {| addr := 1; _dom := [[2; 3]; [4]]; _axtuple := [[0; 1]; [2]];
                _shape := [2; 3; 4]; _size := 24 |} in
  let st' := run (λ sp : list nat, sp)
               [DDomain [4]; DIter [PyDomain [2; 3]; PyDomain [4]]; DNone; DIter [PyOther]]
               initial in
  _unpickleDomainTuple (λ sp : list nat, sp) (__reduce__ obj) st' = (Ok obj, st').
Proof.
  intros obj st'.
  apply (unpickle_gives_same_object (λ sp : list nat, sp) [DDomain [4]]
           [DNone; DIter [PyOther]] (DIter [PyDomain [2; 3]; PyDomain [4]]) obj).
  vm_compute. reflexivity.
Defined.

End DomainTupleMore.

(** ** [Field]: arithmetic with the short cuts, norms, casts *)

#[global] Instance R_ExactRing : ExactRing R.
Proof.
  split; cbn; intros *; try lra.
  - by intros ?%bool_decide_eq_true.
  - by apply bool_decide_eq_true_2.
Qed.

#[global] Instance C_ExactRing : ExactRing complex.
Proof.
  split; cbn; unfold Cadd, Csub, Cmul, Cneg, RtoC.
  - by intros x y ?%bool_decide_eq_true.
  - intros x. by apply bool_decide_eq_true_2.
  - intros [a b] [c d]; cbn; f_equal; lra.
  - intros [a b]; cbn; f_equal; lra.
  - intros [a b]; cbn; f_equal; lra.
  - intros [a b]; cbn; f_equal; lra.
  - intros [a b] [c d]; cbn; f_equal; lra.
  - intros [a b]; cbn; f_equal; lra.
  - intros [a b]; cbn; f_equal; lra.
Qed.

Module FieldMore.
Import Fields.
Section exact.

Context {Domain : Type} {K : Type} `{ExactRing K} `{!Ufunc2 K}.
#[local] Abbreviation Field := (@Fields.Field Domain K).

Implicit Types (self other f r : Field) (k : K).

Lemma entries_length f :
  field_ok f → length (entries f) = arr_size (DomainTuples._shape (_domain f)).
Proof. intros [Hs Hl Hu]. unfold entries. by rewrite Hl, Hs. Qed.

Lemma entries_uniform f u :
  field_ok f → _uni f = Some u →
  entries f = replicate (arr_size (DomainTuples._shape (_domain f))) u.
Proof. intros [Hs Hl Hu] Hf. unfold entries. by rewrite (Hu _ Hf). Qed.

Lemma zip_replicate_l (g : K → K → K) (n : nat) (u : K) (l : list K) :
  length l = n → zip_with g (replicate n u) l = g u <$> l.
Proof. intros <-. induction l as [|x l IH]; [done|]. cbn. by rewrite IH. Qed.

Lemma zip_replicate_r (g : K → K → K) (n : nat) (u : K) (l : list K) :
  length l = n → zip_with g l (replicate n u) = (λ x, g x u) <$> l.
Proof. intros <-. induction l as [|x l IH]; [done|]. cbn. by rewrite IH. Qed.

Lemma zip_replicate (g : K → K → K) (n : nat) (u v : K) :
  zip_with g (replicate n u) (replicate n v) = replicate n (g u v).
Proof. induction n as [|n IH]; [done|]. cbn. by rewrite IH. Qed.

Lemma fmap_id_on (g : K → K) (l : list K) : (∀ x, g x = x) → g <$> l = l.
Proof. intros Hg. induction l as [|x l IH]; [done|]. cbn. by rewrite IH, Hg. Qed.

Lemma fmap_const (g : K → K) (c : K) (l : list K) :
  (∀ x, g x = c) → g <$> l = replicate (length l) c.
Proof. intros Hg. induction l as [|x l IH]; [done|]. cbn. by rewrite IH, Hg. Qed.

Lemma init_entries d (a : data_object) r :
  __init__ d (inl a) = Ok r → entries r = arr_data a.
Proof. unfold __init__. case_bool_decide; [|discriminate]. by intros [= <-]. Qed.

Lemma init_scalar_entries d k r :
  __init__ d (inr k) = Ok r → entries r = replicate (arr_size (DomainTuples._shape d)) k.
Proof. by intros [= <-]. Qed.

Lemma Kmul_zero_left (x : K) : Kmul Kzero x = Kzero.
Proof. by rewrite Kmul_comm, Kmul_zero_right. Qed.

Lemma Kmul_one_left (x : K) : Kmul Kone x = x.
Proof. by rewrite Kmul_comm, Kmul_one_r. Qed.

Lemma Kadd_zero_left (x : K) : Kadd Kzero x = x.
Proof. by rewrite Kadd_comm, Kadd_zero_r. Qed.

Lemma neg_entries f r :
  field_ok f → __neg__ f = Ok r → entries r = Kneg <$> entries f.
Proof.
  intros Hf. unfold __neg__. destruct (_uni f) as [u|] eqn:Hu.
  - intros Hr%init_scalar_entries. rewrite Hr, (entries_uniform f u Hf Hu).
    by rewrite fmap_replicate.
  - by intros Hr%init_entries.
Qed.

Ltac uniform_cases Hd :=
  repeat match goal with
  | Hu : _uni ?f = Some ?u |- _ =>
      match goal with
      | Hf : field_ok f |- _ =>
          let E := fresh "E" in
          pose proof (entries_uniform f u Hf Hu) as E; clear Hu; rewrite ?Hd in E
      end
  | Hq : Keqb _ _ = true |- _ => apply Keqb_eq in Hq; subst
  end.

Ltac exact_laws :=
  rewrite ?Kadd_zero_left, ?Kadd_zero_r, ?Ksub_zero_r, ?Ksub_zero_l,
    ?Kmul_one_left, ?Kmul_one_r, ?Kmul_zero_left, ?Kmul_zero_right.

Ltac close_entries :=
  first
    [ done
    | by f_equal; exact_laws
    | by rewrite fmap_replicate; f_equal; exact_laws
    | by symmetry; apply fmap_id_on; intros ?; exact_laws
    | by apply list_fmap_ext; intros _ ? _; first [apply Kadd_comm | apply Kmul_comm | exact_laws]
    | by symmetry; erewrite fmap_const by (intros ?; exact_laws; reflexivity); f_equal ].

Ltac by_cases self other Hs Ho Hd :=
  destruct (_uni self) as [?|] eqn:?, (_uni other) as [?|] eqn:?;
    repeat case_match; uniform_cases Hd;
    (let Hr := fresh "Hr" in
     first [intros Hr%init_entries; rewrite Hr
           | intros Hr%init_scalar_entries; rewrite Hr
           | intros Hr%(neg_entries _ _ Ho); rewrite Hr
           | intros [= <-]]);
    cbn [arr_zip arr_map arr_data];
    repeat match goal with E : entries _ = replicate _ _ |- _ => rewrite E; clear E end;
    rewrite ?zip_replicate, ?zip_replicate_l, ?zip_replicate_r by done;
    fold (entries self); fold (entries other).

Lemma add_entries self other r :
  field_ok self → field_ok other → _domain other = _domain self →
  __add__ self (OField other) = Ok r →
  entries r = zip_with Kadd (entries self) (entries other).
Proof.
  intros Hs Ho Hd.
  pose proof (entries_length self Hs) as Hls.
  pose proof (entries_length other Ho) as Hlo. rewrite Hd in Hlo.
  unfold __add__. rewrite Hd, FieldFacts.is_refl. cbn [negb].
  by_cases self other Hs Ho Hd; close_entries.
Qed.

Lemma sub_entries self other r :
  field_ok self → field_ok other → _domain other = _domain self →
  __sub__ self (OField other) = Ok r →
  entries r = zip_with Ksub (entries self) (entries other).
Proof.
  intros Hs Ho Hd.
  pose proof (entries_length self Hs) as Hls.
  pose proof (entries_length other Ho) as Hlo. rewrite Hd in Hlo.
  unfold __sub__. rewrite Hd, FieldFacts.is_refl. cbn [negb].
  by_cases self other Hs Ho Hd; close_entries.
Qed.

Lemma mul_entries_exact self other r :
  field_ok self → field_ok other → _domain other = _domain self →
  __mul__ self (OField other) = Ok r →
  entries r = zip_with Kmul (entries self) (entries other).
Proof.
  intros Hs Ho Hd.
  pose proof (entries_length self Hs) as Hls.
  pose proof (entries_length other Ho) as Hlo. rewrite Hd in Hlo.
  unfold __mul__. rewrite Hd, FieldFacts.is_refl. cbn [negb].
  by_cases self other Hs Ho Hd; close_entries.
Qed.

Lemma func2_entries (g : K → K → K) self other r :
  _domain other = _domain self →
  func2 g self (OField other) = Ok r →
  entries r = zip_with g (entries self) (entries other).
Proof.
  intros Hd. unfold func2. rewrite Hd, FieldFacts.is_refl. cbn [negb].
  by intros Hr%init_entries.
Qed.

(** X6. In exact arithmetic every binary operator on two Fields of one
    domain computes entry by entry: [a op b] is a Field on that domain
    whose entries are those of the two arrays combined by the array
    operator.  This holds for [+], [-] and [*] whatever short cut they
    take on a uniform Field (adding a zero, multiplying by one or by
    zero), as for the operators that have none. *)
Theorem field_operators_are_elementwise (op : dunder) self other :
  field_ok self → field_ok other → _domain other = _domain self →
  ∃ r, getattr op self (OField other) = Ok r ∧ field_ok r ∧ _domain r = _domain self ∧
       entries r = zip_with (np_getattr op) (entries self) (entries other).
Proof.
  intros Hs Ho Hd.
  destruct (FieldFacts.getattr_built op self other Hs Ho Hd) as (r & Hr & Hok & Hdr).
  exists r. repeat (split; [done|]). revert Hr.
  destruct op; cbn [getattr np_getattr];
    first [by apply add_entries | by apply sub_entries | by apply mul_entries_exact
          | by apply func2_entries].
Qed.

Ltac by_scalar_cases self Hs :=
  destruct (_uni self) as [?|] eqn:?;
    repeat case_match;
    repeat match goal with
    | Hu : _uni self = Some ?u |- _ =>
        let E := fresh "E" in pose proof (entries_uniform self u Hs Hu) as E; clear Hu
    | Hq : Keqb _ _ = true |- _ => apply Keqb_eq in Hq; subst
    end;
    (let Hr := fresh "Hr" in
     first [intros Hr%init_entries; rewrite Hr
           | intros Hr%init_scalar_entries; rewrite Hr
           | intros [= <-]]);
    cbn [arr_zip arr_map arr_data];
    repeat match goal with E : entries _ = replicate _ _ |- _ => rewrite E; clear E end;
    fold (entries self).

Lemma mul_scalar_built self k : field_ok self → built self (__mul__ self (OScalar k)).
Proof.
  intros Hs. unfold __mul__. repeat case_match;
    first [ apply FieldFacts.built_scalar
          | by apply FieldFacts.built_map
          | by apply FieldFacts.built_self ].
Qed.

Lemma mul_scalar_entries self k r :
  field_ok self →
  __mul__ self (OScalar k) = Ok r →
  entries r = (λ x, Kmul x k) <$> entries self.
Proof.
  intros Hs. pose proof (entries_length self Hs) as Hls.
  unfold __mul__. by_scalar_cases self Hs; close_entries.
Qed.

Lemma getattr_scalar_entries (op : dunder) self k r :
  field_ok self →
  getattr op self (OScalar k) = Ok r →
  entries r = (λ x, np_getattr op x k) <$> entries self.
Proof.
  intros Hs. pose proof (entries_length self Hs) as Hls.
  destruct op; cbn [getattr np_getattr];
    unfold __radd__, __add__, __sub__, __mul__, func2;
    first [ by intros Hr%init_entries
          | by_scalar_cases self Hs; close_entries ].
Qed.

Lemma getattr_scalar_built (op : dunder) self k :
  field_ok self → built self (getattr op self (OScalar k)).
Proof.
  intros Hs.
  destruct op; cbn [getattr]; unfold __radd__, __add__, __sub__, __mul__, func2;
    repeat case_match;
    first [ apply FieldFacts.built_scalar
          | by apply FieldFacts.built_map
          | by apply FieldFacts.built_self ].
Qed.

(** X7. The same with a scalar on the right: [a op k] is a Field on the
    domain of [a] whose entries are those of [a], each combined with [k],
    also where [__mul__] returns [a] itself for [k == 1] and a uniform
    Field for [k == 0]. *)
Theorem field_scalar_operators_are_elementwise (op : dunder) self k :
  field_ok self →
  ∃ r, getattr op self (OScalar k) = Ok r ∧ field_ok r ∧ _domain r = _domain self ∧
       entries r = (λ x, np_getattr op x k) <$> entries self.
Proof.
  intros Hs. destruct (getattr_scalar_built op self k Hs) as (r & Hr & Hok & Hd).
  exists r. repeat (split; [done|]). by apply getattr_scalar_entries.
Qed.

End exact.

Section norms.

Context {Domain : Type}.
#[local] Abbreviation CField := (@Fields.Field Domain complex).
#[local] Abbreviation RField := (@Fields.Field Domain R).

Lemma vdot_self (l : list complex) :
  foldr Kadd Kzero (zip_with (λ x y, Kmul (Kconj x) y) l l) = RtoC (sum_abs2 l).
Proof.
  induction l as [|[a b] l IH]; [done|].
  cbn [zip_with foldr]. rewrite IH.
  change (sum_abs2 ((a, b) :: l)) with (a * a + b * b + sum_abs2 l)%R.
  cbn. unfold Cadd, Cmul, Cconj, RtoC. cbn. f_equal; lra.
Qed.

Lemma sum_abs2_nonneg (l : list complex) : (0 <= sum_abs2 l)%R.
Proof.
  induction l as [|[a b] l IH]; [cbn; lra|].
  change (sum_abs2 ((a, b) :: l)) with (a * a + b * b + sum_abs2 l)%R. nra.
Qed.

Lemma sum_abs2_zero (l : list complex) :
  sum_abs2 l = 0%R ↔ Forall (λ z, z = RtoC 0) l.
Proof.
  induction l as [|[a b] l IH].
  - split; [constructor|done].
  - change (sum_abs2 ((a, b) :: l)) with (a * a + b * b + sum_abs2 l)%R.
    pose proof (sum_abs2_nonneg l) as Hl. split.
    + intros Hz. assert (a = 0 ∧ b = 0 ∧ sum_abs2 l = 0)%R as (-> & -> & Hs) by nra.
      constructor; [done|]. by apply IH.
    + intros Hf. inversion Hf as [|? ? Hz Hf']; subst. injection Hz as -> ->.
      apply IH in Hf'. rewrite Hf'. lra.
Qed.

(** X8. On a complex Field [vdot(f, f)] is the sum of the squared moduli
    of the entries, a real number that is not negative; so [squared_norm]
    is that sum and [norm] its square root, the L2 norm, and the norm is
    zero exactly when every entry is zero. *)
Theorem norm_is_l2 (f : CField) :
  vdot f (OField f) = Ok (RtoC (sum_abs2 (entries f))) ∧
  squared_norm f = Ok (sum_abs2 (entries f)) ∧
  norm f = Ok (R_sqrt.sqrt (sum_abs2 (entries f))) ∧
  (0 <= sum_abs2 (entries f))%R ∧
  (norm f = Ok 0%R ↔ Forall (λ z, z = RtoC 0) (entries f)).
Proof.
  pose proof (sum_abs2_nonneg (entries f)) as Hn.
  assert (Hv : vdot f (OField f) = Ok (RtoC (sum_abs2 (entries f)))).
  { unfold vdot. rewrite FieldFacts.is_refl. cbn [negb]. f_equal.
    unfold dobj_vdot, arr_sum, arr_zip. cbn [arr_data]. apply vdot_self. }
  assert (Ha : Kabs (RtoC (sum_abs2 (entries f))) = sum_abs2 (entries f)).
  { cbn. replace (sum_abs2 (entries f) * sum_abs2 (entries f) + 0 * 0)%R
      with (sum_abs2 (entries f) * sum_abs2 (entries f))%R by lra.
    by apply sqrt_square. }
  assert (Hs : squared_norm f = Ok (sum_abs2 (entries f))).
  { unfold squared_norm. rewrite Hv. cbn [mbind result_bind]. by rewrite Ha. }
  assert (Hm : norm f = Ok (R_sqrt.sqrt (sum_abs2 (entries f)))).
  { unfold norm. rewrite Hv. cbn [mbind result_bind]. by rewrite Ha. }
  repeat (split; [done|]). rewrite Hm, <- sum_abs2_zero. split.
  - intros [= Hz]. by apply sqrt_eq_0.
  - intros ->. by rewrite sqrt_0.
Qed.

Lemma tanh_bounds (x : R) : (-1 < Rtrigo_def.tanh x < 1)%R.
Proof.
  unfold Rtrigo_def.tanh, sinh, cosh.
  pose proof (exp_pos x) as Ha. pose proof (exp_pos (- x)) as Hb.
  set (a := Rtrigo_def.exp x) in *. set (b := Rtrigo_def.exp (- x)) in *.
  replace ((a - b) / 2 / ((a + b) / 2))%R with ((a - b) / (a + b))%R by (field; lra).
  assert (Hp : (0 < / (a + b))%R) by (apply Rinv_0_lt_compat; lra).
  assert (H1 : ((a + b) * / (a + b) = 1)%R) by (apply Rinv_r; lra).
  unfold Rdiv. split; nra.
Qed.

Lemma positive_tanh_entries (f : RField) :
  field_ok f →
  ∃ r, positive_tanh f = Ok r ∧ field_ok r ∧ _domain r = _domain f ∧
       entries r = (λ x, (1 / 2 * (1 + Rtrigo_def.tanh x))%R) <$> entries f.
Proof.
  intros Hf. unfold positive_tanh. destruct (_uni f) as [u|] eqn:Hu.
  - eexists. split; [done|]. split; [apply FieldFacts.constant_ok|]. split; [done|].
    rewrite (entries_uniform f u Hf Hu), fmap_replicate. done.
  - unfold tanh, func1. rewrite Hu.
    destruct Hf as [Hs Hl _].
    rewrite FieldFacts.init_array by (cbn; congruence).
    cbn [mbind result_bind]. unfold __radd__, __add__. cbn [_uni _domain _val].
    rewrite FieldFacts.init_array by (cbn; congruence).
    cbn [mbind result_bind]. unfold __rmul__, func2. cbn [_domain _val].
    rewrite FieldFacts.init_array by (cbn; congruence).
    eexists. split; [done|]. split.
    + apply FieldFacts.array_ok; cbn; [by rewrite Hs|]. by rewrite !length_fmap.
    + split; [done|]. unfold entries. cbn. rewrite <- !list_fmap_compose.
      apply list_fmap_ext. intros _ x _. cbn. lra.
Qed.

(** X9. On real numbers, which stand for the [float64] entries that are
    numbers, [positive_tanh] of a Field returns a Field of the same
    domain whose entries are [(1 + tanh x) / 2] for the entries [x] of the
    argument, on a uniform Field as on any other; each of them lies in
    the closed interval from 0 to 1.  (No strict bound is stated: the
    rounded [tanh] of [float64] is 1.0 from 19.1 on, where the code
    returns 1.0, and 0.0 at -19.1.) *)
Theorem positive_tanh_in_unit_interval (f : RField) :
  field_ok f →
  ∃ r, positive_tanh f = Ok r ∧ field_ok r ∧ _domain r = _domain f ∧
       entries r = (λ x, (1 / 2 * (1 + Rtrigo_def.tanh x))%R) <$> entries f ∧
       Forall (λ p, (0 <= p <= 1)%R) (entries r).
Proof.
  intros Hf.
  destruct (positive_tanh_entries f Hf) as (r & Hr & Hok & Hd & He).
  exists r. repeat (split; [done|]).
  rewrite He. apply Forall_fmap, Forall_forall. intros x _. cbn.
  pose proof (tanh_bounds x). lra.
Qed.

End norms.
End FieldMore.

(** ** [MultiField]: dicts and inner products *)

Module MultiFieldMore.
Import MultiFields.
Section dicts.

Context {Domain : Type} {K : Type} `{Scalar K}.
#[local] Abbreviation Field := (@Fields.Field Domain K).
#[local] Abbreviation MultiField := (@MultiFields.MultiField Domain K).
#[local] Abbreviation dict := (gmap string (option Field)).

Implicit Types (m : MultiField) (ks : list string) (vs : list (option Field)).

Lemma fill_absent ks vs (d : dict) key :
  key ∉ ks → foldl (λ (acc : dict) kv, <[kv.1 := kv.2]> acc) d (zip ks vs) !! key = d !! key.
Proof.
  revert vs d. induction ks as [|k ks IH]; intros [|v vs] d Hk; try done.
  cbn. rewrite IH by (by apply not_elem_of_cons in Hk as [_ ?]).
  apply lookup_insert_ne. apply not_elem_of_cons in Hk as [? _]. done.
Qed.

Lemma fill_present ks vs (d : dict) i key :
  NoDup ks → length vs = length ks → ks !! i = Some key →
  foldl (λ (acc : dict) kv, <[kv.1 := kv.2]> acc) d (zip ks vs) !! key = vs !! i.
Proof.
  revert vs d i. induction ks as [|k ks IH]; intros [|v vs] d i Hnd Hl Hi; try done.
  apply NoDup_cons in Hnd as [Hk Hnd]. destruct i as [|i]; cbn in *.
  - injection Hi as ->. rewrite fill_absent by done. by rewrite lookup_insert_eq.
  - apply IH; [done|lia|done].
Qed.

Lemma getitem_lookup m i key :
  NoDup (keys (_domain m)) → keys (_domain m) !! i = Some key →
  __getitem__ m key = _val m !! i.
Proof.
  intros Hnd Hi. unfold __getitem__, idx.
  destruct (list_find (λ k, k = key) (keys (_domain m))) as [[j k]|] eqn:Hf.
  - apply list_find_Some in Hf as (Hj & -> & _). cbn.
    by rewrite (NoDup_lookup _ _ _ _ Hnd Hi Hj).
  - apply list_find_None in Hf. apply (Forall_lookup_1 _ _ _ _ Hf) in Hi. done.
Qed.

Lemma getitem_absent m key : key ∉ keys (_domain m) → __getitem__ m key = None.
Proof.
  intros Hk. unfold __getitem__, idx.
  destruct (list_find (λ k, k = key) (keys (_domain m))) as [[j k]|] eqn:Hf; [|done].
  apply list_find_Some in Hf as (Hj & -> & _). by apply list_elem_of_lookup_2 in Hj.
Qed.

(** X10. On a MultiField whose domain has each key once, the dict of
    [to_dict] has under each key what [__getitem__] gives for it, a Field
    or [None], and nothing under any other key; and [from_dict] rebuilds
    the MultiField from that dict and the domain. *)
Theorem dict_round_trip m :
  multi_field_ok m → NoDup (keys (_domain m)) →
  (∀ key, to_dict m !! key = __getitem__ m key) ∧
  from_dict (to_dict m) (_domain m) = Ok m.
Proof.
  intros [Hl Hok] Hnd.
  assert (Hlen : length (_val m) = length (keys (_domain m))).
  { by rewrite <- (Forall2_length _ _ _ Hok). }
  split.
  - intros key. unfold to_dict.
    destruct (decide (key ∈ keys (_domain m))) as [Hin|Hout].
    + apply list_elem_of_lookup in Hin as [i Hi].
      rewrite (fill_present _ _ _ i) by done. symmetry. by apply getitem_lookup.
    + rewrite fill_absent by done. rewrite lookup_empty. symmetry. by apply getitem_absent.
  - unfold from_dict.
    assert (Hvals : (λ key, match to_dict m !! key with Some v => v | None => None end)
                      <$> keys (_domain m) = _val m).
    { apply list_eq. intros i. rewrite list_lookup_fmap.
      destruct (keys (_domain m) !! i) as [key|] eqn:Hi; cbn.
      - unfold to_dict. rewrite (fill_present _ _ _ i) by done.
        destruct (lookup_lt_is_Some_2 (_val m) i) as [v Hv].
        { rewrite Hlen. by eapply lookup_lt_Some. }
        by rewrite Hv.
      - symmetry. apply lookup_ge_None. rewrite Hlen. by apply lookup_ge_None. }
    rewrite Hvals, MultiFieldFacts.init_ok by done. by destruct m.
Qed.

End dicts.

Section inner_product.

Context {Domain : Type}.
#[local] Abbreviation Field := (@Fields.Field Domain complex).
#[local] Abbreviation MultiField := (@MultiFields.MultiField Domain complex).

Implicit Types (a b : MultiField).

Lemma Cadd_assoc (x y z : complex) : Cadd x (Cadd y z) = Cadd (Cadd x y) z.
Proof. destruct x, y, z. unfold Cadd. cbn. f_equal; lra. Qed.

Lemma Cadd_zero_r (x : complex) : Cadd x (RtoC 0) = x.
Proof. destruct x. unfold Cadd, RtoC. cbn. f_equal; lra. Qed.

Lemma Cadd_zero_l (x : complex) : Cadd (RtoC 0) x = x.
Proof. destruct x. unfold Cadd, RtoC. cbn. f_equal; lra. Qed.

Lemma csum_app (l k : list complex) :
  foldr Cadd (RtoC 0) (l ++ k) = Cadd (foldr Cadd (RtoC 0) l) (foldr Cadd (RtoC 0) k).
Proof.
  induction l as [|x l IH]; cbn; [by rewrite Cadd_zero_l|]. by rewrite IH, Cadd_assoc.
Qed.

Lemma vdot_loop_value (doms : list (@DomainTuples.DomainTuple Domain))
    (la lb : list (option Field)) (acc : complex) :
  Forall2 entry_ok doms la → Forall2 entry_ok doms lb →
  vdot_loop (zip la lb) acc
  = Ok (Cadd acc (foldr Cadd (RtoC 0)
                    (p ← zip la lb;
                     match p with
                     | (Some v1, Some v2) =>
                         zip_with (λ x y, Cmul (Cconj x) y) (Fields.entries v1) (Fields.entries v2)
                     | _ => []
                     end))).
Proof.
  intros Ha. revert lb acc.
  induction Ha as [|dom v1 doms la Hv1 Ha IH]; intros lb acc Hb.
  - inversion Hb; subst. cbn. by rewrite Cadd_zero_r.
  - inversion Hb as [|? v2 ? lb' Hv2 Hb']; subst. cbn [zip zip_with vdot_loop].
    destruct v1 as [v1|], v2 as [v2|]; cbn [mbind list_bind]; rewrite ?IH by done; try done.
    destruct Hv1 as [_ Hd1], Hv2 as [_ Hd2].
    rewrite (InnerProductFacts.vdot_value v1 v2) by congruence.
    cbn [mbind result_bind]. rewrite IH by done. cbn [Kadd C_Scalar].
    by rewrite csum_app, Cadd_assoc.
Qed.

Lemma common_products_conj (la lb : list (option Field)) :
  Cconj (foldr Cadd (RtoC 0)
           (p ← zip la lb;
            match p with
            | (Some v1, Some v2) =>
                zip_with (λ x y, Cmul (Cconj x) y) (Fields.entries v1) (Fields.entries v2)
            | _ => []
            end))
  = foldr Cadd (RtoC 0)
      (p ← zip lb la;
       match p with
       | (Some v1, Some v2) =>
           zip_with (λ x y, Cmul (Cconj x) y) (Fields.entries v1) (Fields.entries v2)
       | _ => []
       end).
Proof.
  revert lb. induction la as [|v1 la IH]; intros [|v2 lb]; cbn; try apply InnerProductFacts.Cconj_real.
  rewrite !csum_app, InnerProductFacts.Cconj_add. cbn in IH. rewrite IH. f_equal.
  destruct v1 as [v1|], v2 as [v2|]; try apply InnerProductFacts.Cconj_real.
  apply InnerProductFacts.vdot_lists_conj.
Qed.

(** X11. [vdot] of two complex MultiFields of one domain returns the sum
    of the products [conj(x) * y] over the entries of the keys that both
    have; a key that one of them lacks adds nothing.  Exchanging the two
    conjugates the result. *)
Theorem multi_vdot_is_conjugate_symmetric a b :
  multi_field_ok a → multi_field_ok b → _domain b = _domain a →
  vdot a b = Ok (foldr Cadd (RtoC 0) (common_products a b)) ∧
  vdot b a = Ok (Cconj (foldr Cadd (RtoC 0) (common_products a b))).
Proof.
  intros [_ Ha] [_ Hb] Hd. rewrite Hd in Hb.
  unfold vdot. rewrite Hd, MultiFieldFacts.md_is_refl. cbn [negb].
  rewrite (vdot_loop_value _ _ _ _ Ha Hb), (vdot_loop_value _ _ _ _ Hb Ha).
  rewrite !Cadd_zero_l. split; [done|]. f_equal. symmetry. apply common_products_conj.
Qed.

End inner_product.
End MultiFieldMore.

(** ** [ScalingOperator], [VdotOperator], [SumReductionOperator]: inverses
    and adjoints *)

Module OperatorMore.
Import Operators.
Section checks.

Context {Domain : Type} {K : Type} `{Scalar K}.
#[local] Abbreviation DomainTuple := (@DomainTuples.DomainTuple Domain).
#[local] Abbreviation value := (@Operators.value Domain K).
#[local] Abbreviation LinearOperator := (@Operators.LinearOperator Domain K).

Variable scalar_domain : DomainTuple.

Lemma check_forward (op : LinearOperator) (v : value) :
  (N.land TIMES (capability op) =? 0)%N = false →
  domain_is (op_domain scalar_domain op) (domain_of_value v) = true →
  _check_input scalar_domain op v TIMES = Ok ().
Proof.
  intros Hc Hd. unfold _check_input, _dom.
  assert (Hv : _validMode TIMES = true) by (apply OperatorFacts.validMode_iff; auto).
  rewrite Hv, Hc. cbn [negb]. change (N.land TIMES 9 =? 0)%N with false. cbn [negb].
  by rewrite Hd.
Qed.

Lemma check_adjoint (op : LinearOperator) (v : value) :
  (N.land ADJOINT_TIMES (capability op) =? 0)%N = false →
  domain_is (op_target scalar_domain op) (domain_of_value v) = true →
  _check_input scalar_domain op v ADJOINT_TIMES = Ok ().
Proof.
  intros Hc Hd. unfold _check_input, _dom.
  assert (Hv : _validMode ADJOINT_TIMES = true) by (apply OperatorFacts.validMode_iff; auto).
  rewrite Hv, Hc. cbn [negb]. change (N.land ADJOINT_TIMES 9 =? 0)%N with true. cbn [negb].
  by rewrite Hd.
Qed.

Lemma forward_bit (c : N) : (N.land TIMES c =? 0)%N = false ↔ N.odd c = true.
Proof. destruct c as [|[p|p|]]; cbn; split; done. Qed.

Lemma forward_bit_land (c1 c2 : N) :
  (N.land TIMES c1 =? 0)%N = false → (N.land TIMES c2 =? 0)%N = false →
  (N.land TIMES (N.land c1 c2) =? 0)%N = false.
Proof.
  rewrite !forward_bit, <- !N.bit0_odd, N.land_spec. by intros -> ->.
Qed.

Lemma adjoint_bit (c : N) : (N.land ADJOINT_TIMES c =? 0)%N = false ↔ N.testbit c 1 = true.
Proof.
  split.
  - intros Hc. destruct (N.testbit c 1) eqn:Hb; [done|]. exfalso.
    assert (Hz : N.land ADJOINT_TIMES c = 0%N).
    { apply N.bits_inj. intros n. rewrite N.land_spec, N.bits_0.
      destruct (decide (n = 1%N)) as [->|Hn]; [by rewrite Hb, andb_false_r|].
      assert (Ht : N.testbit ADJOINT_TIMES n = false).
      { change ADJOINT_TIMES with (2 ^ 1)%N. by apply N.pow2_bits_false. }
      by rewrite Ht. }
    by rewrite Hz in Hc.
  - intros Hb. apply N.eqb_neq. intros Hz.
    assert (Ht : N.testbit (N.land ADJOINT_TIMES c) 1 = true).
    { rewrite N.land_spec, Hb. done. }
    rewrite Hz in Ht. done.
Qed.

Lemma adjoint_bit_land (c1 c2 : N) :
  (N.land ADJOINT_TIMES c1 =? 0)%N = false → (N.land ADJOINT_TIMES c2 =? 0)%N = false →
  (N.land ADJOINT_TIMES (N.land c1 c2) =? 0)%N = false.
Proof. rewrite !adjoint_bit, N.land_spec. by intros -> ->. Qed.

(** A chain in the mode [ADJOINT_TIMES]: the first operator, then the
    second. *)
Lemma chain_adjoint (a b : LinearOperator) (v y z : value) :
  (N.land ADJOINT_TIMES (capability a) =? 0)%N = false →
  (N.land ADJOINT_TIMES (capability b) =? 0)%N = false →
  domain_is (op_target scalar_domain a) (domain_of_value v) = true →
  apply scalar_domain a v ADJOINT_TIMES = Ok y →
  apply scalar_domain b y ADJOINT_TIMES = Ok z →
  apply scalar_domain (ChainOperator a b) v ADJOINT_TIMES = Ok z.
Proof.
  intros Ha Hb Hd Hy Hz.
  change (apply scalar_domain (ChainOperator a b) v ADJOINT_TIMES)
    with (_ ← _check_input scalar_domain (ChainOperator a b) v ADJOINT_TIMES;
          t ← apply scalar_domain a v ADJOINT_TIMES; apply scalar_domain b t ADJOINT_TIMES).
  rewrite check_adjoint; [|by apply adjoint_bit_land|done].
  cbn [mbind result_bind]. rewrite Hy. cbn [mbind result_bind]. done.
Qed.

(** A relaxed sum in the mode [ADJOINT_TIMES]. *)
Lemma relaxed_sum_adjoint (a b : LinearOperator) (v y1 y2 : value) :
  (N.land ADJOINT_TIMES (capability a) =? 0)%N = false →
  (N.land ADJOINT_TIMES (capability b) =? 0)%N = false →
  domain_is (op_target scalar_domain a) (domain_of_value v) = true →
  apply scalar_domain a v ADJOINT_TIMES = Ok y1 →
  apply scalar_domain b v ADJOINT_TIMES = Ok y2 →
  apply scalar_domain (RelaxedSumOperator a b) v ADJOINT_TIMES = add y1 y2.
Proof.
  intros Ha Hb Hd Hy1 Hy2.
  change (apply scalar_domain (RelaxedSumOperator a b) v ADJOINT_TIMES)
    with (_ ← _check_input scalar_domain (RelaxedSumOperator a b) v ADJOINT_TIMES;
          t1 ← apply scalar_domain a v ADJOINT_TIMES;
          t2 ← apply scalar_domain b v ADJOINT_TIMES; add t1 t2).
  rewrite check_adjoint; [|by repeat apply adjoint_bit_land|done].
  cbn [mbind result_bind]. rewrite Hy1, Hy2. done.
Qed.

End checks.

Section complex_operators.

Context {Domain : Type}.
#[local] Abbreviation DomainTuple := (@DomainTuples.DomainTuple Domain).
#[local] Abbreviation Field := (@Fields.Field Domain complex).
#[local] Abbreviation value := (@Operators.value Domain complex).

Variable scalar_domain : DomainTuple.

Implicit Types (x y s fld : Field) (f k : complex) (d : DomainTuple) (mode : N).

#[local] Abbreviation csum := (foldr Cadd (RtoC 0)).
#[local] Abbreviation cdot := (zip_with (λ a b : complex, Cmul (Cconj a) b)).

Lemma Cmul_zero_r (a : complex) : Cmul a (RtoC 0) = RtoC 0.
Proof. destruct a. unfold Cmul, RtoC. cbn. f_equal; lra. Qed.

Lemma Cmul_add_distr_l (a b c : complex) : Cmul a (Cadd b c) = Cadd (Cmul a b) (Cmul a c).
Proof. destruct a, b, c. unfold Cmul, Cadd. cbn. f_equal; lra. Qed.

Lemma csum_scale (c : complex) (l : list complex) : csum (Cmul c <$> l) = Cmul c (csum l).
Proof.
  induction l as [|a l IH]; cbn; [by rewrite Cmul_zero_r|].
  by rewrite IH, Cmul_add_distr_l.
Qed.

Lemma Cinv_l (f : complex) : f ≠ RtoC 0 → Cmul (Cdiv (RtoC 1) f) f = RtoC 1.
Proof.
  destruct f as [a b]. intros Hf.
  assert (Hn : (a * a + b * b ≠ 0)%R).
  { intros Hz. apply Hf. assert (a = 0 ∧ b = 0)%R as [-> ->] by nra. done. }
  unfold Cdiv, Cmul, RtoC. cbn. f_equal; field; done.
Qed.

Lemma Cconj_nonzero (f : complex) : f ≠ RtoC 0 → Cconj f ≠ RtoC 0.
Proof.
  destruct f as [a b]. unfold Cconj, RtoC. cbn. intros Hf [= Ha Hb]. apply Hf.
  f_equal; lra.
Qed.

Lemma Cdiv_one_one : Cdiv (RtoC 1) (RtoC 1) = RtoC 1.
Proof. unfold Cdiv, RtoC. cbn. f_equal; field. Qed.

Lemma mode_factor_one mode : mode_factor (RtoC 1) mode = RtoC 1.
Proof.
  unfold mode_factor. cbn [Kconj Kdiv Kone C_Scalar].
  rewrite InnerProductFacts.Cconj_real.
  destruct (negb _), (negb _); by rewrite ?Cdiv_one_one.
Qed.

(** [ScalingOperator.apply] on a Field of the operator's domain, entry by
    entry. *)
Lemma scaling_entries f d x mode :
  _validMode mode = true → Fields.field_ok x → Fields._domain x = d →
  f ≠ RtoC 0 ∨ mode = TIMES ∨ mode = ADJOINT_TIMES →
  ∃ r, apply scalar_domain (ScalingOperator f (DomTuple d) _all_ops) (VField x) mode
       = Ok (VField r) ∧
       Fields.field_ok r ∧ Fields._domain r = d ∧
       Fields.entries r = (λ v, Cmul v (mode_factor f mode)) <$> Fields.entries x.
Proof.
  intros Hm Hx <- Hf. cbn [apply].
  rewrite OperatorFacts.scaling_check by (done || apply FieldFacts.is_refl).
  cbn [mbind result_bind]. unfold ScalingOperator_apply.
  destruct (Keqb f Kone) eqn:H1.
  { apply Keqb_eq in H1 as ->. exists x. repeat (split; [done|]).
    change (Kone : complex) with (RtoC 1). rewrite mode_factor_one.
    symmetry. apply FieldMore.fmap_id_on. intros v. apply InnerProductFacts.Cmul_one. }
  destruct (Keqb f Kzero) eqn:H0.
  { apply Keqb_eq in H0 as ->. exists (Fields.constant (Fields._domain x) Kzero).
    split; [done|]. split; [apply FieldFacts.constant_ok|]. split; [done|].
    assert (Hz : mode_factor (Kzero : complex) mode = RtoC 0).
    { destruct Hf as [Hf|[-> | ->]]; [done| |]; cbn; [done|].
      apply InnerProductFacts.Cconj_real. }
    rewrite Hz. erewrite FieldMore.fmap_const by (intros v; apply Cmul_zero_r).
    cbn. f_equal. by rewrite (FieldMore.entries_length x Hx). }
  fold (mode_factor f mode). unfold mul_scalar, binary_scalar.
  destruct (FieldMore.mul_scalar_built x (mode_factor f mode) Hx) as (r & Hr & Hok & Hdr).
  rewrite Hr. exists r. split; [done|]. split; [done|]. split; [done|].
  exact (FieldMore.mul_scalar_entries x _ r Hx Hr).
Qed.

Lemma inverse_mode_valid mode : _validMode mode = true → _validMode (inverse_mode mode) = true.
Proof. rewrite OperatorFacts.validMode_iff. by intros [->|[->|[->| ->]]]. Qed.

Lemma mode_factor_inverse f mode :
  _validMode mode = true → f ≠ RtoC 0 →
  Cmul (mode_factor f mode) (mode_factor f (inverse_mode mode)) = RtoC 1.
Proof.
  rewrite OperatorFacts.validMode_iff. intros Hm Hf.
  pose proof (Cconj_nonzero f Hf) as Hc.
  destruct Hm as [->|[->|[->| ->]]]; cbn;
    first [ by apply Cinv_l | by rewrite InnerProductFacts.Cmul_comm; apply Cinv_l ].
Qed.

(** X12. With a factor other than zero, [ScalingOperator.apply] in a mode
    followed by [apply] in the inverse mode gives back the entries of the
    Field it started from: [INVERSE_TIMES] undoes [TIMES], and
    [ADJOINT_INVERSE_TIMES] undoes [ADJOINT_TIMES], in both orders. *)
Theorem scaling_inverse_round_trip f d x mode :
  _validMode mode = true → Fields.field_ok x → Fields._domain x = d → f ≠ RtoC 0 →
  ∃ y z,
    apply scalar_domain (ScalingOperator f (DomTuple d) _all_ops) (VField x) mode
    = Ok (VField y) ∧
    apply scalar_domain (ScalingOperator f (DomTuple d) _all_ops) (VField y) (inverse_mode mode)
    = Ok (VField z) ∧
    Fields._domain z = d ∧ Fields.entries z = Fields.entries x.
Proof.
  intros Hm Hx Hd Hf.
  destruct (scaling_entries f d x mode Hm Hx Hd (or_introl Hf)) as (y & Hy & Hoky & Hdy & Hey).
  destruct (scaling_entries f d y (inverse_mode mode) (inverse_mode_valid _ Hm) Hoky Hdy
              (or_introl Hf)) as (z & Hz & Hokz & Hdz & Hez).
  exists y, z. repeat (split; [done|]).
  rewrite Hez, Hey, <- list_fmap_compose. apply FieldMore.fmap_id_on. intros v. cbn.
  rewrite <- InnerProductFacts.Cmul_assoc, mode_factor_inverse by done.
  apply InnerProductFacts.Cmul_one.
Qed.

Lemma cdot_scale_r (c : complex) (l1 l2 : list complex) :
  csum (cdot l1 ((λ v, Cmul v c) <$> l2)) = Cmul c (csum (cdot l1 l2)).
Proof.
  rewrite <- csum_scale. f_equal. rewrite zip_with_fmap_r.
  revert l2. induction l1 as [|a l1 IH]; intros [|b l2]; cbn; try done.
  rewrite IH. f_equal.
  rewrite (InnerProductFacts.Cmul_comm b c), !InnerProductFacts.Cmul_assoc.
  f_equal. apply InnerProductFacts.Cmul_comm.
Qed.

Lemma cdot_scale_l (c : complex) (l1 l2 : list complex) :
  csum (cdot ((λ v, Cmul v c) <$> l1) l2) = Cmul (Cconj c) (csum (cdot l1 l2)).
Proof.
  rewrite <- csum_scale. f_equal. rewrite zip_with_fmap_l.
  revert l2. induction l1 as [|a l1 IH]; intros [|b l2]; cbn; try done.
  rewrite IH. f_equal.
  rewrite InnerProductFacts.Cconj_mul, !InnerProductFacts.Cmul_assoc.
  f_equal. apply InnerProductFacts.Cmul_comm.
Qed.

(** X13. [ScalingOperator.apply] in the mode [ADJOINT_TIMES] is the
    adjoint of the mode [TIMES] for the inner product [vdot]: for Fields
    [x] and [y] of the operator's domain, [vdot(y, A x) = vdot(A^+ y, x)],
    whatever the factor is. *)
Theorem scaling_adjoint f d x y :
  Fields.field_ok x → Fields.field_ok y → Fields._domain x = d → Fields._domain y = d →
  ∃ ax ay c,
    apply scalar_domain (ScalingOperator f (DomTuple d) _all_ops) (VField x) TIMES
    = Ok (VField ax) ∧
    apply scalar_domain (ScalingOperator f (DomTuple d) _all_ops) (VField y) ADJOINT_TIMES
    = Ok (VField ay) ∧
    vdot (VField y) (VField ax) = Ok c ∧ vdot (VField ay) (VField x) = Ok c.
Proof.
  intros Hx Hy Hdx Hdy.
  destruct (scaling_entries f d x TIMES eq_refl Hx Hdx) as (ax & Hax & _ & Hdax & Heax); [auto|].
  destruct (scaling_entries f d y ADJOINT_TIMES eq_refl Hy Hdy) as (ay & Hay & _ & Hday & Heay);
    [auto|].
  exists ax, ay. eexists. split; [done|]. split; [done|]. cbn [vdot].
  rewrite !InnerProductFacts.vdot_value by congruence. rewrite Heax, Heay.
  rewrite cdot_scale_r, cdot_scale_l.
  change (mode_factor f TIMES) with f. change (mode_factor f ADJOINT_TIMES) with (Cconj f).
  by rewrite InnerProductFacts.Cconj_conj.
Qed.

Lemma scalar_entries s :
  DomainTuples._shape scalar_domain = [] →
  Fields.field_ok s → Fields._domain s = scalar_domain →
  ∃ k, Fields.entries s = [k] ∧ Fields.item s = Ok k.
Proof.
  intros Hsh Hs Hd. pose proof (FieldMore.entries_length s Hs) as Hl.
  rewrite Hd, Hsh in Hl. unfold Fields.item. unfold Fields.entries in *.
  destruct (Fields.arr_data (Fields._val s)) as [|k [|? ?]]; try done. by exists k.
Qed.

(** X14. [VdotOperator.apply] in the mode [ADJOINT_TIMES] is the adjoint
    of the mode [TIMES]: for a Field [x] of the domain of the operator's
    Field and a Field [s] over the scalar domain,
    [vdot(s, A x) = vdot(A^+ s, x)]. *)
Theorem vdot_operator_adjoint fld x s :
  DomainTuples._shape scalar_domain = [] →
  Fields.field_ok fld → Fields.field_ok x → Fields.field_ok s →
  Fields._domain x = Fields._domain fld → Fields._domain s = scalar_domain →
  ∃ ax ay c,
    apply scalar_domain (VdotOperator (VField fld)) (VField x) TIMES = Ok (VField ax) ∧
    Fields._domain ax = scalar_domain ∧
    apply scalar_domain (VdotOperator (VField fld)) (VField s) ADJOINT_TIMES = Ok (VField ay) ∧
    Fields._domain ay = Fields._domain fld ∧
    vdot (VField s) (VField ax) = Ok c ∧ vdot (VField ay) (VField x) = Ok c.
Proof.
  intros Hsh Hfld Hx Hs Hdx Hds.
  destruct (scalar_entries s Hsh Hs Hds) as (k & Hes & Hitem).
  destruct (FieldMore.mul_scalar_built fld k Hfld) as (ay & Hay & Hokay & Hday).
  pose proof (FieldMore.mul_scalar_entries fld k ay Hfld Hay) as Heay.
  exists (Fields.constant scalar_domain (csum (cdot (Fields.entries fld) (Fields.entries x)))), ay.
  eexists. split; [|split; [done|split; [|split; [done|split]]]].
  - cbn [apply]. rewrite check_forward; [|done|by cbn; rewrite Hdx, FieldFacts.is_refl].
    cbn [mbind result_bind].
    unfold VdotOperator_apply. cbn [vdot]. rewrite InnerProductFacts.vdot_value by done.
    reflexivity.
  - cbn [apply]. rewrite check_adjoint; [|done|by cbn; rewrite Hds, FieldFacts.is_refl].
    cbn [mbind result_bind].
    unfold VdotOperator_apply. cbn [item]. rewrite Hitem. cbn [mbind result_bind].
    unfold mul_scalar, binary_scalar. by rewrite Hay.
  - cbn [vdot]. rewrite InnerProductFacts.vdot_value by done. rewrite Hes.
    unfold Fields.entries. cbn. rewrite Hsh. cbn. reflexivity.
  - cbn [vdot]. rewrite InnerProductFacts.vdot_value by congruence. rewrite Heay.
    rewrite cdot_scale_l. f_equal. by rewrite MultiFieldMore.Cadd_zero_r.
Qed.

Lemma cdot_replicate (k : complex) (l : list complex) :
  csum (cdot (replicate (length l) k) l) = Cmul (Cconj k) (csum l).
Proof.
  rewrite <- csum_scale. f_equal. induction l as [|a l IH]; [done|]. cbn. by rewrite IH.
Qed.

(** X15. [SumReductionOperator.apply] in the mode [ADJOINT_TIMES] is the
    adjoint of the mode [TIMES]: for a Field [x] of the operator's domain
    and a Field [s] over the scalar domain, [vdot(s, A x) = vdot(A^+ s, x)];
    [A x] is the sum of the entries of [x], and [A^+ s] the Field with
    the entry of [s] everywhere. *)
Theorem sum_reduction_adjoint d x s :
  DomainTuples._shape scalar_domain = [] →
  Fields.field_ok x → Fields.field_ok s →
  Fields._domain x = d → Fields._domain s = scalar_domain →
  ∃ ax ay c,
    apply scalar_domain (SumReductionOperator (DomTuple d)) (VField x) TIMES = Ok (VField ax) ∧
    Fields.entries ax = [csum (Fields.entries x)] ∧
    apply scalar_domain (SumReductionOperator (DomTuple d)) (VField s) ADJOINT_TIMES
    = Ok (VField ay) ∧
    Fields.entries ay = replicate (length (Fields.entries x)) (default (RtoC 0) (head (Fields.entries s))) ∧
    vdot (VField s) (VField ax) = Ok c ∧ vdot (VField ay) (VField x) = Ok c.
Proof.
  intros Hsh Hx Hs Hdx Hds.
  destruct (scalar_entries s Hsh Hs Hds) as (k & Hes & Hitem).
  pose proof (FieldMore.entries_length x Hx) as Hlx. rewrite Hdx in Hlx.
  exists (Fields.constant scalar_domain (csum (Fields.entries x))), (Fields.constant d k).
  eexists. split; [|split; [|split; [|split; [|split]]]].
  - cbn [apply]. rewrite check_forward; [|done|by cbn; rewrite Hdx, FieldFacts.is_refl].
    reflexivity.
  - unfold Fields.entries. cbn. rewrite Hsh. reflexivity.
  - cbn [apply]. rewrite check_adjoint; [|done|by cbn; rewrite Hds, FieldFacts.is_refl].
    cbn [mbind result_bind].
    unfold SumReductionOperator_apply. cbn [item]. rewrite Hitem. reflexivity.
  - rewrite Hes, Hlx. reflexivity.
  - cbn [vdot]. rewrite InnerProductFacts.vdot_value by done. rewrite Hes.
    unfold Fields.entries at 1. cbn. rewrite Hsh. cbn. reflexivity.
  - cbn [vdot]. rewrite InnerProductFacts.vdot_value by done.
    unfold Fields.entries at 1. cbn [Fields.constant Fields._val Fields.uniform_full Fields.arr_data].
    rewrite <- Hlx, cdot_replicate. f_equal. by rewrite MultiFieldMore.Cadd_zero_r.
Qed.

End complex_operators.

Section sampling.

Context {Domain : Type}.
#[local] Abbreviation value := (@Operators.value Domain R).
#[local] Abbreviation domain := (@Operators.domain Domain).

(** X16. [ScalingOperator.draw_sample] raises [ValueError("operator not
    positive definite")] exactly when the factor is negative, or zero with
    [from_inverse]; otherwise it hands [from_random] a standard deviation
    that is not negative and whose square is the factor, or the inverse
    of the factor with [from_inverse]. *)
Theorem draw_sample_standard_deviation (from_random : domain → R → result value)
    (fct : R) (dom : domain) (from_inverse : bool) :
  ((fct < 0)%R ∨ (fct = 0%R ∧ from_inverse = true) →
   draw_sample from_random fct dom from_inverse
   = Raise (ValueError "operator not positive definite")) ∧
  (¬ ((fct < 0)%R ∨ (fct = 0%R ∧ from_inverse = true)) →
   ∃ std, draw_sample from_random fct dom from_inverse = from_random dom std ∧
          (0 <= std)%R ∧
          (std * std)%R = (if from_inverse then (1 / fct)%R else fct)).
Proof.
  unfold draw_sample, float_imag, float_real. split.
  - intros [Hneg|[-> ->]].
    + rewrite bool_decide_eq_false_2 by (intros Hn; by apply Hn).
      by rewrite (bool_decide_eq_true_2 _ Hneg).
    + rewrite bool_decide_eq_false_2 by (intros Hn; by apply Hn).
      rewrite bool_decide_eq_false_2 by lra. by rewrite bool_decide_eq_true_2.
  - intros Hok.
    rewrite bool_decide_eq_false_2 by (intros Hn; by apply Hn).
    rewrite bool_decide_eq_false_2 by (intros Hn; apply Hok; by left).
    assert (Hpos : (0 <= fct)%R) by (apply Rnot_lt_le; intros Hn; apply Hok; by left).
    destruct from_inverse.
    + assert (Hnz : fct ≠ 0%R) by (intros ->; apply Hok; by right).
      rewrite bool_decide_eq_false_2 by done. cbn [orb andb].
      exists (1 / R_sqrt.sqrt fct)%R. split; [done|].
      assert (Hs : (0 < R_sqrt.sqrt fct)%R) by (apply sqrt_lt_R0; lra).
      split.
      * apply Rlt_le. apply Rdiv_lt_0_compat; lra.
      * replace (1 / R_sqrt.sqrt fct * (1 / R_sqrt.sqrt fct))%R
          with (1 / (R_sqrt.sqrt fct * R_sqrt.sqrt fct))%R by (field; lra).
        by rewrite sqrt_sqrt.
    + rewrite andb_false_r. cbn [orb].
      exists (R_sqrt.sqrt fct). split; [done|]. split; [apply sqrt_pos|by apply sqrt_sqrt].
Qed.

End sampling.
End OperatorMore.

(** ** The likelihoods: where the energies are smallest *)

Module EnergyMore.
Import Operators Energies.
Section real_energies.

Context {Domain : Type}.
#[local] Abbreviation DomainTuple := (@DomainTuples.DomainTuple Domain).
#[local] Abbreviation Field := (@Fields.Field Domain R).

Variable scalar_domain : DomainTuple.

Implicit Types (x d : Field).

Lemma ln_le_minus_one (t : R) : (0 < t)%R → (ln t <= t - 1)%R ∧ (ln t = t - 1 → t = 1)%R.
Proof.
  intros Ht. pose proof (exp_ln t Ht) as He. split.
  - pose proof (exp_ineq1_le (ln t)). lra.
  - intros Heq. destruct (Req_dec (ln t) 0) as [Hz|Hnz]; [lra|].
    pose proof (exp_ineq1 (ln t) Hnz). lra.
Qed.

Lemma ln_quotient (a b : R) : (0 < a)%R → (0 < b)%R → ln (a / b) = (ln a - ln b)%R.
Proof.
  intros Ha Hb. unfold Rdiv. rewrite ln_mult by (done || by apply Rinv_0_lt_compat).
  rewrite ln_Rinv by done. lra.
Qed.







Lemma cross_entropy_nonneg (rs ds : list R) :
  Forall (λ r, 0 < r < 1)%R rs → Forall (λ δ, 0 <= δ <= 1)%R ds →
  (0 <= cross_entropy rs ds)%R.
Proof.
  unfold cross_entropy. intros Hr. revert ds.
  induction Hr as [|r rs Hr Hrs IH]; intros ds Hd; [cbn; lra|].
  destruct Hd as [|δ ds Hδ Hd]; [cbn; lra|]. cbn. specialize (IH ds Hd).
  destruct (ln_le_minus_one r) as [H1 _]; [lra|].
  destruct (ln_le_minus_one (1 - r)) as [H2 _]; [lra|].
  assert (δ * ln r <= 0)%R by nra. assert ((1 - δ) * ln (1 - r) <= 0)%R by nra. lra.
Qed.

Lemma cross_entropy_term (r δ : R) :
  (0 < r < 1)%R → (0 < δ < 1)%R →
  (- (δ * ln δ + (1 - δ) * ln (1 - δ)) <= - (δ * ln r + (1 - δ) * ln (1 - r)))%R.
Proof.
  intros Hr Hd.
  destruct (ln_le_minus_one (r / δ)) as [H1 _]; [apply Rdiv_lt_0_compat; lra|].
  destruct (ln_le_minus_one ((1 - r) / (1 - δ))) as [H2 _]; [apply Rdiv_lt_0_compat; lra|].
  rewrite ln_quotient in H1, H2 by lra.
  assert (δ * (ln r - ln δ) <= δ * (r / δ - 1))%R by (apply Rmult_le_compat_l; lra).
  assert ((1 - δ) * (ln (1 - r) - ln (1 - δ)) <= (1 - δ) * ((1 - r) / (1 - δ) - 1))%R
    by (apply Rmult_le_compat_l; lra).
  assert (δ * (r / δ - 1) = r - δ)%R by (field; lra).
  assert ((1 - δ) * ((1 - r) / (1 - δ) - 1) = δ - r)%R by (field; lra).
  lra.
Qed.

Lemma cross_entropy_minimum (rs ds : list R) :
  length rs = length ds →
  Forall (λ r, 0 < r < 1)%R rs → Forall (λ δ, 0 < δ < 1)%R ds →
  (cross_entropy ds ds <= cross_entropy rs ds)%R.
Proof.
  unfold cross_entropy. intros Hl Hr. revert ds Hl.
  induction Hr as [|r rs Hr Hrs IH]; intros ds Hl Hd.
  - destruct ds; [|done]. cbn. lra.
  - destruct Hd as [|δ ds Hδ Hd]; [done|]. cbn. cbn in Hl.
    specialize (IH ds ltac:(lia) Hd). pose proof (cross_entropy_term r δ Hr Hδ). lra.
Qed.

Lemma cross_entropy_lists (rs ds : list R) :
  length rs = length ds →
  (foldr Rplus 0 (zip_with (λ a b, a * b) (ln <$> rs) (Ropp <$> ds))
   - foldr Rplus 0 (zip_with (λ a b, a * b) (ln <$> ((λ r, 1 - r) <$> rs))
                      ((λ δ, 1 - δ) <$> ds)))%R
  = foldr Rplus 0%R (zip_with (λ r δ, (- (δ * ln r + (1 - δ) * ln (1 - r)))%R) rs ds).
Proof.
  revert ds. induction rs as [|r rs IH]; intros [|δ ds] Hl; try done.
  - cbn. lra.
  - cbn in Hl. cbn. specialize (IH ds ltac:(lia)). lra.
Qed.

Lemma bernoulli_apply x d :
  Fields.field_ok x → Fields.field_ok d → Fields._domain d = Fields._domain x →
  BernoulliEnergy_apply scalar_domain d (VField x)
  = Ok (Fields.constant scalar_domain
          (cross_entropy (Fields.entries x) (Fields.entries d))).
Proof.
  intros Hx Hd Hdom.
  unfold BernoulliEnergy_apply, Operator_check_input.
  cbn [domain_of_value domain_is]. rewrite Hdom, FieldFacts.is_refl.
  cbn [negb mbind result_bind].
  destruct (LinearizationFacts.func1_mapped Klog x Hx) as (lx & Hlx & Hoklx & Hdlx & Helx).
  unfold Linearizations.func1, Fields.log. rewrite Hlx. cbn [fmap result_fmap mbind result_bind].
  destruct (FieldFacts.built_neg d d Hd eq_refl) as (nd & Hnd & Hoknd & Hdnd).
  rewrite Hnd. cbn [mbind result_bind].
  pose proof (FieldMore.neg_entries d nd Hd Hnd) as Hend.
  cbn [vdot]. unfold Fields.vdot at 1.
  rewrite Hdnd, Hdom, <- Hdlx, FieldFacts.is_refl. cbn [negb mbind result_bind].
  unfold binary_scalar.
  destruct (FieldMore.getattr_scalar_built Fields.rsub_ x Kone Hx) as (omx & Homx & Hokomx & Hdomx).
  pose proof (FieldMore.getattr_scalar_entries Fields.rsub_ x Kone omx Hx Homx) as Heomx.
  cbn [Fields.getattr Fields.np_getattr] in Homx, Heomx.
  change (Fields.func2 (λ x0 y : R, Ksub y x0)) with (@Fields.__rsub__ Domain R _) in Homx.
  rewrite Homx. cbn [fmap result_fmap mbind result_bind].
  destruct (LinearizationFacts.func1_mapped Klog omx Hokomx)
    as (lomx & Hlomx & Hoklomx & Hdlomx & Helomx).
  rewrite Hlomx. cbn [fmap result_fmap mbind result_bind].
  destruct (FieldMore.getattr_scalar_built Fields.rsub_ d Kone Hd) as (omd & Homd & Hokomd & Hdomd).
  pose proof (FieldMore.getattr_scalar_entries Fields.rsub_ d Kone omd Hd Homd) as Heomd.
  cbn [Fields.getattr Fields.np_getattr] in Homd, Heomd.
  change (Fields.func2 (λ x0 y : R, Ksub y x0)) with (@Fields.__rsub__ Domain R _) in Homd.
  rewrite Homd. cbn [mbind result_bind vdot].
  unfold Fields.vdot.
  rewrite Hdomd, Hdom, <- Hdomx, <- Hdlomx, FieldFacts.is_refl. cbn [negb mbind result_bind].
  unfold Fields.dobj_vdot, Fields.arr_sum, Fields.arr_zip. cbn [Fields.arr_data].
  unfold Fields.entries in *. rewrite Helx, Hend, Helomx, Heomx, Heomd.
  pose proof (FieldMore.entries_length x Hx) as Hl1.
  pose proof (FieldMore.entries_length d Hd) as Hl2. rewrite Hdom in Hl2.
  unfold Fields.entries in Hl1, Hl2. rewrite <- Hl2 in Hl1.
  unfold cross_entropy. rewrite <- (cross_entropy_lists _ _ Hl1). reflexivity.
Qed.

(** X18. Over the reals, on a prediction with entries strictly between 0
    and 1 and data with entries from 0 to 1 on the same domain,
    [BernoulliEnergy.apply] returns the cross entropy
    [- sum (d ln x + (1 - d) ln (1 - x))] as a Field over the scalar
    domain; it is never negative, and for data strictly between 0 and 1
    it is smallest where the prediction equals the data. *)
Theorem bernoulli_energy_is_cross_entropy x d :
  Fields.field_ok x → Fields.field_ok d → Fields._domain d = Fields._domain x →
  Forall (λ r, 0 < r < 1)%R (Fields.entries x) →
  Forall (λ δ, 0 <= δ <= 1)%R (Fields.entries d) →
  let e := cross_entropy (Fields.entries x) (Fields.entries d) in
  BernoulliEnergy_apply scalar_domain d (VField x) = Ok (Fields.constant scalar_domain e) ∧
  (0 <= e)%R ∧
  (Forall (λ δ, 0 < δ < 1)%R (Fields.entries d) →
   ∃ ed, BernoulliEnergy_apply scalar_domain d (VField d)
         = Ok (Fields.constant scalar_domain ed) ∧ (ed <= e)%R).
Proof.
  intros Hx Hd Hdom Hpx Hpd e. split; [by apply bernoulli_apply|].
  split; [by apply cross_entropy_nonneg|].
  intros Hin. eexists. split; [by apply bernoulli_apply|].
  apply cross_entropy_minimum; [|done|done].
  rewrite !FieldMore.entries_length by done. by rewrite Hdom.
Qed.

Lemma inverse_gamma_apply x d :
  Fields.field_ok x → Fields._domain d = Fields._domain x →
  InverseGammaLikelihood_apply scalar_domain d (VField x)
  = Ok (Fields.constant scalar_domain
          (inverse_gamma_formula (Fields.entries x) (Fields.entries d))).
Proof.
  intros Hx Hdom.
  unfold InverseGammaLikelihood_apply, Operator_check_input.
  cbn [domain_of_value domain_is]. rewrite Hdom, FieldFacts.is_refl.
  cbn [negb mbind result_bind].
  destruct (LinearizationFacts.func1_mapped Klog x Hx) as (lx & Hlx & Hoklx & Hdlx & Helx).
  unfold Linearizations.func1, Fields.log. rewrite Hlx.
  cbn [fmap result_fmap mbind result_bind sum].
  destruct (LinearizationFacts.func2_scalar_mapped (λ a b, Kdiv b a) x Kone Hx)
    as (ix & Hix & Hokix & Hdix & Heix).
  unfold binary_scalar, Fields.__rtruediv__. rewrite Hix.
  cbn [fmap result_fmap mbind result_bind vdot]. unfold Fields.vdot.
  rewrite Hdom, <- Hdix, FieldFacts.is_refl. cbn [negb mbind result_bind].
  unfold Fields.sum, Fields.dobj_vdot, Fields.arr_sum, Fields.arr_zip. cbn [Fields.arr_data].
  unfold Fields.entries in *. rewrite Helx, Heix. unfold inverse_gamma_formula.
  by rewrite zip_with_fmap_l.
Qed.

Lemma inverse_gamma_term (r δ : R) :
  (0 < r)%R → (0 < δ)%R →
  (ln δ + 1 / δ * δ <= ln r + 1 / r * δ)%R ∧ (ln r + 1 / r * δ = ln δ + 1 / δ * δ → r = δ)%R.
Proof.
  intros Hr Hd.
  assert (Ht : (0 < δ / r)%R) by (by apply Rdiv_lt_0_compat).
  destruct (ln_le_minus_one _ Ht) as [Hle Heq]. rewrite ln_quotient in Hle, Heq by done.
  assert (H1 : (1 / δ * δ = 1)%R) by (field; lra).
  assert (H2 : (1 / r * δ = δ / r)%R) by (field; lra).
  rewrite H1, H2. split; [lra|]. intros He.
  assert (Hone : (δ / r = 1)%R) by (apply Heq; lra).
  assert (δ = δ / r * r)%R by (field; lra). rewrite Hone in *. lra.
Qed.

Lemma inverse_gamma_list_minimum (rs ds : list R) :
  length rs = length ds →
  Forall (λ r, 0 < r)%R rs → Forall (λ δ, 0 < δ)%R ds →
  (inverse_gamma_formula ds ds <= inverse_gamma_formula rs ds)%R ∧
  (inverse_gamma_formula rs ds = inverse_gamma_formula ds ds → rs = ds).
Proof.
  intros Hl Hr Hd.
  assert (Hsum : ∀ l k : list R, length l = length k →
            (foldr Rplus 0 (ln <$> l) + foldr Rplus 0 (zip_with (λ r δ, 1 / r * δ) l k))%R
            = foldr Rplus 0%R (zip_with (λ r δ, ln r + 1 / r * δ)%R l k)).
  { induction l as [|a l IH]; intros [|b k] Hlk; try done; cbn; [lra|].
    cbn in Hlk. specialize (IH k ltac:(lia)). lra. }
  unfold inverse_gamma_formula. rewrite !Hsum by done. clear Hsum.
  assert (Hmin : (foldr Rplus 0 (zip_with (λ r δ, ln r + 1 / r * δ) ds ds)
                  <= foldr Rplus 0 (zip_with (λ r δ, ln r + 1 / r * δ) rs ds))%R ∧
                 (foldr Rplus 0 (zip_with (λ r δ, ln r + 1 / r * δ) rs ds)
                  = foldr Rplus 0 (zip_with (λ r δ, ln r + 1 / r * δ) ds ds) → rs = ds)%R).
  { revert ds Hl Hd. induction Hr as [|r rs Hr Hrs IH]; intros ds Hl Hd.
    - destruct ds; [|done]. cbn. split; [lra|done].
    - destruct Hd as [|δ ds Hδ Hd]; [done|]. cbn. cbn in Hl.
      destruct (IH ds ltac:(lia) Hd) as [Hle Heq].
      destruct (inverse_gamma_term r δ Hr Hδ) as [Hle1 Heq1].
      split; [lra|]. intros He.
      assert (r = δ) as -> by (apply Heq1; lra). f_equal. apply Heq. lra. }
  destruct Hmin as [Hle Heq]. split; [lra|]. intros He. apply Heq. lra.
Qed.

(** X24. Over the reals, on a prediction [x] and data [d] with positive
    entries on one domain, [InverseGammaLikelihood.apply] returns
    [(sum(log(x)) + <1/x, d>) / 2] as a Field over the scalar domain, and
    this energy is smallest where the prediction equals the data: the
    energy at [x] is at least the energy at [d], and equal to it only if
    [x] has the entries of [d]. *)
Theorem inverse_gamma_minimum x d :
  Fields.field_ok x → Fields.field_ok d → Fields._domain d = Fields._domain x →
  Forall (λ r, 0 < r)%R (Fields.entries x) → Forall (λ δ, 0 < δ)%R (Fields.entries d) →
  ∃ ex ed,
    InverseGammaLikelihood_apply scalar_domain d (VField x)
    = Ok (Fields.constant scalar_domain ex) ∧
    ex = inverse_gamma_formula (Fields.entries x) (Fields.entries d) ∧
    InverseGammaLikelihood_apply scalar_domain d (VField d)
    = Ok (Fields.constant scalar_domain ed) ∧
    (ed <= ex)%R ∧ (ex = ed → Fields.entries x = Fields.entries d).
Proof.
  intros Hx Hd Hdom Hpx Hpd.
  eexists _, _. split; [by apply inverse_gamma_apply|]. split; [done|].
  split; [by apply inverse_gamma_apply|].
  apply inverse_gamma_list_minimum; [|done|done].
  rewrite !FieldMore.entries_length by done. by rewrite Hdom.
Qed.

End real_energies.

Section gradient.

Context {Domain : Type}.
#[local] Abbreviation DomainTuple := (@DomainTuples.DomainTuple Domain).
#[local] Abbreviation Field := (@Fields.Field Domain R).
#[local] Abbreviation value := (@Operators.value Domain R).
#[local] Abbreviation LinearOperator := (@Operators.LinearOperator Domain R).

Variable scalar_domain : DomainTuple.
Hypothesis scalar_shape : DomainTuples._shape scalar_domain = [].

Implicit Types (x d : Field).

#[local] Abbreviation one := (Fields.constant scalar_domain 1%R).
#[local] Abbreviation J x := (ScalingOperator 1%R (DomTuple (Fields._domain x)) _all_ops).

Lemma item_of_one : Fields.item one = Ok 1%R.
Proof. unfold Fields.item. cbn. by rewrite scalar_shape. Qed.

Lemma scaling_one_adjoint x (v : Field) :
  Fields._domain v = Fields._domain x →
  apply scalar_domain (J x) (VField v) ADJOINT_TIMES = Ok (VField v).
Proof.
  intros Hd. cbn [apply].
  rewrite OperatorFacts.scaling_check by (done || (cbn; rewrite Hd; apply FieldFacts.is_refl)).
  cbn [mbind result_bind]. unfold ScalingOperator_apply.
  by rewrite (Keqb_refl (K := R)).
Qed.

(** The adjoint of the Jacobian of [x.sum()] on the one of the scalar
    domain. *)
Lemma sum_jacobian_adjoint x :
  apply scalar_domain (chain (SumReductionOperator (DomTuple (Fields._domain x))) (J x))
    (VField one) ADJOINT_TIMES
  = Ok (VField (Fields.constant (Fields._domain x) 1%R)).
Proof.
  eapply OperatorMore.chain_adjoint; [done|done|by cbn; apply FieldFacts.is_refl| |].
  - cbn [apply]. rewrite OperatorMore.check_adjoint;
      [|done|by cbn; apply FieldFacts.is_refl].
    cbn [mbind result_bind]. unfold SumReductionOperator_apply.
    change (ADJOINT_TIMES =? TIMES)%N with false. cbn [item]. rewrite item_of_one. reflexivity.
  - by apply scaling_one_adjoint.
Qed.

(** The adjoint of the Jacobian of [x.log().vdot(d)] on the one of the
    scalar domain: [d / x]. *)
Lemma log_vdot_jacobian_adjoint x d (ix : Field) :
  Fields.field_ok x → Fields.field_ok d → Fields._domain d = Fields._domain x →
  Fields.field_ok ix → Fields._domain ix = Fields._domain x →
  Fields.entries ix = (λ v, 1 / v)%R <$> Fields.entries x →
  ∃ r, apply scalar_domain
         (chain (VdotOperator (VField d)) (chain (makeOp (VField ix)) (J x)))
         (VField one) ADJOINT_TIMES = Ok (VField r) ∧
       Fields.field_ok r ∧ Fields._domain r = Fields._domain x ∧
       Fields.entries r = zip_with (λ r δ, δ * (1 / r))%R (Fields.entries x) (Fields.entries d).
Proof.
  intros Hx Hd Hdom Hix Hdix Heix.
  destruct (FieldMore.mul_scalar_built d 1%R Hd) as (d1 & Hd1 & Hokd1 & Hdd1).
  pose proof (FieldMore.mul_scalar_entries d 1%R d1 Hd Hd1) as Hed1.
  destruct (FieldFacts.mul_built d1 ix Hokd1 Hix) as (r & Hr & Hokr & Hdr); [congruence|].
  pose proof (FieldMore.mul_entries_exact d1 ix r Hokd1 Hix ltac:(congruence) Hr) as Her.
  exists r. split; [|split; [done|split; [congruence|]]].
  - eapply OperatorMore.chain_adjoint; [done|done|by cbn; apply FieldFacts.is_refl| |].
    + cbn [apply]. rewrite OperatorMore.check_adjoint;
        [|done|by cbn; apply FieldFacts.is_refl].
      cbn [mbind result_bind]. unfold VdotOperator_apply.
      change (ADJOINT_TIMES =? TIMES)%N with false. cbn [item]. rewrite item_of_one.
      cbn [mbind result_bind]. unfold mul_scalar, binary_scalar. rewrite Hd1. reflexivity.
    + eapply OperatorMore.chain_adjoint; [done|done| | |].
      * cbn. rewrite Hdix, Hdd1, Hdom. apply FieldFacts.is_refl.
      * unfold makeOp. cbn [apply]. rewrite OperatorMore.check_adjoint; [|done|].
        2:{ cbn. rewrite Hdix, Hdd1, Hdom. apply FieldFacts.is_refl. }
        cbn [mbind result_bind]. unfold DiagonalOperator_apply.
        change (negb (N.land ADJOINT_TIMES 10 =? 0)%N) with true.
        change (negb (N.land ADJOINT_TIMES 12 =? 0)%N) with false.
        cbn [conjugate Fields.conjugate Kcomplexfloating R_Scalar fmap result_fmap
               mbind result_bind].
        unfold mul, binary. rewrite Hr. reflexivity.
      * apply scaling_one_adjoint. congruence.
  - rewrite Her, Hed1, Heix. rewrite zip_with_fmap_l, zip_with_fmap_r.
    clear. generalize (Fields.entries x). induction (Fields.entries d) as [|δ ds IH].
    + by intros [|ρ rs].
    + intros [|ρ rs]; [done|]. cbn. rewrite IH. f_equal. lra.
Qed.

Lemma scaling_minus_one_adjoint x (v : Field) :
  Fields.field_ok v → Fields._domain v = Fields._domain x →
  ∃ r, apply scalar_domain (ScalingOperator (Kneg Kone) (DomTuple (Fields._domain x)) _all_ops)
         (VField v) ADJOINT_TIMES = Ok (VField r) ∧
       Fields.field_ok r ∧ Fields._domain r = Fields._domain x ∧
       Fields.entries r = (λ t, t * Ropp 1)%R <$> Fields.entries v.
Proof.
  intros Hv Hd.
  destruct (FieldMore.mul_scalar_built v (Ropp 1) Hv) as (r & Hr & Hokr & Hdr).
  pose proof (FieldMore.mul_scalar_entries v (Ropp 1) r Hv Hr) as Her.
  exists r. split; [|split; [done|split; [congruence|done]]].
  cbn [apply].
  rewrite OperatorFacts.scaling_check by (done || (cbn; rewrite Hd; apply FieldFacts.is_refl)).
  cbn [mbind result_bind]. unfold ScalingOperator_apply. cbn [Keqb Kone Kzero Kneg Kconj R_Scalar].
  rewrite !bool_decide_eq_false_2 by lra.
  change (negb (N.land ADJOINT_TIMES 10 =? 0)%N) with true.
  change (negb (N.land ADJOINT_TIMES 12 =? 0)%N) with false.
  cbn iota. unfold mul_scalar, binary_scalar. by rewrite Hr.
Qed.

(** X23. The gradient of the Poisson energy.  For the Linearization
    [make_var(x)] of a real Field [x] and data [d] on the same domain,
    [x.sum() - x.log().vdot(d)] is a Linearization whose value is
    [sum(x) - <log(x), d>] and whose gradient has the entries
    [1 - d / x]. *)
Theorem poisson_gradient x d :
  Fields.field_ok x → Fields.field_ok d → Fields._domain d = Fields._domain x →
  ∃ L v g,
    (L0 ← Linearizations.make_var (VField x); res_linearization scalar_domain L0 (VField d))
    = Ok L ∧
    Linearizations._val L = VField v ∧
    Fields.entries v = [real_formula (Fields.entries x) (Fields.entries d)] ∧
    Linearizations.gradient scalar_domain L = Ok (VField g) ∧
    Fields._domain g = Fields._domain x ∧
    Fields.entries g = zip_with (λ r δ, 1 - δ / r)%R (Fields.entries x) (Fields.entries d).
Proof.
  intros Hx Hd Hdom.
  destruct (LinearizationFacts.func1_mapped Klog x Hx) as (lx & Hlx & Hoklx & Hdlx & Helx).
  destruct (LinearizationFacts.func2_scalar_mapped (λ a b, Kdiv b a) x Kone Hx)
    as (ix & Hix & Hokix & Hdix & Heix).
  destruct (log_vdot_jacobian_adjoint x d ix Hx Hd Hdom Hokix Hdix Heix)
    as (r1 & Hr1 & Hokr1 & Hdr1 & Her1).
  destruct (scaling_minus_one_adjoint x r1 Hokr1 Hdr1) as (r2 & Hr2 & Hokr2 & Hdr2 & Her2).
  set (S := Fields.sum x).
  set (V := Fields.dobj_vdot (Fields._val lx) (Fields._val d)).
  destruct (FieldFacts.add_built (Fields.constant scalar_domain S)
              (Fields.constant scalar_domain (Kneg V)))
    as (v & Hv & Hokv & Hdv); [apply FieldFacts.constant_ok..|done|].
  pose proof (FieldMore.add_entries (Fields.constant scalar_domain S)
                (Fields.constant scalar_domain (Kneg V)) v (FieldFacts.constant_ok _ _)
                (FieldFacts.constant_ok _ _) eq_refl Hv) as Hev.
  destruct (FieldFacts.add_built (Fields.constant (Fields._domain x) 1%R) r2)
    as (g & Hg & Hokg & Hdg); [apply FieldFacts.constant_ok|done|done|].
  pose proof (FieldMore.add_entries (Fields.constant (Fields._domain x) 1%R) r2 g
                (FieldFacts.constant_ok _ _) Hokr2 Hdr2 Hg) as Heg.
  assert (Hchk : Fields.is_ (Fields._domain d) (Fields._domain lx) = true).
  { rewrite Hdom, Hdlx. apply FieldFacts.is_refl. }
  eexists _, v, g. split.
  { unfold Linearizations.make_var, ScalingOperator__init__, res_linearization,
      Linearizations.sum, Linearizations.log, Linearizations.func1, binary_scalar,
      Linearizations.vdot, Linearizations.__sub__, Linearizations.neg_operand,
      Linearizations.__neg__, Linearizations.__add__, Linearizations.Linearization_.
    cbn [mbind result_bind Linearizations._val Linearizations._jac Linearizations._metric
           Operators.sum Fields.__init__ domain_of_value op_target].
    unfold Fields.log, Fields.__rtruediv__. rewrite Hlx, Hix.
    cbn [fmap result_fmap mbind result_bind Linearizations._val Linearizations._jac
           Linearizations._metric vdot].
    unfold Fields.vdot. rewrite Hchk.
    cbn [negb mbind result_bind Fields.__init__ Linearizations._val Linearizations._jac
           Linearizations._metric neg fmap result_fmap Fields.__neg__ Fields._uni
           Fields._domain unite].
    unfold Fields.unite.
    change (Fields.__add__ ?a (Fields.OField ?b))
      with (Fields.__add__ (Fields.constant scalar_domain S)
              (Fields.OField (Fields.constant scalar_domain (Kneg V)))).
    rewrite Hv. reflexivity. }
  cbn [Linearizations._val]. split; [done|]. split.
  { rewrite Hev. unfold Fields.entries. cbn. rewrite scalar_shape. cbn.
    f_equal. unfold real_formula, S, V, Fields.sum, Fields.arr_sum, Fields.dobj_vdot,
      Fields.arr_sum, Fields.arr_zip. cbn [Fields.arr_data].
    unfold Fields.entries in Helx. rewrite Helx, zip_with_fmap_l. cbn. lra. }
  split.
  { unfold Linearizations.gradient. cbn [Linearizations._jac op_target chain].
    cbn [Fields.__init__ mbind result_bind].
    rewrite (OperatorMore.relaxed_sum_adjoint scalar_domain _ _ _
               (VField (Fields.constant (Fields._domain x) 1%R)) (VField r2)).
    - unfold add, binary. rewrite Hg. reflexivity.
    - done.
    - done.
    - cbn. apply FieldFacts.is_refl.
    - apply sum_jacobian_adjoint.
    - unfold chain_scalar.
      eapply OperatorMore.chain_adjoint; [done|done|by cbn; apply FieldFacts.is_refl| |].
      + exact Hr1.
      + cbn [op_domain chain makeOp]. exact Hr2. }
  split; [by rewrite Hdg|].
  rewrite Heg, Her2, Her1. unfold Fields.entries at 1.
  cbn [Fields.constant Fields._val Fields.uniform_full Fields.arr_data Fields._domain].
  rewrite <- (FieldMore.entries_length x Hx).
  clear. generalize (Fields.entries d). induction (Fields.entries x) as [|ρ rs IH].
  - by intros [|δ ds].
  - intros [|δ ds]; [done|]. cbn. cbn in IH. rewrite IH. f_equal. lra.
Qed.

End gradient.
End EnergyMore.

(** ** [_MinHelper]: the energy it holds *)

Module MinimizerMore.
Import Minimizers.
Section helper.

Context {Domain : Type} {K : Type} `{ExactRing K}.
#[local] Abbreviation DomainTuple := (@DomainTuples.DomainTuple Domain).
#[local] Abbreviation Field := (@Fields.Field Domain K).
#[local] Abbreviation Energy := (@Minimizers.Energy Domain K).

Implicit Types (x : list K) (dom : DomainTuple) (e : Energy).

Lemma differs_false (l k : list K) :
  length l = length k →
  existsb (λ ab : K * K, negb (Keqb ab.1 ab.2)) (zip l k) = false ↔ l = k.
Proof.
  revert k. induction l as [|a l IH]; intros [|b k] Hl; try done. cbn in Hl. cbn.
  rewrite orb_false_iff, IH by lia. rewrite negb_false_iff. split.
  - intros [Hab ->]. by rewrite (Keqb_eq _ _ Hab).
  - intros [= -> ->]. split; [apply Keqb_refl|done].
Qed.

Lemma update_spec dom x e :
  Fields.field_ok (position e) → Fields._domain (position e) = dom →
  length x = Fields.arr_size (DomainTuples._shape dom) →
  ∃ e', _update dom x e = Ok ((), e') ∧
        Fields.entries (position e') = x ∧
        Fields._domain (position e') = dom ∧
        Fields.field_ok (position e') ∧
        value_at e' = value_at e ∧ gradient_at e' = gradient_at e ∧
        metric_at e' = metric_at e ∧ quadratic e' = quadratic e ∧
        (Fields.entries (position e) = x ↔ e' = e).
Proof.
  intros Hok Hd Hl. unfold _update. rewrite MinimizerFacts.toField_ok by done.
  cbn [mbind result_bind Fields._domain]. rewrite Hd, FieldFacts.is_refl. cbn [negb].
  pose proof (FieldMore.entries_length _ Hok) as Hle. rewrite Hd, <- Hl in Hle.
  unfold differs. cbn [Fields._val Fields.arr_data].
  destruct (existsb _ _) eqn:Hdiff.
  - eexists. split; [done|]. cbn. split; [done|]. split; [done|].
    split; [by apply FieldFacts.array_ok|]. repeat (split; [done|]).
    split.
    + intros He.
      pose proof (proj2 (differs_false x (Fields.entries (position e)) (eq_sym Hle))
                    (eq_sym He)) as Hf.
      unfold Fields.entries in Hf. rewrite Hf in Hdiff. discriminate.
    + intros He. rewrite <- He in Hdiff. cbn in Hdiff.
      pose proof (proj2 (differs_false x x eq_refl) eq_refl) as Hf.
      rewrite Hf in Hdiff. discriminate.
  - apply (differs_false x (Fields.entries (position e)) (eq_sym Hle)) in Hdiff.
    exists e. split; [done|]. repeat (split; [done|]). done.
Qed.

(** X19. Whatever point [x] scipy asks the helper about, the helper holds
    the energy at that point afterwards: [fun] returns the value there and
    [jac] the gradient there; the energy it held is kept exactly when it
    was at [x] already, and replaced by [energy.at(x)] otherwise.  A point
    with another number of entries than the domain has is refused by
    [reshape]. *)
Theorem helper_tracks_the_point dom x e :
  Fields.field_ok (position e) → Fields._domain (position e) = dom →
  (length x = Fields.arr_size (DomainTuples._shape dom) →
   ∃ e', Fields.entries (position e') = x ∧ Fields._domain (position e') = dom ∧
         fun_ dom x e = Ok (value_at e (position e'), e') ∧
         jac dom x e = Ok (_toArray_rw (gradient_at e (position e')), e') ∧
         (Fields.entries (position e) = x → e' = e) ∧
         (Fields.entries (position e) ≠ x → ∃ pos, _toField x dom = Ok pos ∧ e' = at_ e pos)) ∧
  (length x ≠ Fields.arr_size (DomainTuples._shape dom) →
   fun_ dom x e = Raise (ValueError "cannot reshape array") ∧
   jac dom x e = Raise (ValueError "cannot reshape array")).
Proof.
  intros Hok Hd. split.
  - intros Hl.
    destruct (update_spec dom x e Hok Hd Hl)
      as (e' & Hu & He & Hde & _ & Hv & Hg & _ & _ & Hsame).
    exists e'. split; [done|]. split; [done|].
    unfold fun_, jac. rewrite Hu. cbn [mbind result_bind snd]. rewrite Hv, Hg.
    split; [done|]. split; [done|]. split; [by intros ?%Hsame|].
    intros Hne. revert Hu. unfold _update. rewrite MinimizerFacts.toField_ok by done.
    cbn [mbind result_bind Fields._domain]. rewrite Hd, FieldFacts.is_refl. cbn [negb].
    destruct (differs _ _) eqn:Hdiff.
    + intros [= <-]. by eexists.
    + intros [= <-]. exfalso. apply Hne. by apply Hsame.
  - intros Hl. unfold fun_, jac, _update, _toField.
    by rewrite bool_decide_eq_false_2.
Qed.

End helper.
End MinimizerMore.

(** ** [Field.weight] of nifty: powers of the volume *)

Module WeightFacts.
Import Nifty3.

Implicit Types (self : Field) (a : array) (I : list nat) (dom : list Space).

(** [x ** y] on a positive [x] is the power of the reals, whatever [y]. *)
Lemma R_pow_pos (v y : R) : (0 < v)%R → R_pow v y = Rpower v y.
Proof.
  intros Hv. unfold R_pow. case_decide as Hy; [|done].
  rewrite powerRZ_Rpower by done. by rewrite Hy.
Qed.

Lemma R_pow_int (v : R) (n : Z) : R_pow v (IZR n) = powerRZ v n.
Proof.
  unfold R_pow.
  assert (Hi : Int_part (IZR n) = n) by (symmetry; apply Int_part_spec; lra).
  by rewrite Hi, decide_True.
Qed.

Lemma weight_factor_add (spaces : list nat) (p q : R) (ind : nat) dom I :
  Forall (λ sp, ∀ J, (0 < dvol sp J)%R) dom →
  (weight_factor spaces p ind dom I * weight_factor spaces q ind dom I)%R
  = weight_factor spaces (p + q) ind dom I.
Proof.
  intros Hpos. revert ind I. induction Hpos as [|sp dom Hsp Hpos IH]; intros ind I.
  - cbn. lra.
  - cbn [weight_factor]. rewrite <- IH. case_bool_decide; [|lra].
    rewrite !R_pow_pos by apply Hsp. rewrite Rpower_plus. lra.
Qed.

Lemma weight_factor_zero (spaces : list nat) (ind : nat) dom I :
  weight_factor spaces 0 ind dom I = 1%R.
Proof.
  revert ind I. induction dom as [|sp dom IH]; intros ind I; [done|].
  cbn [weight_factor]. rewrite IH. case_bool_decide; [|lra].
  rewrite (R_pow_int _ 0). cbn. lra.
Qed.

(** X20. [Field.weight] returns a Field of the same domain and shape in
    which each entry is the entry of [self] multiplied by the volumes, to
    the given power, of the cells that the entry has in the chosen spaces
    (in all of them when none is chosen); the power is any number.  So on
    a domain whose cells have positive volumes, weighting with the power
    [p] and then with [q] over the same spaces multiplies by the volumes to
    the power [p + q], as weighting with [p + q] does; the power 0 changes
    nothing, and the power [-p] undoes the power [p]. *)
Theorem weight_powers_add self (p q : R) (spaces : option (list nat)) :
  field_ok self →
  Forall (λ sp, ∀ J, (0 < dvol sp J)%R) (domain self) →
  let chosen := default (seq 0 (length (domain self))) spaces in
  ∃ once twice both none back,
    weight self p spaces = Ok once ∧
    weight once q spaces = Ok twice ∧
    weight self (p + q) spaces = Ok both ∧
    weight self 0 spaces = Ok none ∧
    weight once (- p) spaces = Ok back ∧
    domain once = domain self ∧
    arr_shape (val once) = arr_shape (val self) ∧
    ∀ I, I ∈ indices (arr_shape (val self)) →
      entry (val once) I
      = Cmul (entry (val self) I) (RtoC (weight_factor chosen p 0 (domain self) I)) ∧
      entry (val twice) I
      = Cmul (entry (val self) I) (RtoC (weight_factor chosen (p + q) 0 (domain self) I)) ∧
      entry (val twice) I = entry (val both) I ∧
      entry (val none) I = entry (val self) I ∧
      entry (val back) I = entry (val self) I.
Proof.
  intros Hok Hpos chosen.
  destruct (InnerProductFacts.weight_entry self p spaces) as (once & Hp & Hd & Hs & He).
  destruct (InnerProductFacts.weight_entry once q spaces) as (twice & Hq & _ & _ & Het).
  destruct (InnerProductFacts.weight_entry self (p + q) spaces) as (both & Hpq & _ & _ & Heb).
  destruct (InnerProductFacts.weight_entry self 0 spaces) as (none & H0 & _ & _ & He0).
  destruct (InnerProductFacts.weight_entry once (- p) spaces) as (back & Hb & _ & _ & Hebk).
  rewrite Hd in Het, Hebk. fold chosen in He, Het, Heb, He0, Hebk.
  exists once, twice, both, none, back. repeat (split; [done|]).
  intros I HI. apply InnerProductFacts.indices_length in HI.
  unfold field_ok in Hok. rewrite Hok in HI.
  assert (Hl : length (concat (shape <$> domain self)) ≤ length I) by lia.
  assert (Htw : entry (val twice) I
                = Cmul (entry (val self) I)
                    (RtoC (weight_factor chosen (p + q) 0 (domain self) I))).
  { rewrite (Het I Hl), (He I Hl).
    by rewrite <- InnerProductFacts.Cmul_assoc, InnerProductFacts.Cmul_real,
         weight_factor_add. }
  split; [by apply He|]. split; [exact Htw|]. split; [by rewrite Htw, (Heb I Hl)|].
  split.
  - rewrite (He0 I Hl), weight_factor_zero. apply InnerProductFacts.Cmul_one.
  - rewrite (Hebk I Hl), (He I Hl).
    rewrite <- InnerProductFacts.Cmul_assoc, InnerProductFacts.Cmul_real, weight_factor_add
      by done.
    replace (p + - p)%R with 0%R by lra.
    rewrite weight_factor_zero. apply InnerProductFacts.Cmul_one.
Qed.

End WeightFacts.

(** ** [Linearization]: products and gradients *)

Module LinearizationMore.
Import Operators Linearizations.
Section products.

Context {Domain : Type} {K : Type} `{ExactRing K}.
#[local] Abbreviation DomainTuple := (@DomainTuples.DomainTuple Domain).
#[local] Abbreviation Field := (@Fields.Field Domain K).
#[local] Abbreviation value := (@Operators.value Domain K).
#[local] Abbreviation LinearOperator := (@Operators.LinearOperator Domain K).
#[local] Abbreviation Linearization := (@Linearizations.Linearization Domain K).

Variable scalar_domain : DomainTuple.

Implicit Types (f g t y : Field) (L : Linearization) (J : LinearOperator).

(** A chain of a diagonal operator and [J], applied in the mode [TIMES]
    to a tangent that [J] takes to a Field on the domain of the diagonal. *)
Lemma diagonal_chain_entries g J (x : value) y :
  (N.land TIMES (capability J) =? 0)%N = false →
  domain_is (op_domain scalar_domain J) (domain_of_value x) = true →
  apply scalar_domain J x TIMES = Ok (VField y) →
  Fields.field_ok g → Fields.field_ok y → Fields._domain y = Fields._domain g →
  ∃ r, apply scalar_domain (chain (makeOp (VField g)) J) x TIMES = Ok (VField r) ∧
       Fields.field_ok r ∧ Fields._domain r = Fields._domain g ∧
       Fields.entries r = zip_with Kmul (Fields.entries y) (Fields.entries g).
Proof.
  intros Hc Hd HJ Hg Hy Hdy.
  rewrite (LinearizationFacts.apply_diagonal_chain scalar_domain (VField g) J x (VField y)).
  3: exact HJ.
  - unfold mul, binary.
    destruct (FieldFacts.mul_built y g Hy Hg (eq_sym Hdy)) as (r & Hr & Hok & Hdr).
    rewrite Hr. exists r. split; [done|]. split; [done|]. split; [congruence|].
    by apply FieldMore.mul_entries_exact.
  - apply OperatorMore.check_forward; [|done].
    cbn [chain makeOp capability]. by apply OperatorMore.forward_bit_land.
  - apply OperatorMore.check_forward; [done|]. cbn. rewrite Hdy. apply FieldFacts.is_refl.
Qed.

(** X22. The product rule.  For two Linearizations with the Fields [f]
    and [g] of one domain as values, [__mul__] returns a Linearization
    with the value [f * g], and its Jacobian takes a tangent [t] to
    [g * (J1 t) + f * (J2 t)], where [J1 t] and [J2 t] are what the
    Jacobians of the two factors return for [t]. *)
Theorem product_rule L1 L2 f g t y1 y2 :
  _val L1 = VField f → _val L2 = VField g →
  Fields.field_ok f → Fields.field_ok g → Fields._domain g = Fields._domain f →
  (N.land TIMES (capability (_jac L1)) =? 0)%N = false →
  (N.land TIMES (capability (_jac L2)) =? 0)%N = false →
  domain_is (op_domain scalar_domain (_jac L1)) (DomTuple (Fields._domain t)) = true →
  domain_is (op_domain scalar_domain (_jac L2)) (DomTuple (Fields._domain t)) = true →
  apply scalar_domain (_jac L1) (VField t) TIMES = Ok (VField y1) →
  apply scalar_domain (_jac L2) (VField t) TIMES = Ok (VField y2) →
  Fields.field_ok y1 → Fields.field_ok y2 →
  Fields._domain y1 = Fields._domain f → Fields._domain y2 = Fields._domain f →
  ∃ L fg r,
    __mul__ scalar_domain L1 (OLinearization L2) = Ok L ∧
    _val L = VField fg ∧ Fields._domain fg = Fields._domain f ∧
    Fields.entries fg = zip_with Kmul (Fields.entries f) (Fields.entries g) ∧
    apply scalar_domain (_jac L) (VField t) TIMES = Ok (VField r) ∧
    Fields._domain r = Fields._domain f ∧
    Fields.entries r
    = zip_with Kadd (zip_with Kmul (Fields.entries y1) (Fields.entries g))
                    (zip_with Kmul (Fields.entries y2) (Fields.entries f)).
Proof.
  intros Hv1 Hv2 Hf Hg Hdg Hc1 Hc2 Hd1 Hd2 HJ1 HJ2 Hy1 Hy2 Hdy1 Hdy2.
  destruct (FieldFacts.mul_built f g Hf Hg Hdg) as (fg & Hfg & Hokfg & Hdfg).
  pose proof (FieldMore.mul_entries_exact f g fg Hf Hg Hdg Hfg) as Hefg.
  destruct (diagonal_chain_entries g (_jac L1) (VField t) y1 Hc1 Hd1 HJ1 Hg Hy1)
    as (r1 & Hr1 & Hokr1 & Hdr1 & Her1); [congruence|].
  destruct (diagonal_chain_entries f (_jac L2) (VField t) y2 Hc2 Hd2 HJ2 Hf Hy2)
    as (r2 & Hr2 & Hokr2 & Hdr2 & Her2); [congruence|].
  destruct (FieldFacts.add_built r1 r2 Hokr1 Hokr2) as (r & Hr & Hokr & Hdr); [congruence|].
  pose proof (FieldMore.add_entries r1 r2 r Hokr1 Hokr2 ltac:(congruence) Hr) as Her.
  eexists _, fg, r. split.
  { unfold __mul__. rewrite Hv1, Hv2. unfold mul, binary. rewrite Hfg. reflexivity. }
  cbn [_val _jac Linearization_]. split; [done|]. split; [done|]. split; [done|]. split.
  - change (apply scalar_domain (SumOperator ?a ?b) ?x ?m)
      with (_ ← _check_input scalar_domain (SumOperator a b) x m;
            z1 ← apply scalar_domain a x m; z2 ← apply scalar_domain b x m; add z1 z2).
    rewrite OperatorMore.check_forward.
    + cbn [mbind result_bind]. rewrite Hr1, Hr2. cbn [mbind result_bind].
      unfold add, binary. by rewrite Hr.
    + cbn [chain makeOp capability].
      apply OperatorMore.forward_bit_land; by apply OperatorMore.forward_bit_land.
    + done.
  - split; [congruence|]. by rewrite Her, Her1, Her2.
Qed.

End products.

Section gradients.

Context {Domain : Type} {K : Type} `{ExactRing K}.
#[local] Abbreviation DomainTuple := (@DomainTuples.DomainTuple Domain).
#[local] Abbreviation Field := (@Fields.Field Domain K).
#[local] Abbreviation value := (@Operators.value Domain K).
#[local] Abbreviation LinearOperator := (@Operators.LinearOperator Domain K).
#[local] Abbreviation Linearization := (@Linearizations.Linearization Domain K).

Variable scalar_domain : DomainTuple.
Hypothesis scalar_shape : DomainTuples._shape scalar_domain = [].

Implicit Types (x w : Field) (L : Linearization) (J : LinearOperator).

Lemma item_one : Fields.item (Fields.constant scalar_domain (Kone : K)) = Ok Kone.
Proof. unfold Fields.item. cbn. by rewrite scalar_shape. Qed.

Lemma apply_scaling_one (d : DomainTuple) (v : Field) (mode : N) :
  _validMode mode = true → Fields._domain v = d →
  apply scalar_domain (ScalingOperator Kone (DomTuple d) _all_ops) (VField v) mode
  = Ok (VField v).
Proof.
  intros Hm <-. cbn [apply].
  rewrite OperatorFacts.scaling_check by (done || apply FieldFacts.is_refl).
  cbn [mbind result_bind]. unfold ScalingOperator_apply. by rewrite Keqb_refl.
Qed.

(** The adjoint of a chain of an operator with target the scalar domain
    and the scaling by one, applied to the one of the scalar domain. *)
Lemma gradient_of_chain (val : value) (op : LinearOperator) (d : DomainTuple) (g : Field) :
  capability op = N.lor TIMES ADJOINT_TIMES →
  op_target scalar_domain op = DomTuple scalar_domain →
  apply scalar_domain op (VField (Fields.constant scalar_domain Kone)) ADJOINT_TIMES
  = Ok (VField g) →
  Fields._domain g = d →
  gradient scalar_domain
    (Linearization_ val (chain op (ScalingOperator Kone (DomTuple d) _all_ops)))
  = Ok (VField g).
Proof.
  intros Hc Ht Hop Hd. unfold gradient, chain. cbn [_jac Linearization_ op_target]. rewrite Ht.
  change (Fields.__init__ scalar_domain (inr Kone))
    with (Ok (Fields.constant scalar_domain (Kone : K))).
  cbn [mbind result_bind].
  change (apply scalar_domain (ChainOperator ?a ?b) ?v ADJOINT_TIMES)
    with (_ ← _check_input scalar_domain (ChainOperator a b) v ADJOINT_TIMES;
          z ← apply scalar_domain a v ADJOINT_TIMES; apply scalar_domain b z ADJOINT_TIMES).
  rewrite OperatorMore.check_adjoint.
  - cbn [mbind result_bind]. rewrite Hop. cbn [mbind result_bind].
    by apply apply_scaling_one.
  - cbn [capability]. by rewrite Hc.
  - cbn [op_target]. rewrite Ht. cbn. apply FieldFacts.is_refl.
Qed.

(** X21. The gradients of the two linear functionals.  For the
    Linearization [make_var(x)] of a Field [x], the gradient of its [sum]
    is the Field with the entry one everywhere on the domain of [x], and
    the gradient of its [vdot] with a Field [w] of that domain has the
    entries of [w]. *)
Theorem gradients_of_sum_and_vdot x w :
  Fields.field_ok x → Fields.field_ok w → Fields._domain w = Fields._domain x →
  ∃ Ls Lv gs gv,
    (L ← make_var (VField x); sum scalar_domain L) = Ok Ls ∧
    gradient scalar_domain Ls = Ok (VField gs) ∧
    Fields._domain gs = Fields._domain x ∧
    Fields.entries gs = replicate (length (Fields.entries x)) Kone ∧
    (L ← make_var (VField x); vdot scalar_domain L (inl (VField w))) = Ok Lv ∧
    gradient scalar_domain Lv = Ok (VField gv) ∧
    Fields._domain gv = Fields._domain x ∧
    Fields.entries gv = Fields.entries w.
Proof.
  intros Hx Hw Hd.
  destruct (FieldMore.mul_scalar_built w Kone Hw) as (gv & Hgv & Hokgv & Hdgv).
  pose proof (FieldMore.mul_scalar_entries w Kone gv Hw Hgv) as Hegv.
  eexists _, _, (Fields.constant (Fields._domain x) Kone), gv.
  split; [reflexivity|]. split; [|split; [done|split]].
  - cbn [make_var ScalingOperator__init__ mbind result_bind Linearization_ _jac _val
           domain_of_value op_target Operators.sum Fields.__init__].
    apply gradient_of_chain; [done|done| |done].
    cbn [apply]. rewrite OperatorMore.check_adjoint; [|done|by cbn; apply FieldFacts.is_refl].
    cbn [mbind result_bind]. unfold SumReductionOperator_apply.
    change (ADJOINT_TIMES =? TIMES)%N with false. cbn [item]. rewrite item_one. reflexivity.
  - unfold Fields.entries at 1. cbn. by rewrite (FieldMore.entries_length x Hx).
  - split; [|split; [|split; [congruence|]]].
    + cbn [make_var ScalingOperator__init__ mbind result_bind Linearization_ _jac _val].
      unfold vdot. cbn [_val _jac Linearization_ Operators.vdot]. unfold Fields.vdot.
      rewrite Hd, FieldFacts.is_refl. reflexivity.
    + cbn [Linearization_ domain_of_value]. apply gradient_of_chain; [done|done| |congruence].
      cbn [apply]. rewrite OperatorMore.check_adjoint; [|done|by cbn; apply FieldFacts.is_refl].
      cbn [mbind result_bind]. unfold VdotOperator_apply.
      change (ADJOINT_TIMES =? TIMES)%N with false. cbn [item]. rewrite item_one.
      cbn [mbind result_bind]. unfold mul_scalar, binary_scalar. by rewrite Hgv.
    + rewrite Hegv. apply FieldMore.fmap_id_on. intros v. apply Kmul_one_r.
Qed.

End gradients.

Section sigmoid.

Context {Domain : Type}.
#[local] Abbreviation DomainTuple := (@DomainTuples.DomainTuple Domain).
#[local] Abbreviation Field := (@Fields.Field Domain R).
#[local] Abbreviation Linearization := (@Linearizations.Linearization Domain R).

Variable scalar_domain : DomainTuple.

Implicit Types (v : Field) (L : Linearization).

Lemma square_as_power (t : R) : Kpow t (Kadd Kone Kone) = (t * t)%R.
Proof.
  cbn. unfold R_pow.
  assert (Hi : Int_part (1 + 1) = 2%Z).
  { symmetry. apply Int_part_spec. lra. }
  rewrite Hi. rewrite decide_True by lra. change (powerRZ t 2) with (t * (t * 1))%R. lra.
Qed.

(** X25. On real numbers, which stand for the [float64] entries that are
    numbers, [positive_tanh] of a Linearization with the Field [v] as
    value returns the value [(1 + tanh v) / 2], which is what
    [Field.positive_tanh] gives for [v] and lies in the closed interval
    from 0 to 1, and as Jacobian the chain of the diagonal operator of
    [(1 - tanh(v)**2) / 2] and the Jacobian it had.  That diagonal is the
    derivative of the value: it equals [2 p (1 - p)] for the value [p],
    and lies in the closed interval from 0 to 1/2.  (No strict bound is
    stated: the rounded [tanh] of [float64] is 1.0 from 19.1 on, where
    the code has the value 1.0 and the diagonal 0.0.) *)
Theorem positive_tanh_chain_rule L v :
  _val L = VField v → Fields.field_ok v →
  ∃ p q d,
    positive_tanh L = Ok (Linearization_ (VField p) (chain (makeOp (VField d)) (_jac L))) ∧
    Fields.positive_tanh v = Ok q ∧ Fields.entries q = Fields.entries p ∧
    Fields._domain p = Fields._domain v ∧ Fields._domain d = Fields._domain v ∧
    Fields.entries p = (λ x, 1 / 2 * (1 + Rtrigo_def.tanh x))%R <$> Fields.entries v ∧
    Fields.entries d
    = (λ x, 1 / 2 * (1 - Rtrigo_def.tanh x * Rtrigo_def.tanh x))%R <$> Fields.entries v ∧
    Fields.entries d = (λ y, 2 * y * (1 - y))%R <$> Fields.entries p ∧
    Forall (λ y, 0 <= y <= 1)%R (Fields.entries p) ∧
    Forall (λ y, 0 <= y <= 1 / 2)%R (Fields.entries d).
Proof.
  intros Hv Hok.
  destruct (FieldMore.positive_tanh_entries v Hok) as (q & Hq & _ & _ & Heq).
  destruct (LinearizationFacts.func1_mapped Ktanh v Hok) as (t & Ht & Hokt & Hdt & Het).
  destruct (FieldMore.getattr_scalar_built Fields.radd_ t Kone Hokt) as (t1 & Ht1 & Hokt1 & Hdt1).
  pose proof (FieldMore.getattr_scalar_entries Fields.radd_ t Kone t1 Hokt Ht1) as Het1.
  cbn [Fields.getattr Fields.np_getattr] in Ht1, Het1.
  destruct (LinearizationFacts.func2_scalar_mapped (λ a b, Kmul b a) t1 half Hokt1)
    as (p & Hp & Hokp & Hdp & Hep).
  destruct (LinearizationFacts.one_minus_square_mapped v t Hokt Het Hdt)
    as (d0 & Hd0 & Hokd0 & Hdd0 & Hed0).
  destruct (LinearizationFacts.func2_scalar_mapped (λ a b, Kmul b a) d0 half Hokd0)
    as (d & Hd & Hokd & Hdd & Hed).
  assert (Hpe : Fields.entries p
                = (λ x, 1 / 2 * (1 + Rtrigo_def.tanh x))%R <$> Fields.entries v).
  { rewrite Hep, Het1, Het, <- !list_fmap_compose. apply list_fmap_ext. intros _ x _.
    cbn. unfold half. cbn. lra. }
  assert (Hde : Fields.entries d
                = (λ x, 1 / 2 * (1 - Rtrigo_def.tanh x * Rtrigo_def.tanh x))%R
                    <$> Fields.entries v).
  { rewrite Hed, Hed0, <- !list_fmap_compose. apply list_fmap_ext. intros _ x _.
    cbn [compose derivative]. rewrite square_as_power. unfold half. cbn. lra. }
  exists p, q, d. split.
  { unfold positive_tanh, func1, binary_scalar. rewrite Hv. unfold Fields.tanh. rewrite Ht.
    cbn [fmap result_fmap mbind result_bind]. rewrite Ht1.
    cbn [fmap result_fmap mbind result_bind]. unfold Fields.__rmul__. rewrite Hp.
    cbn [fmap result_fmap mbind result_bind]. rewrite Hd0.
    cbn [fmap result_fmap mbind result_bind]. rewrite Hd. reflexivity. }
  split; [done|]. split; [by rewrite Heq, Hpe|]. split; [congruence|]. split; [congruence|].
  split; [done|]. split; [done|]. split.
  { rewrite Hde, Hpe, <- list_fmap_compose. apply list_fmap_ext. intros _ x _. cbn. lra. }
  split.
  { rewrite Hpe. apply Forall_fmap, Forall_forall. intros x _. cbn.
    pose proof (FieldMore.tanh_bounds x). lra. }
  rewrite Hde. apply Forall_fmap, Forall_forall. intros x _. cbn.
  pose proof (FieldMore.tanh_bounds x). nra.
Qed.

End sigmoid.
End LinearizationMore.

(** ** The further statements on the sample objects *)

Module MoreInstances.
Import Samples.

(** The uniform zero Field times an array, the short cut that returns the
    uniform Field. *)
Lemma field_operators_are_elementwise_witness :
  ∃ r, Fields.getattr Fields.mul_ (Fields.constant two_pixels 0%R)
         (Fields.OField (field two_pixels 3%R 4%R)) = Ok r ∧
       Fields.field_ok r ∧ Fields._domain r = two_pixels ∧
       Fields.entries r = zip_with Rmult [0%R; 0%R] [3%R; 4%R].
Proof.
  exact (FieldMore.field_operators_are_elementwise Fields.mul_
           (Fields.constant two_pixels 0%R) (field two_pixels 3%R 4%R)
           (FieldFacts.constant_ok _ _) (Instances.sample_field_ok two_pixels _ _ eq_refl) eq_refl).
Defined.

Lemma field_scalar_operators_are_elementwise_witness :
  ∃ r, Fields.getattr Fields.mul_ (field two_pixels 3%R 4%R) (Fields.OScalar 0%R) = Ok r ∧
       Fields.field_ok r ∧ Fields._domain r = two_pixels ∧
       Fields.entries r = (λ x, Rmult x 0) <$> [3%R; 4%R].
Proof.
  exact (FieldMore.field_scalar_operators_are_elementwise Fields.mul_
           (field two_pixels 3%R 4%R) 0%R (Instances.sample_field_ok two_pixels _ _ eq_refl)).
Defined.

Lemma positive_tanh_in_unit_interval_witness :
  ∃ r, Fields.positive_tanh (field two_pixels (-1)%R 2%R) = Ok r ∧
       Fields.field_ok r ∧ Fields._domain r = two_pixels ∧
       Fields.entries r
       = (λ x, (1 / 2 * (1 + Rtrigo_def.tanh x))%R) <$> [(-1)%R; 2%R] ∧
       Forall (λ p, (0 <= p <= 1)%R) (Fields.entries r).
Proof.
  exact (FieldMore.positive_tanh_in_unit_interval (field two_pixels (-1)%R 2%R)
           (Instances.sample_field_ok two_pixels _ _ eq_refl)).
Defined.

Lemma two_keys_NoDup : NoDup (MultiFields.keys two_keys).
Proof.
  cbn. apply NoDup_cons. split; [|apply NoDup_singleton].
  rewrite list_elem_of_singleton. discriminate.
Qed.

Lemma dict_round_trip_witness :
  (∀ key, MultiFields.to_dict only_a !! key = MultiFields.__getitem__ only_a key) ∧
  MultiFields.from_dict (MultiFields.to_dict only_a) two_keys = Ok only_a.
Proof.
  exact (MultiFieldMore.dict_round_trip only_a Instances.only_a_ok two_keys_NoDup).
Defined.

Lemma both_keys_ok : MultiFields.multi_field_ok both_keys.
Proof.
  split; [done|]. cbn. repeat constructor; by apply Instances.sample_field_ok.
Qed.

Lemma only_b_complex_ok : MultiFields.multi_field_ok only_b_complex.
Proof.
  split; [done|]. cbn. repeat constructor; by apply Instances.sample_field_ok.
Qed.

Lemma multi_vdot_is_conjugate_symmetric_witness :
  MultiFields.vdot both_keys only_b_complex
  = Ok (foldr Cadd (RtoC 0) (MultiFields.common_products both_keys only_b_complex)) ∧
  MultiFields.vdot only_b_complex both_keys
  = Ok (Cconj (foldr Cadd (RtoC 0) (MultiFields.common_products both_keys only_b_complex))).
Proof.
  exact (MultiFieldMore.multi_vdot_is_conjugate_symmetric both_keys only_b_complex
           both_keys_ok only_b_complex_ok eq_refl).
Defined.

Lemma two_is_not_zero : (2, 0)%R ≠ RtoC 0.
Proof. unfold RtoC. intros [= Hz]. lra. Qed.

#[local] Abbreviation cfield := (@field complex two_pixels).
#[local] Abbreviation cfield_ok := (@Instances.sample_field_ok complex two_pixels).

Lemma scaling_inverse_round_trip_witness :
  ∃ y z,
    Operators.apply scalar_domain
      (Operators.ScalingOperator (2, 0)%R (Operators.DomTuple two_pixels) Operators._all_ops)
      (Operators.VField (cfield (1, 2)%R (3, 4)%R)) Operators.ADJOINT_TIMES
    = Ok (Operators.VField y) ∧
    Operators.apply scalar_domain
      (Operators.ScalingOperator (2, 0)%R (Operators.DomTuple two_pixels) Operators._all_ops)
      (Operators.VField y) Operators.ADJOINT_INVERSE_TIMES
    = Ok (Operators.VField z) ∧
    Fields._domain z = two_pixels ∧ Fields.entries z = [(1, 2)%R; (3, 4)%R].
Proof.
  exact (OperatorMore.scaling_inverse_round_trip scalar_domain (2, 0)%R two_pixels
           (cfield (1, 2)%R (3, 4)%R) Operators.ADJOINT_TIMES eq_refl
           (cfield_ok _ _ eq_refl) eq_refl two_is_not_zero).
Defined.

Lemma scaling_adjoint_witness :
  ∃ ax ay c,
    Operators.apply scalar_domain
      (Operators.ScalingOperator (0, 1)%R (Operators.DomTuple two_pixels) Operators._all_ops)
      (Operators.VField (cfield (1, 2)%R (3, 4)%R)) Operators.TIMES
    = Ok (Operators.VField ax) ∧
    Operators.apply scalar_domain
      (Operators.ScalingOperator (0, 1)%R (Operators.DomTuple two_pixels) Operators._all_ops)
      (Operators.VField (cfield (5, 6)%R (7, 8)%R)) Operators.ADJOINT_TIMES
    = Ok (Operators.VField ay) ∧
    Operators.vdot (Operators.VField (cfield (5, 6)%R (7, 8)%R)) (Operators.VField ax) = Ok c ∧
    Operators.vdot (Operators.VField ay) (Operators.VField (cfield (1, 2)%R (3, 4)%R)) = Ok c.
Proof.
  exact (OperatorMore.scaling_adjoint scalar_domain (0, 1)%R two_pixels
           (cfield (1, 2)%R (3, 4)%R) (cfield (5, 6)%R (7, 8)%R)
           (cfield_ok _ _ eq_refl) (cfield_ok _ _ eq_refl) eq_refl eq_refl).
Defined.

Lemma vdot_operator_adjoint_witness :
  ∃ ax ay c,
    Operators.apply scalar_domain
      (Operators.VdotOperator (Operators.VField (cfield (0, 1)%R (2, 0)%R)))
      (Operators.VField (cfield (1, 2)%R (3, 4)%R)) Operators.TIMES
    = Ok (Operators.VField ax) ∧
    Fields._domain ax = scalar_domain ∧
    Operators.apply scalar_domain
      (Operators.VdotOperator (Operators.VField (cfield (0, 1)%R (2, 0)%R)))
      (Operators.VField (Fields.constant scalar_domain (1, 1)%R)) Operators.ADJOINT_TIMES
    = Ok (Operators.VField ay) ∧
    Fields._domain ay = two_pixels ∧
    Operators.vdot (Operators.VField (Fields.constant scalar_domain (1, 1)%R))
      (Operators.VField ax) = Ok c ∧
    Operators.vdot (Operators.VField ay) (Operators.VField (cfield (1, 2)%R (3, 4)%R)) = Ok c.
Proof.
  exact (OperatorMore.vdot_operator_adjoint scalar_domain
           (cfield (0, 1)%R (2, 0)%R) (cfield (1, 2)%R (3, 4)%R)
           (Fields.constant scalar_domain (1, 1)%R) eq_refl
           (cfield_ok _ _ eq_refl) (cfield_ok _ _ eq_refl) (FieldFacts.constant_ok _ _)
           eq_refl eq_refl).
Defined.

Lemma sum_reduction_adjoint_witness :
  ∃ ax ay c,
    Operators.apply scalar_domain
      (Operators.SumReductionOperator (Operators.DomTuple two_pixels))
      (Operators.VField (cfield (1, 2)%R (3, 4)%R)) Operators.TIMES
    = Ok (Operators.VField ax) ∧
    Fields.entries ax = [foldr Cadd (RtoC 0) [(1, 2)%R; (3, 4)%R]] ∧
    Operators.apply scalar_domain
      (Operators.SumReductionOperator (Operators.DomTuple two_pixels))
      (Operators.VField (Fields.constant scalar_domain (1, 1)%R)) Operators.ADJOINT_TIMES
    = Ok (Operators.VField ay) ∧
    Fields.entries ay = [(1, 1)%R; (1, 1)%R] ∧
    Operators.vdot (Operators.VField (Fields.constant scalar_domain (1, 1)%R))
      (Operators.VField ax) = Ok c ∧
    Operators.vdot (Operators.VField ay) (Operators.VField (cfield (1, 2)%R (3, 4)%R)) = Ok c.
Proof.
  exact (OperatorMore.sum_reduction_adjoint scalar_domain two_pixels
           (cfield (1, 2)%R (3, 4)%R) (Fields.constant scalar_domain (1, 1)%R) eq_refl
           (cfield_ok _ _ eq_refl) (FieldFacts.constant_ok _ _) eq_refl eq_refl).
Defined.

#[local] Open Scope R_scope.

#[local] Abbreviation rfield := (@field R two_pixels).
#[local] Abbreviation rfield_ok := (@Instances.sample_field_ok R two_pixels).

Lemma positive_entries (a b : R) : (0 < a)%R → (0 < b)%R → Forall (λ r, 0 < r)%R [a; b].
Proof. intros Ha Hb. constructor; [done|constructor; [done|constructor]]. Qed.


Lemma unit_entries (a b : R) :
  (0 < a < 1)%R → (0 < b < 1)%R → Forall (λ r, 0 < r < 1)%R [a; b].
Proof. intros Ha Hb. constructor; [done|constructor; [done|constructor]]. Qed.

Lemma closed_unit_entries (a b : R) :
  (0 <= a <= 1)%R → (0 <= b <= 1)%R → Forall (λ r, 0 <= r <= 1)%R [a; b].
Proof. intros Ha Hb. constructor; [done|constructor; [done|constructor]]. Qed.

Lemma bernoulli_energy_is_cross_entropy_witness :
  let e := Energies.cross_entropy [(1 / 2)%R; (1 / 4)%R] [0%R; 1%R] in
  Energies.BernoulliEnergy_apply scalar_domain (rfield 0 1)
    (Operators.VField (rfield (1 / 2) (1 / 4))) = Ok (Fields.constant scalar_domain e) ∧
  (0 <= e)%R.
Proof.
  intros e.
  destruct (EnergyMore.bernoulli_energy_is_cross_entropy scalar_domain
              (rfield (1 / 2) (1 / 4)) (rfield 0 1)
              (rfield_ok _ _ eq_refl) (rfield_ok _ _ eq_refl) eq_refl
              (unit_entries (1 / 2) (1 / 4) ltac:(lra) ltac:(lra))
              (closed_unit_entries 0 1 ltac:(lra) ltac:(lra))) as (Happ & Hnn & _).
  split; [exact Happ|exact Hnn].
Defined.

Lemma helper_tracks_the_point_witness :
  ∃ e', Fields.entries (Minimizers.position e') = [5%R; 6%R] ∧
        Minimizers.fun_ two_pixels [5%R; 6%R] energy0
        = Ok (Minimizers.value_at energy0 (Minimizers.position e'), e') ∧
        Minimizers.jac two_pixels [5%R; 6%R] energy0
        = Ok (Minimizers._toArray_rw
                (Minimizers.gradient_at energy0 (Minimizers.position e')), e').
Proof.
  destruct (MinimizerMore.helper_tracks_the_point two_pixels [5%R; 6%R] energy0
              (rfield_ok _ _ eq_refl) eq_refl) as [Hfits _].
  destruct (Hfits eq_refl) as (e' & He & _ & Hfun & Hjac & _).
  exists e'. split; [exact He|]. split; [exact Hfun|exact Hjac].
Defined.

Lemma grid_cells_are_positive :
  Forall (λ sp, ∀ J, 0 < Nifty3.dvol sp J) [graded_cells; half_cells].
Proof.
  constructor; [|constructor; [|constructor]]; intros J; [|cbn; lra].
  unfold graded_cells. cbn [Nifty3.dvol]. destruct J as [|[|?] [|? ?]]; lra.
Qed.

(** The grid weighted over its first space, whose cells have the volumes
    2 and 3: with the power 2 the entry [(0, 1)] of the first row becomes
    [(0, 4)] and the entry [(2, 0)] of the second [(18, 0)]; the power -1
    after it leaves [(6, 0)], and the power -2 after it [(2, 0)]. *)
Lemma weight_powers_add_witness :
  ∃ once twice back,
    Nifty3.weight grid_a 2 (Some [0%nat]) = Ok once ∧
    Nifty3.weight once (-1) (Some [0%nat]) = Ok twice ∧
    Nifty3.weight once (- 2) (Some [0%nat]) = Ok back ∧
    Nifty3.domain once = [graded_cells; half_cells] ∧
    Nifty3.arr_shape (Nifty3.val once) = [2; 2]%nat ∧
    Nifty3.entry (Nifty3.val once) [0; 1]%nat = (0, 4) ∧
    Nifty3.entry (Nifty3.val once) [1; 0]%nat = (18, 0) ∧
    Nifty3.entry (Nifty3.val twice) [1; 0]%nat = (6, 0) ∧
    Nifty3.entry (Nifty3.val back) [1; 0]%nat = (2, 0).
Proof.
  destruct (WeightFacts.weight_powers_add grid_a 2 (-1) (Some [0%nat])
              (Instances.grid_field_ok _ _ _ _) grid_cells_are_positive)
    as (once & twice & both & none & back & Hp & Hq & _ & _ & Hb & Hd & Hs & He).
  exists once, twice, back. repeat (split; [done|]).
  destruct (He [0; 1]%nat) as (H01 & _); [cbn; set_solver|].
  destruct (He [1; 0]%nat) as (H10 & Ht10 & _ & _ & Hb10); [cbn; set_solver|].
  assert (Hin : bool_decide (0%nat ∈ [0%nat]) = true) by (apply bool_decide_eq_true_2; set_solver).
  assert (Hout : bool_decide (1%nat ∈ [0%nat]) = false)
    by (apply bool_decide_eq_false_2; set_solver).
  split.
  { rewrite H01. cbn. rewrite Hin, Hout, (WeightFacts.R_pow_int _ 2).
    change (powerRZ 2 2) with (2 * (2 * 1)).
    unfold Cmul, RtoC. cbn. f_equal; lra. }
  split.
  { rewrite H10. cbn. rewrite Hin, Hout, (WeightFacts.R_pow_int _ 2).
    change (powerRZ 3 2) with (3 * (3 * 1)).
    unfold Cmul, RtoC. cbn. f_equal; lra. }
  split; [|exact Hb10].
  rewrite Ht10. cbn. rewrite Hin, Hout.
  replace (2 + -1) with 1 by lra. rewrite (WeightFacts.R_pow_int _ 1).
  change (powerRZ 3 1) with (3 * 1).
  unfold Cmul, RtoC. cbn. f_equal; lra.
Defined.

Lemma gradients_of_sum_and_vdot_witness :
  ∃ Ls Lv gs gv,
    (L ← Linearizations.make_var (Operators.VField (rfield 1 2));
     Linearizations.sum scalar_domain L) = Ok Ls ∧
    Linearizations.gradient scalar_domain Ls = Ok (Operators.VField gs) ∧
    Fields._domain gs = two_pixels ∧
    Fields.entries gs = [1%R; 1%R] ∧
    (L ← Linearizations.make_var (Operators.VField (rfield 1 2));
     Linearizations.vdot scalar_domain L (inl (Operators.VField (rfield 3 4)))) = Ok Lv ∧
    Linearizations.gradient scalar_domain Lv = Ok (Operators.VField gv) ∧
    Fields._domain gv = two_pixels ∧
    Fields.entries gv = [3%R; 4%R].
Proof.
  exact (LinearizationMore.gradients_of_sum_and_vdot scalar_domain eq_refl
           (rfield 1 2) (rfield 3 4) (rfield_ok _ _ eq_refl) (rfield_ok _ _ eq_refl) eq_refl).
Defined.

Lemma variable_applies (a b : R) (t : @Fields.Field nat R) :
  Fields._domain t = two_pixels →
  Operators.apply scalar_domain (Linearizations._jac (variable a b)) (Operators.VField t)
    Operators.TIMES = Ok (Operators.VField t).
Proof.
  intros Hd.
  exact (LinearizationMore.apply_scaling_one scalar_domain two_pixels t Operators.TIMES
           eq_refl Hd).
Qed.

(** The square of a variable: the Jacobian is twice the variable. *)
Lemma product_rule_witness :
  ∃ L fg r,
    Linearizations.__mul__ scalar_domain (variable 1 2)
      (Linearizations.OLinearization (variable 1 2)) = Ok L ∧
    Linearizations._val L = Operators.VField fg ∧ Fields._domain fg = two_pixels ∧
    Fields.entries fg = zip_with Rmult [1%R; 2%R] [1%R; 2%R] ∧
    Operators.apply scalar_domain (Linearizations._jac L) (Operators.VField (rfield 3 4))
      Operators.TIMES = Ok (Operators.VField r) ∧
    Fields._domain r = two_pixels ∧
    Fields.entries r
    = zip_with Rplus (zip_with Rmult [3%R; 4%R] [1%R; 2%R])
                     (zip_with Rmult [3%R; 4%R] [1%R; 2%R]).
Proof.
  exact (LinearizationMore.product_rule scalar_domain (variable 1 2) (variable 1 2)
           (rfield 1 2) (rfield 1 2) (rfield 3 4) (rfield 3 4) (rfield 3 4)
           eq_refl eq_refl (rfield_ok _ _ eq_refl) (rfield_ok _ _ eq_refl) eq_refl
           eq_refl eq_refl eq_refl eq_refl
           (variable_applies 1 2 (rfield 3 4) eq_refl)
           (variable_applies 1 2 (rfield 3 4) eq_refl)
           (rfield_ok _ _ eq_refl) (rfield_ok _ _ eq_refl) eq_refl eq_refl).
Defined.

Lemma poisson_gradient_witness :
  ∃ L v g,
    (L0 ← Linearizations.make_var (Operators.VField (rfield 1 2));
     Energies.res_linearization scalar_domain L0 (Operators.VField (rfield 3 4))) = Ok L ∧
    Linearizations._val L = Operators.VField v ∧
    Fields.entries v = [Energies.real_formula [1%R; 2%R] [3%R; 4%R]] ∧
    Linearizations.gradient scalar_domain L = Ok (Operators.VField g) ∧
    Fields._domain g = two_pixels ∧
    Fields.entries g = zip_with (λ r δ, 1 - δ / r)%R [1%R; 2%R] [3%R; 4%R].
Proof.
  exact (EnergyMore.poisson_gradient scalar_domain eq_refl (rfield 1 2) (rfield 3 4)
           (rfield_ok _ _ eq_refl) (rfield_ok _ _ eq_refl) eq_refl).
Defined.

Lemma inverse_gamma_minimum_witness :
  ∃ ex ed,
    Energies.InverseGammaLikelihood_apply scalar_domain (rfield 3 4)
      (Operators.VField (rfield 1 2)) = Ok (Fields.constant scalar_domain ex) ∧
    ex = Energies.inverse_gamma_formula [1; 2] [3; 4] ∧
    Energies.InverseGammaLikelihood_apply scalar_domain (rfield 3 4)
      (Operators.VField (rfield 3 4)) = Ok (Fields.constant scalar_domain ed) ∧
    (ed <= ex)%R ∧ (ex = ed → [1; 2] = [3; 4]).
Proof.
  exact (EnergyMore.inverse_gamma_minimum scalar_domain (rfield 1 2) (rfield 3 4)
           (rfield_ok _ _ eq_refl) (rfield_ok _ _ eq_refl) eq_refl
           (positive_entries 1 2 ltac:(lra) ltac:(lra))
           (positive_entries 3 4 ltac:(lra) ltac:(lra))).
Defined.

Lemma positive_tanh_chain_rule_witness :
  ∃ p q d,
    Linearizations.positive_tanh (variable (-1) 2)
    = Ok (Linearizations.Linearization_ (Operators.VField p)
            (Operators.chain (Operators.makeOp (Operators.VField d))
               (Linearizations._jac (variable (-1) 2)))) ∧
    Fields.positive_tanh (rfield (-1) 2) = Ok q ∧ Fields.entries q = Fields.entries p ∧
    Fields._domain p = two_pixels ∧ Fields._domain d = two_pixels ∧
    Fields.entries p = (λ x, 1 / 2 * (1 + Rtrigo_def.tanh x)) <$> [-1; 2] ∧
    Fields.entries d
    = (λ x, 1 / 2 * (1 - Rtrigo_def.tanh x * Rtrigo_def.tanh x)) <$> [-1; 2] ∧
    Fields.entries d = (λ y, 2 * y * (1 - y)) <$> Fields.entries p ∧
    Forall (λ y, 0 <= y <= 1) (Fields.entries p) ∧
    Forall (λ y, 0 <= y <= 1 / 2) (Fields.entries d).
Proof.
  exact (LinearizationMore.positive_tanh_chain_rule (variable (-1) 2) (rfield (-1) 2)
           eq_refl (rfield_ok _ _ eq_refl)).
Defined.

End MoreInstances.
